(** * httpsource/mux.go: the request/response pair multiplexer

    A shallow embedding of [PairMux] as a labelled transition system.
    Every goroutine of the program (the copying loop launched by [Start],
    the callers of [AddOutput], [Start] and [WaitUntilFinished], the
    producer feeding [src], the consumers of the outputs and the timer of
    the timeout writer) contributes the events it can perform; [step] is
    the executable semantics of one event, [run] of a schedule. *)

From Stdlib Require Import ZArith Lia.
From stdpp Require Import prelude strings.

Open Scope Z_scope.

(** ** Go channels *)

(** [*RequestResponsePair]: the mux never looks inside, a pointer is
    a number. *)
Definition RequestResponsePair := nat.

(** A channel: capacity given to [make], buffered values, the closed flag
    and the queue of parked receivers (the runtime serves it first in,
    first out).  The last four fields are history: everything a send has
    handed over, everything a receive has returned, how many receives
    returned the end of stream, how many times [close] ran. *)
Record chan (A : Type) := Chan {
  ch_cap : Z;
  ch_buf : list A;
  ch_closed : bool;
  ch_recvq : list nat;
  ch_sent : list A;
  ch_got : list A;
  ch_eos : nat;
  ch_closes : nat
}.
Arguments Chan {A}.
Arguments ch_cap {A}.
Arguments ch_buf {A}.
Arguments ch_closed {A}.
Arguments ch_recvq {A}.
Arguments ch_sent {A}.
Arguments ch_got {A}.
Arguments ch_eos {A}.
Arguments ch_closes {A}.

Inductive panic :=
| PanicMakeChan | PanicSendClosed | PanicCloseClosed | PanicCloseNil.

(** A channel just made: empty, open, nobody waiting, no history. *)
Definition new_chan {A} (cap : Z) : chan A :=
  Chan cap [] false [] [] [] 0%nat 0%nat.

(** The runtime's bound on the size of a channel ([makechan] in
    runtime/chan.go): the buffer, as many elements as the size says, has
    to fit below [maxAlloc] together with the header of the channel.  The
    numbers are those of the 64-bit ports, where [maxAlloc] is 2^48 and
    the header takes 96 bytes; the elements of the channels made here are
    pointers, 8 bytes each.  Nothing proved below depends on the numbers. *)
Definition maxAlloc : Z := 2 ^ 48.
Definition hchanSize : Z := 96.
Definition elem_size : Z := 8.

(** The largest size [make] accepts. *)
Definition max_chan_size : Z := (maxAlloc - hchanSize) / elem_size.

(** [make(chan A, buf)] for a channel of pointers: a negative size panics,
    and so does a size whose buffer is over the runtime's bound, both with
    [makechan: size out of range].  The memory asked for is taken to be
    there. *)
Definition make_chan {A} (buf : Z) : option (chan A) :=
  if buf <? 0 then None
  else if maxAlloc - hchanSize <? elem_size * buf then None
  else Some (new_chan buf).

Inductive send_result (A : Type) :=
| SendHandoff (r : nat) (ch : chan A)
| SendBuffered (ch : chan A)
| SendBlocks
| SendPanics.
Arguments SendHandoff {A}.
Arguments SendBuffered {A}.
Arguments SendBlocks {A}.
Arguments SendPanics {A}.

(** [ch <- x] as the runtime tries it: a closed channel panics, a parked
    receiver takes the value directly, else the buffer takes it when it has
    room, else the sender has to wait. *)
Definition chan_send {A} (ch : chan A) (x : A) : send_result A :=
  if ch_closed ch then SendPanics
  else match ch_recvq ch with
       | r :: q =>
           SendHandoff r (Chan (ch_cap ch) (ch_buf ch) false q
                            (ch_sent ch ++ [x]) (ch_got ch ++ [x])
                            (ch_eos ch) (ch_closes ch))
       | [] =>
           if Z.of_nat (length (ch_buf ch)) <? ch_cap ch
           then SendBuffered (Chan (ch_cap ch) (ch_buf ch ++ [x]) false []
                                (ch_sent ch ++ [x]) (ch_got ch)
                                (ch_eos ch) (ch_closes ch))
           else SendBlocks
       end.

(** The channel after a send that went through, if it did. *)
Definition sent_chan {A} (r : send_result A) : option (chan A) :=
  match r with
  | SendHandoff _ ch | SendBuffered ch => Some ch
  | SendBlocks | SendPanics => None
  end.

Inductive recv_result (A : Type) :=
| RecvValue (x : A) (ch : chan A)
| RecvEnd (ch : chan A)
| RecvBlocks.
Arguments RecvValue {A}.
Arguments RecvEnd {A}.
Arguments RecvBlocks {A}.

(** [<-ch]: the oldest buffered value, or the end of stream of a closed and
    drained channel, or the receiver has to wait. *)
Definition chan_recv {A} (ch : chan A) : recv_result A :=
  match ch_buf ch with
  | x :: b =>
      RecvValue x (Chan (ch_cap ch) b (ch_closed ch) (ch_recvq ch)
                     (ch_sent ch) (ch_got ch ++ [x])
                     (ch_eos ch) (ch_closes ch))
  | [] =>
      if ch_closed ch
      then RecvEnd (Chan (ch_cap ch) [] true (ch_recvq ch)
                      (ch_sent ch) (ch_got ch)
                      (S (ch_eos ch)) (ch_closes ch))
      else RecvBlocks
  end.

(** A receiver that has to wait is parked at the back of the queue. *)
Definition chan_park {A} (r : nat) (ch : chan A) : chan A :=
  Chan (ch_cap ch) (ch_buf ch) (ch_closed ch) (ch_recvq ch ++ [r])
       (ch_sent ch) (ch_got ch) (ch_eos ch) (ch_closes ch).

(** [close(ch)]: closing twice panics; every parked receiver wakes up with
    the end of stream. *)
Definition chan_close {A} (ch : chan A) : option (chan A) :=
  if ch_closed ch then None
  else Some (Chan (ch_cap ch) (ch_buf ch) true []
               (ch_sent ch) (ch_got ch)
               (ch_eos ch + length (ch_recvq ch))%nat (S (ch_closes ch))).

(** A sender's value put on the channel whatever its capacity: the source
    channel belongs to the producer, and a producer parked on a full
    channel is, for the reader, one more value in line. *)
Definition chan_enqueue {A} (ch : chan A) (x : A) : chan A :=
  Chan (ch_cap ch) (ch_buf ch ++ [x]) (ch_closed ch) (ch_recvq ch)
       (ch_sent ch ++ [x]) (ch_got ch) (ch_eos ch) (ch_closes ch).

(** ** The mux *)

Record output := Output {
  name : string;
  dst : nat    (* chan<- *RequestResponsePair: a handle into [chans] *)
}.

(** The three functions the [writer] field can hold: [WriterBlocking]
    stands for [blockingOutputWriter], [WriterNonBlocking] for
    [nonBlockingOutputWriter], [WriterTimeout timeout] for the closure
    [makeTimeoutOutputWriter] returns.  What they do is defined with the
    goroutine that calls them. *)
Inductive writer_fn :=
| WriterBlocking
| WriterNonBlocking
| WriterTimeout (timeout : Z).

Definition makeTimeoutOutputWriter (timeout : Z) : writer_fn :=
  WriterTimeout timeout.

(** [src] holds the state of the source channel itself: the mux is its
    only reader, the producer its only writer. *)
Record PairMux := Mux {
  Finished : chan bool;
  outputs : list output;
  lock : bool;                 (* sync.Mutex: true when held *)
  src : chan RequestResponsePair;
  blocking : bool;
  timeout : Z;                 (* time.Duration *)
  writer : writer_fn;
  started : bool
}.

Definition NewBlockingPairMux (src : chan RequestResponsePair) : PairMux :=
  Mux (new_chan 1) [] false src true 0 WriterBlocking false.

Definition NewNonBlockingPairMux (src : chan RequestResponsePair)
    (timeout : Z) : PairMux :=
  Mux (new_chan 1) [] false src false timeout
      (if negb (timeout =? 0) then makeTimeoutOutputWriter timeout
       else WriterNonBlocking)
      false.

Definition set_Finished (m : PairMux) (f : chan bool) : PairMux :=
  Mux f (outputs m) (lock m) (src m) (blocking m) (timeout m) (writer m)
      (started m).
Definition set_outputs (m : PairMux) (os : list output) : PairMux :=
  Mux (Finished m) os (lock m) (src m) (blocking m) (timeout m) (writer m)
      (started m).
Definition set_lock (m : PairMux) (l : bool) : PairMux :=
  Mux (Finished m) (outputs m) l (src m) (blocking m) (timeout m) (writer m)
      (started m).
Definition set_src (m : PairMux) (c : chan RequestResponsePair) : PairMux :=
  Mux (Finished m) (outputs m) (lock m) c (blocking m) (timeout m) (writer m)
      (started m).
Definition set_started (m : PairMux) (b : bool) : PairMux :=
  Mux (Finished m) (outputs m) (lock m) (src m) (blocking m) (timeout m)
      (writer m) b.

(** ** Goroutines and the world they share *)

(** An output channel on the heap, with two facts about its registration
    kept for the statements below: how many receives on the source the
    goroutine had completed by then (items, and the end of stream), and
    whether a goroutine had already finished. *)
Record slot := Slot {
  sl_ch : chan RequestResponsePair;
  sl_born : nat;
  sl_late : bool
}.

Definition set_ch (s : slot) (c : chan RequestResponsePair) : slot :=
  Slot c (sl_born s) (sl_late s).

(** Where the goroutine launched by [Start] stands. *)
Inductive pc :=
| PRecv                      (* RunStep: at [item, ok := <-m.src] *)
| PSnap (item : RequestResponsePair)
                             (* RunStep: at the lock around [m.outputs[:]] *)
| PWrite (item : RequestResponsePair) (todo : list output)
                             (* RunStep: at [m.writer(output, item)] *)
| PTimed (item : RequestResponsePair) (o : output) (todo : list output)
         (sleep : Z)         (* timeout writer: at its [select], the timer
                                goroutine with [sleep] left to sleep *)
| PShutLock                  (* shutdown: at [m.lock.Lock()] *)
| PShutClose (todo : list output)
                             (* shutdown: at [close(output.dst)], and at
                                [m.Finished <- true] once [todo] is empty *)
| PShutUnlock                (* shutdown: at the deferred Unlock *)
| PDone.                     (* the goroutine has returned *)

Definition is_done (p : pc) : bool :=
  match p with PDone => true | _ => false end.

Record world := World {
  mux : PairMux;
  chans : list slot;         (* the output channels, by handle *)
  loops : list pc;           (* the goroutines [Start] has launched *)
  nwait : nat;               (* calls of WaitUntilFinished so far *)
  returned : list nat;       (* those that have returned *)
  leaked : nat;              (* timer goroutines parked for good *)
  crashed : option panic
}.

Definition set_mux (w : world) (m : PairMux) : world :=
  World m (chans w) (loops w) (nwait w) (returned w) (leaked w) (crashed w).
Definition set_chans (w : world) (cs : list slot) : world :=
  World (mux w) cs (loops w) (nwait w) (returned w) (leaked w) (crashed w).
Definition set_loops (w : world) (ls : list pc) : world :=
  World (mux w) (chans w) ls (nwait w) (returned w) (leaked w) (crashed w).
Definition set_nwait (w : world) (n : nat) : world :=
  World (mux w) (chans w) (loops w) n (returned w) (leaked w) (crashed w).
Definition set_returned (w : world) (r : list nat) : world :=
  World (mux w) (chans w) (loops w) (nwait w) r (leaked w) (crashed w).
Definition set_leaked (w : world) (n : nat) : world :=
  World (mux w) (chans w) (loops w) (nwait w) (returned w) n (crashed w).
Definition set_crashed (w : world) (p : option panic) : world :=
  World (mux w) (chans w) (loops w) (nwait w) (returned w) (leaked w) p.

(** The program right after the constructor returned. *)
Definition boot (m : PairMux) : world := World m [] [] 0%nat [] 0%nat None.

(** What a call or a goroutine's next instruction does: it goes through,
    it has to wait, or it panics. *)
Inductive outcome (A : Type) :=
| Returns (a : A)
| Waits
| Panics (p : panic).
Arguments Returns {A}.
Arguments Waits {A}.
Arguments Panics {A}.

(** *** The public calls *)

(** [AddOutput]: the channel is made first, then registered under the
    lock; the handle of the new channel is returned. *)
Definition AddOutput (name : string) (buf : Z) (w : world)
    : outcome (world * nat) :=
  match make_chan buf with
  | None => Panics PanicMakeChan
  | Some c =>
      if lock (mux w) then Waits
      else
        let h := length (chans w) in
        let sl := Slot c (length (ch_got (src (mux w)))
                          + ch_eos (src (mux w)))%nat
                         (existsb is_done (loops w)) in
        Returns (set_mux (set_chans w (chans w ++ [sl]))
                         (set_outputs (mux w)
                                      (outputs (mux w) ++ [Output name h])),
                 h)
  end.

(** [Start]: under the lock, launch the goroutine unless [started]. *)
Definition Start (w : world) : outcome world :=
  if lock (mux w) then Waits
  else if started (mux w) then Returns w
  else Returns (set_mux (set_loops w (loops w ++ [PRecv]))
                        (set_started (mux w) true)).

(** [WaitUntilFinished], from the call on: caller number [nwait w] either
    receives from [Finished] at once and returns, or parks on it. *)
Definition WaitUntilFinished (w : world) : world :=
  let me := nwait w in
  let w1 := set_nwait w (S me) in
  match chan_recv (Finished (mux w)) with
  | RecvValue _ f | RecvEnd f =>
      set_returned (set_mux w1 (set_Finished (mux w) f)) (returned w ++ [me])
  | RecvBlocks =>
      set_mux w1 (set_Finished (mux w) (chan_park me (Finished (mux w))))
  end.

(** *** The writers *)

(** [o.dst <- item]. A handle that names no channel is a nil channel:
    sending on it waits for ever. *)
Definition blockingOutputWriter (o : output) (item : RequestResponsePair)
    (w : world) : outcome world :=
  match chans w !! dst o with
  | None => Waits
  | Some sl =>
      match chan_send (sl_ch sl) item with
      | SendHandoff _ ch | SendBuffered ch =>
          Returns (set_chans w (<[dst o := set_ch sl ch]> (chans w)))
      | SendBlocks => Waits
      | SendPanics => Panics PanicSendClosed
      end
  end.

(** [select { case o.dst <- item: default: }]. *)
Definition nonBlockingOutputWriter (o : output) (item : RequestResponsePair)
    (w : world) : outcome world :=
  match blockingOutputWriter o item w with
  | Waits => Returns w
  | r => r
  end.

(** The timeout writer's [select], first case: [o.dst <- item] goes
    through; the timer goroutine is left behind, asleep or parked on
    [kill], which nobody reads any more. *)
Definition timeout_select_send (o : output) (item : RequestResponsePair)
    (w : world) : outcome world :=
  match blockingOutputWriter o item w with
  | Returns w' => Returns (set_leaked w' (S (leaked w')))
  | r => r
  end.

(** Second case: [<-kill], ready once the timer goroutine is through its
    [time.Sleep] and stands at [kill <- true]. *)
Definition timeout_select_kill (sleep : Z) (w : world) : outcome world :=
  if sleep <=? 0 then Returns w else Waits.

(** *** The goroutine launched by Start *)

Definition goto (i : nat) (p : pc) (w : world) : world :=
  set_loops w (<[i := p]> (loops w)).

Definition and_then (r : outcome world) (k : world -> world)
    : outcome world :=
  match r with
  | Returns w => Returns (k w)
  | Waits => Waits
  | Panics p => Panics p
  end.

(** [m.writer(output, item)] in the range of goroutine [i], with [todo]
    the outputs after this one: the blocking and the non-blocking writer
    are one instruction, the timeout writer first makes its [kill]
    channel and starts its timer, then stands at its select. *)
Definition call_writer (wr : writer_fn) (i : nat)
    (item : RequestResponsePair) (o : output) (todo : list output)
    (w : world) : outcome world :=
  match wr with
  | WriterBlocking =>
      and_then (blockingOutputWriter o item w) (goto i (PWrite item todo))
  | WriterNonBlocking =>
      and_then (nonBlockingOutputWriter o item w) (goto i (PWrite item todo))
  | WriterTimeout d => Returns (goto i (PTimed item o todo d) w)
  end.

(** [RunStep], one instruction at a time: the receive on the source, the
    snapshot of the outputs under the lock, the calls of the writer.  When
    the source has ended RunStep returns false and the goroutine goes on
    to [shutdown]. *)
Definition RunStep (i : nat) (p : pc) (w : world) : outcome world :=
  match p with
  | PRecv =>
      match chan_recv (src (mux w)) with
      | RecvValue item c =>
          Returns (goto i (PSnap item) (set_mux w (set_src (mux w) c)))
      | RecvEnd c =>
          Returns (goto i PShutLock (set_mux w (set_src (mux w) c)))
      | RecvBlocks => Waits
      end
  | PSnap item =>
      if lock (mux w) then Waits
      else Returns (goto i (PWrite item (outputs (mux w))) w)
  | PWrite item [] => Returns (goto i PRecv w)
  | PWrite item (o :: todo) => call_writer (writer (mux w)) i item o todo w
  | PTimed item o todo _ =>
      and_then (timeout_select_send o item w) (goto i (PWrite item todo))
  | _ => Waits
  end.

(** [shutdown], one instruction at a time: the lock, a [close] for each
    output, the send on [Finished], the deferred unlock.  (Its first line
    logs [len(m.outputs)]; the logger is not part of this development.) *)
Definition shutdown (i : nat) (p : pc) (w : world) : outcome world :=
  match p with
  | PShutLock =>
      if lock (mux w) then Waits
      else Returns (goto i (PShutClose (outputs (mux w)))
                         (set_mux w (set_lock (mux w) true)))
  | PShutClose (o :: todo) =>
      match chans w !! dst o with
      | None => Panics PanicCloseNil
      | Some sl =>
          match chan_close (sl_ch sl) with
          | None => Panics PanicCloseClosed
          | Some ch =>
              Returns (goto i (PShutClose todo)
                         (set_chans w (<[dst o := set_ch sl ch]> (chans w))))
          end
      end
  | PShutClose [] =>
      match chan_send (Finished (mux w)) true with
      | SendHandoff r f =>
          Returns (goto i PShutUnlock
                     (set_returned (set_mux w (set_Finished (mux w) f))
                                   (returned w ++ [r])))
      | SendBuffered f =>
          Returns (goto i PShutUnlock (set_mux w (set_Finished (mux w) f)))
      | SendBlocks => Waits
      | SendPanics => Panics PanicSendClosed
      end
  | PShutUnlock =>
      Returns (goto i PDone (set_mux w (set_lock (mux w) false)))
  | _ => Waits
  end.

(** The body of the goroutine, [for { if !m.RunStep() { m.shutdown();
    return } }]: its next instruction, standing at [p]. *)
Definition loop_step (i : nat) (p : pc) (w : world) : outcome world :=
  match p with
  | PRecv | PSnap _ | PWrite _ _ | PTimed _ _ _ _ => RunStep i p w
  | PShutLock | PShutClose _ | PShutUnlock => shutdown i p w
  | PDone => Waits
  end.

(** The timer of goroutine [i]'s pending write: [kill] wins the select. *)
Definition kill_step (i : nat) (p : pc) (w : world) : outcome world :=
  match p with
  | PTimed item o todo sleep =>
      and_then (timeout_select_kill sleep w) (goto i (PWrite item todo))
  | _ => Waits
  end.

(** One unit of time passes for the timer goroutine in [time.Sleep]. *)
Definition tick_step (i : nat) (p : pc) (w : world) : outcome world :=
  match p with
  | PTimed item o todo sleep =>
      if 0 <? sleep then Returns (goto i (PTimed item o todo (sleep - 1)) w)
      else Waits
  | _ => Waits
  end.

(** *** Everybody else *)

(** A consumer's [<-c] on an output: a value, the end of stream, or it
    parks. *)
Definition consume (c : nat) (w : world) : outcome world :=
  match chans w !! c with
  | None => Waits
  | Some sl =>
      let ch := match chan_recv (sl_ch sl) with
                | RecvValue _ ch | RecvEnd ch => ch
                | RecvBlocks => chan_park 0%nat (sl_ch sl)
                end in
      Returns (set_chans w (<[c := set_ch sl ch]> (chans w)))
  end.

(** The producer: [src <- x] and [close(src)].  A producer that sends on,
    or closes, its own closed channel is not a producer this development
    considers. *)
Definition push (x : RequestResponsePair) (w : world) : outcome world :=
  if ch_closed (src (mux w)) then Waits
  else Returns (set_mux w (set_src (mux w) (chan_enqueue (src (mux w)) x))).

Definition close_src (w : world) : outcome world :=
  match chan_close (src (mux w)) with
  | None => Waits
  | Some c => Returns (set_mux w (set_src (mux w) c))
  end.

(** ** Events, steps, schedules *)

Inductive event :=
| EvPush (x : RequestResponsePair)
| EvCloseSrc
| EvAddOutput (name : string) (buf : Z)
| EvStart
| EvWait
| EvRecv (c : nat)
| EvLoop (i : nat)
| EvKill (i : nat)
| EvTick (i : nat).

Definition perform (e : event) (w : world) : outcome world :=
  match e with
  | EvPush x => push x w
  | EvCloseSrc => close_src w
  | EvAddOutput name buf =>
      match AddOutput name buf w with
      | Returns (w', _) => Returns w'
      | Waits => Waits
      | Panics p => Panics p
      end
  | EvStart => Start w
  | EvWait => Returns (WaitUntilFinished w)
  | EvRecv c => consume c w
  | EvLoop i =>
      match loops w !! i with
      | Some p => loop_step i p w
      | None => Waits
      end
  | EvKill i =>
      match loops w !! i with
      | Some p => kill_step i p w
      | None => Waits
      end
  | EvTick i =>
      match loops w !! i with
      | Some p => tick_step i p w
      | None => Waits
      end
  end.

(** An event that has to wait is not a step; a panic stops the program. *)
Definition step (w : world) (e : event) : option world :=
  match crashed w with
  | Some _ => None
  | None =>
      match perform e w with
      | Returns w' => Some w'
      | Waits => None
      | Panics p => Some (set_crashed w (Some p))
      end
  end.

Fixpoint run (w : world) (es : list event) : option world :=
  match es with
  | [] => Some w
  | e :: es' =>
      match step w e with
      | Some w' => run w' es'
      | None => None
      end
  end.

(** The worlds a program can be in: some producer made the source channel,
    one of the two constructors made the mux, some schedule ran. *)
Definition constructed (m : PairMux) : Prop :=
  (exists cap, m = NewBlockingPairMux (new_chan cap)) \/
  (exists cap t, m = NewNonBlockingPairMux (new_chan cap) t).

Definition reachable_from (m : PairMux) (w : world) : Prop :=
  exists es, run (boot m) es = Some w.

Definition reachable (w : world) : Prop :=
  exists m, constructed m /\ reachable_from m w.

(** ** What holds in every world the program reaches *)

(** The goroutine of the mux, or a goroutine standing at its first
    instruction when [Start] has not been called yet. *)
Definition cur (w : world) : pc := default PRecv (head (loops w)).

(** The outputs a goroutine has still to serve in its current [range]. *)
Definition pending (p : pc) : list output :=
  match p with
  | PWrite _ t => t
  | PTimed _ o t _ => o :: t
  | PShutClose t => t
  | _ => []
  end.

Definition holds_lock (p : pc) : bool :=
  match p with PShutClose _ | PShutUnlock => true | _ => false end.

Definition shutting (p : pc) : bool :=
  match p with
  | PShutLock | PShutClose _ | PShutUnlock | PDone => true
  | _ => false
  end.

Definition signalled (p : pc) : bool :=
  match p with PShutUnlock | PDone => true | _ => false end.

(** The item a goroutine has read and not yet offered to every output. *)
Definition in_flight (p : pc) : option RequestResponsePair :=
  match p with
  | PSnap x | PWrite x _ | PTimed x _ _ _ => Some x
  | _ => None
  end.

(** Handle [h] has still to be offered the item in flight. *)
Definition owes (p : pc) (h : nat) : Prop :=
  match p with
  | PSnap _ => True
  | PWrite _ _ | PTimed _ _ _ _ => h ∈ dst <$> pending p
  | _ => False
  end.

Definition chan_wf {A} (ch : chan A) : Prop :=
  ch_sent ch = ch_got ch ++ ch_buf ch /\
  ch_closes ch = (if ch_closed ch then 1 else 0)%nat /\
  (ch_closed ch = false -> ch_eos ch = 0%nat) /\
  (ch_recvq ch = [] \/ ch_buf ch = []) /\
  ((0 < ch_eos ch)%nat -> ch_buf ch = []).

(** Which output channels are closed, by the stage of the goroutine. *)
Definition closed_spec (p : pc) (h : nat) (sl : slot) : Prop :=
  match p with
  | PShutClose t =>
      sl_late sl = false /\
      (ch_closed (sl_ch sl) = false <-> h ∈ dst <$> t)
  | PShutUnlock => sl_late sl = false /\ ch_closed (sl_ch sl) = true
  | PDone => ch_closed (sl_ch sl) = negb (sl_late sl)
  | _ => sl_late sl = false /\ ch_closed (sl_ch sl) = false
  end.

(** What an output channel has been sent, against what was read from the
    source: never more, never out of order, and everything when the writer
    blocks and the output was there from the start. *)
Definition delivery (p : pc) (wr : writer_fn)
    (read : list RequestResponsePair) (h : nat) (sl : slot) : Prop :=
  exists target,
    sublist (ch_sent (sl_ch sl)) target /\
    (wr = WriterBlocking -> sl_born sl = 0%nat ->
     ch_sent (sl_ch sl) = target) /\
    ((owes p h /\ exists x, in_flight p = Some x /\ read = target ++ [x]) \/
     (~ owes p h /\ target = read)).

Record slot_ok (p : pc) (wr : writer_fn) (read : list RequestResponsePair)
    (h : nat) (sl : slot) : Prop := {
  so_wf : chan_wf (sl_ch sl);
  so_closed : closed_spec p h sl;
  so_late :
    sl_late sl = true -> ch_sent (sl_ch sl) = [] /\ (0 < sl_born sl)%nat;
  so_delivery : delivery p wr read h sl
}.

Record Inv (w : world) : Prop := {
  inv_loops :
    length (loops w) = if started (mux w) then 1%nat else 0%nat;
  inv_lock : lock (mux w) = holds_lock (cur w);
  inv_handles : dst <$> outputs (mux w) = seq 0 (length (chans w));
  inv_pending_nodup : NoDup (dst <$> pending (cur w));
  inv_pending_sub :
    forall o, o ∈ pending (cur w) -> o ∈ outputs (mux w);
  inv_fin_wf : chan_wf (Finished (mux w));
  inv_fin_cap : ch_cap (Finished (mux w)) = 1;
  inv_fin_open : ch_closed (Finished (mux w)) = false;
  inv_fin_sent :
    ch_sent (Finished (mux w)) = if signalled (cur w) then [true] else [];
  inv_returned : length (returned w) = length (ch_got (Finished (mux w)));
  inv_nwait :
    nwait w = (length (returned w)
               + length (ch_recvq (Finished (mux w))))%nat;
  inv_src_wf : chan_wf (src (mux w));
  inv_src_recvq : ch_recvq (src (mux w)) = [];
  inv_src_end :
    shutting (cur w) = true ->
    ch_closed (src (mux w)) = true /\ ch_buf (src (mux w)) = [] /\
    (0 < ch_eos (src (mux w)))%nat;
  inv_flight :
    forall x, in_flight (cur w) = Some x ->
              exists prev, ch_got (src (mux w)) = prev ++ [x];
  inv_timed :
    forall x o t s, cur w = PTimed x o t s ->
                    exists d, writer (mux w) = WriterTimeout d /\ s <= d;
  inv_slots :
    forall h sl, chans w !! h = Some sl ->
                 slot_ok (cur w) (writer (mux w)) (ch_got (src (mux w))) h sl
}.

(** ** Further predicates on channels, events and worlds *)

(** The two places a goroutine can stand at with output [o] next in line
    for item [x]. *)
Definition offering (p : pc) (x : RequestResponsePair) (o : output)
    (t : list output) : Prop :=
  p = PWrite x (o :: t) \/ exists s, p = PTimed x o t s.

(** The buffer of a channel within its capacity. *)
Definition cap_ok {A} (ch : chan A) : Prop :=
  Z.of_nat (length (ch_buf ch)) <= ch_cap ch.

Definition caps_ok (cs : list slot) : Prop :=
  forall h sl, cs !! h = Some sl -> cap_ok (sl_ch sl).

(** A channel that takes no send right now: open, nobody parked on it,
    the buffer at capacity (always so for an unbuffered channel). *)
Definition full {A} (ch : chan A) : Prop :=
  ch_closed ch = false /\ ch_recvq ch = [] /\
  ch_cap ch <= Z.of_nat (length (ch_buf ch)).

(** The events of a run to completion in which nobody calls the mux any
    more: the source is closed, the goroutine runs, the consumers read. *)
Definition quiet (e : event) : Prop :=
  match e with
  | EvRecv _ | EvLoop _ | EvStart | EvCloseSrc => True
  | _ => False
  end.

(** A world that keeps the invariant and has not panicked. *)
Record good (w : world) : Prop := {
  good_inv : Inv w;
  good_caps : caps_ok (chans w);
  good_alive : crashed w = None
}.

(** [es] is a quiet schedule from [w] to [w'], and nothing panicked. *)
Definition leads (w : world) (es : list event) (w' : world) : Prop :=
  Forall quiet es /\ run w es = Some w' /\ crashed w' = None.

(** ** Scenarios *)

(** Concrete schedules, and the worlds they end in, at which the
    statements below are evaluated.  Goroutine 0 is the goroutine of the
    mux, handles count the outputs from 0 in the order of registration. *)

(** Two callers of WaitUntilFinished before Start, an empty source that is
    closed, and the goroutine run to its end. *)
Definition two_waiters : list event :=
  [EvWait; EvWait; EvStart; EvCloseSrc;
   EvLoop 0; EvLoop 0; EvLoop 0; EvLoop 0]%nat.

Definition after_two_waiters : world :=
  Eval vm_compute in
    default (boot (NewBlockingPairMux (new_chan 0)))
            (run (boot (NewBlockingPairMux (new_chan 0))) two_waiters).

(** The goroutine runs to its end on an empty source, then an output is
    registered. *)
Definition late_output : list event :=
  [EvStart; EvCloseSrc; EvLoop 0; EvLoop 0; EvLoop 0; EvLoop 0;
   EvAddOutput "late" 1]%nat.

Definition after_late_output : world :=
  Eval vm_compute in
    default (boot (NewBlockingPairMux (new_chan 0)))
            (run (boot (NewBlockingPairMux (new_chan 0))) late_output).

(** Items A, B, C through a blocking mux with two outputs of capacity 10,
    registered first; the source is closed and the goroutine runs to its
    end without any consumer reading. *)
Definition three_items : list event :=
  [EvAddOutput "x" 10; EvAddOutput "y" 10;
   EvPush 1%nat; EvPush 2%nat; EvPush 3%nat; EvCloseSrc; EvStart]
  ++ replicate 21 (EvLoop 0).

Definition after_three_items : world :=
  Eval vm_compute in
    default (boot (NewBlockingPairMux (new_chan 0)))
            (run (boot (NewBlockingPairMux (new_chan 0))) three_items).

(** The run of [three_items] stopped where the goroutine stands at
    [m.Finished <- true]. *)
Definition before_signal : world :=
  Eval vm_compute in
    default (boot (NewBlockingPairMux (new_chan 0)))
            (run (boot (NewBlockingPairMux (new_chan 0)))
                 (take 26 three_items)).



(** Scenario: items A, B into a non-blocking mux with one unbuffered
    output nobody reads; the goroutine stands at the write of A. *)
Definition unread_output : list event :=
  [EvAddOutput "u" 0; EvPush 1%nat; EvPush 2%nat; EvCloseSrc; EvStart;
   EvLoop 0; EvLoop 0]%nat.

Definition at_unread_output : world :=
  Eval vm_compute in
    default (boot (NewNonBlockingPairMux (new_chan 0) 0))
            (run (boot (NewNonBlockingPairMux (new_chan 0) 0)) unread_output).

(** Scenario: item A into a mux with a timeout of 3 and one unbuffered
    output nobody reads; the goroutine stands at the select. *)
Definition timed_unread_output : list event :=
  [EvAddOutput "u" 0; EvPush 1%nat; EvCloseSrc; EvStart;
   EvLoop 0; EvLoop 0; EvLoop 0]%nat.

Definition at_timed_select : world :=
  Eval vm_compute in
    default (boot (NewNonBlockingPairMux (new_chan 0) 3))
            (run (boot (NewNonBlockingPairMux (new_chan 0) 3))
                 timed_unread_output).

(** One caller of WaitUntilFinished, then the run of [three_items]. *)
Definition waited_three_items : list event := EvWait :: three_items.

Definition after_waited_three_items : world :=
  Eval vm_compute in
    default (boot (NewBlockingPairMux (new_chan 0)))
            (run (boot (NewBlockingPairMux (new_chan 0))) waited_three_items).

(** Scenario: a blocking mux with two unbuffered outputs nobody reads and
    item A read; the goroutine stands at the write of A to the first. *)
Definition blocked_write : list event :=
  [EvAddOutput "u" 0; EvAddOutput "v" 0; EvPush 1%nat; EvPush 2%nat;
   EvStart; EvLoop 0; EvLoop 0]%nat.

Definition at_blocked_write : world :=
  Eval vm_compute in
    default (boot (NewBlockingPairMux (new_chan 0)))
            (run (boot (NewBlockingPairMux (new_chan 0))) blocked_write).

(** Scenario: outputs registered and items pushed, Start never called. *)
Definition never_started : list event :=
  [EvAddOutput "u" 2; EvPush 1%nat; EvPush 2%nat; EvCloseSrc; EvWait;
   EvRecv 0]%nat.

Definition after_never_started : world :=
  Eval vm_compute in
    default (boot (NewBlockingPairMux (new_chan 0)))
            (run (boot (NewBlockingPairMux (new_chan 0))) never_started).

(** Before Start nothing has been received from the source. *)
Definition unread (w : world) : Prop :=
  started (mux w) = false ->
  ch_got (src (mux w)) = [] /\ ch_eos (src (mux w)) = 0%nat.

(** Scenario: item A into a mux made with a timeout of -5 and one
    unbuffered output nobody reads; the goroutine stands at the select. *)
Definition negative_timeout : list event :=
  [EvAddOutput "u" 0; EvPush 1%nat; EvStart; EvLoop 0; EvLoop 0; EvLoop 0]%nat.

Definition at_negative_timeout : world :=
  Eval vm_compute in
    default (boot (NewNonBlockingPairMux (new_chan 0) (-5)))
            (run (boot (NewNonBlockingPairMux (new_chan 0) (-5)))
                 negative_timeout).

(** The events of a run in which nobody reads the outputs or calls the
    mux any more: the source is closed, the goroutine runs, time passes. *)
Definition unattended (e : event) : Prop :=
  match e with
  | EvLoop _ | EvKill _ | EvTick _ | EvStart | EvCloseSrc => True
  | _ => False
  end.

(** [es] is an unattended schedule from [w] to [w'], and nothing
    panicked. *)
Definition leads_alone (w : world) (es : list event) (w' : world) : Prop :=
  Forall unattended es /\ run w es = Some w' /\ crashed w' = None.

(** Scenario: items A, B into a non-blocking mux with one unbuffered
    output, registered first, that nobody ever reads. *)
Definition unread_throughout : list event :=
  [EvAddOutput "u" 0; EvPush 1%nat; EvPush 2%nat]%nat.

Definition before_unread_throughout : world :=
  Eval vm_compute in
    default (boot (NewNonBlockingPairMux (new_chan 0) 0))
            (run (boot (NewNonBlockingPairMux (new_chan 0) 0))
                 unread_throughout).



(** Handle [h] has still to be offered the item in flight, as a test. *)
Definition owesb (p : pc) (h : nat) : bool :=
  match p with
  | PSnap _ => true
  | PWrite _ _ | PTimed _ _ _ _ => bool_decide (h ∈ dst <$> pending p)
  | _ => false
  end.

(** The items output [h] has been offered so far: the items read from the
    source, but for the one in flight while [h] is still owed it. *)
Definition offered (p : pc) (h : nat) (read : list RequestResponsePair)
    : list RequestResponsePair :=
  if owesb p h then removelast read else read.

(** What an output has been sent under the blocking writer: the items it
    was offered from the [j]-th on, where [j] is the number of items read
    when it was registered, or one less. *)
Definition gapless (p : pc) (read : list RequestResponsePair) (h : nat)
    (sl : slot) : Prop :=
  exists j : nat,
    (sl_born sl <= S j)%nat /\ (j <= sl_born sl)%nat /\
    (owesb p h = true -> (j <= length (offered p h read))%nat) /\
    ch_sent (sl_ch sl) = drop j (offered p h read).

Record Gap (w : world) : Prop := {
  gap_eos : shutting (cur w) = false -> ch_eos (src (mux w)) = 0%nat;
  gap_born :
    forall h sl, chans w !! h = Some sl ->
      (sl_born sl <= length (ch_got (src (mux w))) + ch_eos (src (mux w)))%nat;
  gap_slots :
    forall h sl, chans w !! h = Some sl ->
      gapless (cur w) (ch_got (src (mux w))) h sl
}.

(** Scenario: a blocking mux with items A, B, C; output "v" is registered
    when A has gone by and B has just been read, and is read by nobody
    (its buffer takes what is sent). *)
Definition joins_midway : list event :=
  [EvPush 1%nat; EvPush 2%nat; EvPush 3%nat; EvCloseSrc; EvStart;
   EvLoop 0; EvLoop 0; EvLoop 0; EvLoop 0; EvAddOutput "v" 5]%nat
  ++ replicate 12 (EvLoop 0%nat).

Definition after_joins_midway : world :=
  Eval vm_compute in
    default (boot (NewBlockingPairMux (new_chan 0)))
            (run (boot (NewBlockingPairMux (new_chan 0))) joins_midway).

(** The goroutine is in its range over the snapshot of the outputs. *)
Definition ranging (p : pc) : bool :=
  match p with PWrite _ _ | PTimed _ _ _ _ => true | _ => false end.

(** The outputs still to serve are a run of consecutive handles, the
    oldest first; during a range the outputs past that run are those
    registered after the snapshot was taken. *)
Definition ordered (p : pc) (cs : list slot) : Prop :=
  exists k n : nat,
    dst <$> pending p = seq k n /\ (k + n <= length cs)%nat /\
    (ranging p = true ->
     forall h sl, cs !! h = Some sl -> (k + n <= h)%nat ->
                  (1 <= sl_born sl)%nat).

Definition Ord (w : world) : Prop := ordered (cur w) (chans w).

(** Scenario: a blocking mux with outputs "u" and "v" and item A, stopped
    when A has been sent to "u" and not yet to "v". *)
Definition first_served : list event :=
  [EvAddOutput "u" 5; EvAddOutput "v" 5; EvPush 1%nat; EvStart;
   EvLoop 0; EvLoop 0; EvLoop 0]%nat.

Definition at_first_served : world :=
  Eval vm_compute in
    default (boot (NewBlockingPairMux (new_chan 0)))
            (run (boot (NewBlockingPairMux (new_chan 0))) first_served).

(** An output there from the start, with room for all that was read, has
    been sent all it was offered. *)
Definition lossless (p : pc) (read : list RequestResponsePair) (h : nat)
    (sl : slot) : Prop :=
  sl_born sl = 0%nat ->
  Z.of_nat (length read) <= ch_cap (sl_ch sl) ->
  ch_sent (sl_ch sl) = offered p h read.

Definition NoLoss (w : world) : Prop :=
  forall h sl, chans w !! h = Some sl ->
               lossless (cur w) (ch_got (src (mux w))) h sl.

(** Scenario: items A, B into a non-blocking mux with one output of
    capacity 2 that nobody reads, run to its end. *)
Definition roomy_unread : list event :=
  [EvAddOutput "u" 2; EvPush 1%nat; EvPush 2%nat; EvCloseSrc; EvStart]%nat
  ++ replicate 13 (EvLoop 0%nat).

Definition after_roomy_unread : world :=
  Eval vm_compute in
    default (boot (NewNonBlockingPairMux (new_chan 0) 0))
            (run (boot (NewNonBlockingPairMux (new_chan 0) 0)) roomy_unread).

(** ** Proof tactics *)

(** Opening the invariant of the world before a step and closing the one
    of the world after it; [Hl] says which goroutine there is. *)
Ltac inv_split HI :=
  destruct HI; unfold cur in *; split; unfold cur; simpl; auto.

Ltac inv_open HI Hl :=
  destruct HI; unfold cur in *; rewrite Hl in *; csimpl in *.
Ltac inv_close Hl :=
  split; unfold cur, goto; csimpl; rewrite ?Hl; csimpl; auto;
  try done; try congruence.

(** Case analysis of [perform] down to the channel operations. *)
Ltac crush_perform :=
  unfold perform, push, close_src, AddOutput, Start, WaitUntilFinished,
    consume, loop_step, RunStep, shutdown, call_writer, kill_step, tick_step,
    and_then,
    nonBlockingOutputWriter, timeout_select_send, timeout_select_kill,
    blockingOutputWriter, chan_close, make_chan;
  repeat case_match; simplify_eq; intros; simplify_eq; csimpl.

(** ** Proofs *)

Lemma new_chan_wf {A} cap : chan_wf (@new_chan A cap).
Proof. repeat split; auto. Qed.

(** *** What make accepts *)

Lemma elem_size_pos : 0 < elem_size.
Proof. reflexivity. Qed.

Lemma max_chan_size_spec buf :
  maxAlloc - hchanSize < elem_size * buf <-> max_chan_size < buf.
Proof.
  unfold max_chan_size. pose proof elem_size_pos as He.
  pose proof (Z.div_mod (maxAlloc - hchanSize) elem_size) as Hd.
  pose proof (Z.mod_pos_bound (maxAlloc - hchanSize) elem_size He) as Hm.
  split; intros H; nia.
Qed.

Lemma make_chan_cases {A} buf :
  (0 <= buf <= max_chan_size /\ @make_chan A buf = Some (new_chan buf)) \/
  ((buf < 0 \/ max_chan_size < buf) /\ @make_chan A buf = None).
Proof.
  unfold make_chan. destruct (Z.ltb_spec buf 0); [right; auto|].
  destruct (Z.ltb_spec (maxAlloc - hchanSize) (elem_size * buf)) as [Hlt|Hge].
  - right. split; [|done]. right. by apply max_chan_size_spec.
  - left. split; [|done]. split; [done|].
    destruct (Z.le_gt_cases buf max_chan_size) as [|Hgt]; [done|].
    apply max_chan_size_spec in Hgt. lia.
Qed.

Lemma make_chan_Some {A} buf (c : chan A) :
  make_chan buf = Some c -> c = new_chan buf /\ 0 <= buf <= max_chan_size.
Proof.
  destruct (make_chan_cases (A:=A) buf) as [[Hb ->] | [Hb ->]]; [|done].
  by intros [= <-].
Qed.

Lemma Inv_boot m : constructed m -> Inv (boot m).
Proof.
  intros [[cap ->] | (cap & t & ->)];
    (split; simpl; try done; try apply new_chan_wf; apply NoDup_nil_2).
Qed.

(** *** Channel operations keep a channel well formed *)

Section ChanLemmas.
Context {A : Type}.
Implicit Types (ch : chan A) (x : A).

Lemma chan_send_inv ch x ch' :
  sent_chan (chan_send ch x) = Some ch' ->
  ch_closed ch = false /\ ch_closed ch' = false /\
  ch_sent ch' = ch_sent ch ++ [x] /\ ch_cap ch' = ch_cap ch /\
  ch_closes ch' = ch_closes ch /\ ch_eos ch' = ch_eos ch /\
  ((exists r, ch_recvq ch = r :: ch_recvq ch' /\
              ch_got ch' = ch_got ch ++ [x] /\ ch_buf ch' = ch_buf ch) \/
   (ch_recvq ch = [] /\ ch_recvq ch' = [] /\ ch_got ch' = ch_got ch /\
    ch_buf ch' = ch_buf ch ++ [x] /\
    Z.of_nat (length (ch_buf ch)) < ch_cap ch)).
Proof.
  unfold chan_send. destruct (ch_closed ch) eqn:Hc; [done|].
  destruct (ch_recvq ch) as [|r q] eqn:Hq.
  - destruct (Z.ltb_spec (Z.of_nat (length (ch_buf ch))) (ch_cap ch));
      [|done].
    intros [= <-]; simpl. repeat split; auto. right. repeat split; auto.
  - intros [= <-]; simpl. repeat split; auto. left. eauto.
Qed.

Lemma chan_send_wf ch x ch' :
  sent_chan (chan_send ch x) = Some ch' -> chan_wf ch -> chan_wf ch'.
Proof.
  intros Hs (Hsent & Hcl & Heos & Hq & He).
  destruct (chan_send_inv _ _ _ Hs)
    as (Hc & Hc' & Hs' & _ & Hcl' & Heos' & Hcase).
  repeat split.
  - destruct Hcase as [(r & Hr & -> & ->) | (_ & _ & -> & -> & _)];
      rewrite Hs', Hsent.
    + destruct Hq as [Hq | ->]; [congruence|]. by rewrite !app_nil_r.
    + by rewrite app_assoc.
  - rewrite Hcl', Hcl, Hc, Hc'. done.
  - intros _. rewrite Heos'. auto.
  - destruct Hcase as [(r & Hr & _ & Hb) | (_ & -> & _)]; [|by left].
    right. rewrite Hb. destruct Hq as [Hq | Hq]; congruence.
  - rewrite Heos', (Heos Hc). lia.
Qed.

Lemma chan_recv_value ch x ch' :
  chan_recv ch = RecvValue x ch' ->
  ch_buf ch = x :: ch_buf ch' /\ ch_got ch' = ch_got ch ++ [x] /\
  ch_sent ch' = ch_sent ch /\ ch_closed ch' = ch_closed ch /\
  ch_recvq ch' = ch_recvq ch /\ ch_cap ch' = ch_cap ch /\
  ch_closes ch' = ch_closes ch /\ ch_eos ch' = ch_eos ch.
Proof.
  unfold chan_recv. destruct (ch_buf ch) as [|y b] eqn:Hb.
  - by destruct (ch_closed ch).
  - intros [= -> <-]. simpl. done.
Qed.

Lemma chan_recv_end ch ch' :
  chan_recv ch = RecvEnd ch' ->
  ch_buf ch = [] /\ ch_closed ch = true /\
  ch_buf ch' = [] /\ ch_got ch' = ch_got ch /\
  ch_sent ch' = ch_sent ch /\ ch_closed ch' = true /\
  ch_recvq ch' = ch_recvq ch /\ ch_cap ch' = ch_cap ch /\
  ch_closes ch' = ch_closes ch /\ ch_eos ch' = S (ch_eos ch).
Proof.
  unfold chan_recv. destruct (ch_buf ch) as [|y b] eqn:Hb; [|done].
  destruct (ch_closed ch) eqn:Hc; [|done].
  intros [= <-]. simpl. done.
Qed.

Lemma chan_recv_blocks ch :
  chan_recv ch = RecvBlocks -> ch_buf ch = [] /\ ch_closed ch = false.
Proof.
  unfold chan_recv. destruct (ch_buf ch) as [|y b] eqn:Hb; [|done].
  by destruct (ch_closed ch).
Qed.

Lemma chan_recv_value_wf ch x ch' :
  chan_recv ch = RecvValue x ch' -> chan_wf ch -> chan_wf ch'.
Proof.
  intros Hr (Hsent & Hcl & Heos & Hq & He).
  destruct (chan_recv_value _ _ _ Hr)
    as (Hb & Hg & Hs & Hc & Hrq & _ & Hcl' & Heos').
  repeat split.
  - rewrite Hs, Hsent, Hg, Hb, <- app_assoc. done.
  - by rewrite Hcl', Hc.
  - rewrite Hc, Heos'. done.
  - rewrite Hrq. destruct Hq as [Hq | Hq]; [by left | congruence].
  - rewrite Heos'. intros H. rewrite (He H) in Hb. done.
Qed.

Lemma chan_recv_end_wf ch ch' :
  chan_recv ch = RecvEnd ch' -> chan_wf ch -> chan_wf ch'.
Proof.
  intros Hr (Hsent & Hcl & Heos & Hq & He).
  destruct (chan_recv_end _ _ Hr)
    as (Hb & Hc & Hb' & Hg & Hs & Hc' & Hrq & _ & Hcl' & Heos').
  repeat split.
  - rewrite Hs, Hsent, Hg, Hb, Hb'. done.
  - by rewrite Hcl', Hc', Hcl, Hc.
  - by rewrite Hc'.
  - by right.
  - done.
Qed.

Lemma chan_park_wf r ch :
  ch_buf ch = [] -> chan_wf ch -> chan_wf (chan_park r ch).
Proof. intros Hb (Hsent & Hcl & Heos & Hq & He). repeat split; simpl; auto. Qed.

Lemma chan_close_inv ch ch' :
  chan_close ch = Some ch' ->
  ch_closed ch = false /\ ch_closed ch' = true /\
  ch_sent ch' = ch_sent ch /\ ch_got ch' = ch_got ch /\
  ch_buf ch' = ch_buf ch /\ ch_recvq ch' = [] /\
  ch_closes ch' = S (ch_closes ch) /\ ch_cap ch' = ch_cap ch.
Proof.
  unfold chan_close. destruct (ch_closed ch) eqn:Hc; [done|].
  intros [= <-]. simpl. done.
Qed.

Lemma chan_close_wf ch ch' :
  chan_close ch = Some ch' -> chan_wf ch -> chan_wf ch'.
Proof.
  intros Hr (Hsent & Hcl & Heos & Hq & He).
  destruct (chan_close_inv _ _ Hr) as (Hc & Hc' & Hs & Hg & Hb & Hrq & Hcl' & _).
  repeat split.
  - by rewrite Hs, Hg, Hb.
  - rewrite Hcl', Hc', Hcl, Hc. done.
  - by rewrite Hc'.
  - by left.
  - destruct (chan_close_inv _ _ Hr) as (_&_&_&_&_&_&_&_).
    unfold chan_close in Hr. rewrite Hc in Hr. injection Hr as <-. simpl.
    rewrite (Heos Hc). destruct Hq as [-> | ?]; [simpl; lia | done].
Qed.

Lemma chan_enqueue_wf ch x :
  ch_recvq ch = [] -> ch_closed ch = false -> chan_wf ch ->
  chan_wf (chan_enqueue ch x).
Proof.
  intros Hrq Hc (Hsent & Hcl & Heos & Hq & He). repeat split; simpl; auto.
  - by rewrite Hsent, app_assoc.
  - rewrite (Heos Hc). lia.
Qed.
End ChanLemmas.

(** *** Moving the invariant of one output channel along a step *)

Lemma delivery_keep p p' wr read h sl sl' :
  (owes p h <-> owes p' h) ->
  (owes p h -> in_flight p = in_flight p') ->
  ch_sent (sl_ch sl') = ch_sent (sl_ch sl) ->
  sl_born sl' = sl_born sl ->
  delivery p wr read h sl -> delivery p' wr read h sl'.
Proof.
  intros Ho Hf Hs Hb (target & Hsub & Hblk & Hcase).
  exists target. rewrite Hs, Hb. repeat split; auto.
  destruct Hcase as [(Hw & x & Hx & Hr) | (Hw & Hr)]; [left | right].
  - split; [tauto|]. exists x. rewrite <- (Hf Hw). done.
  - tauto.
Qed.

Lemma delivery_read p p' wr read x h sl :
  ~ owes p h -> owes p' h -> in_flight p' = Some x ->
  delivery p wr read h sl -> delivery p' wr (read ++ [x]) h sl.
Proof.
  intros Hn Ho Hf (target & Hsub & Hblk & Hcase).
  destruct Hcase as [(Hw & _) | (_ & ->)]; [done|].
  exists read. repeat split; auto. left. eauto.
Qed.

Lemma delivery_sent p p' wr read x h sl sl' :
  owes p h -> ~ owes p' h -> in_flight p = Some x ->
  ch_sent (sl_ch sl') = ch_sent (sl_ch sl) ++ [x] ->
  sl_born sl' = sl_born sl ->
  delivery p wr read h sl -> delivery p' wr read h sl'.
Proof.
  intros Ho Hn Hf Hs Hb (target & Hsub & Hblk & Hcase).
  destruct Hcase as [(_ & y & Hy & ->) | (Hw & _)]; [|done].
  assert (y = x) as -> by congruence.
  exists (target ++ [x]). rewrite Hs, Hb. repeat split.
  - by apply sublist_app.
  - intros Hwr H0. by rewrite Hblk.
  - by right.
Qed.

Lemma delivery_drop p p' wr read h sl :
  owes p h -> ~ owes p' h -> wr <> WriterBlocking ->
  delivery p wr read h sl -> delivery p' wr read h sl.
Proof.
  intros Ho Hn Hwr (target & Hsub & Hblk & Hcase).
  destruct Hcase as [(_ & y & Hy & ->) | (Hw & _)]; [|done].
  exists (target ++ [y]). repeat split.
  - by apply sublist_inserts_r.
  - done.
  - by right.
Qed.

Lemma slot_ok_same_chan p wr read h sl ch :
  chan_wf ch ->
  ch_closed ch = ch_closed (sl_ch sl) ->
  ch_sent ch = ch_sent (sl_ch sl) ->
  slot_ok p wr read h sl -> slot_ok p wr read h (set_ch sl ch).
Proof.
  intros Hwf Hc Hs [Hw Hcl Hl Hd]. split; simpl; auto.
  - destruct p; simpl in *; rewrite Hc; done.
  - by rewrite Hs.
  - eapply delivery_keep; eauto; done.
Qed.

Lemma slot_ok_pc p p' wr read h sl :
  closed_spec p' h sl ->
  (owes p h <-> owes p' h) ->
  (owes p h -> in_flight p = in_flight p') ->
  slot_ok p wr read h sl -> slot_ok p' wr read h sl.
Proof.
  intros Hc Ho Hf [Hw Hcl Hl Hd]. split; auto.
  eapply delivery_keep; eauto.
Qed.

(** *** The goroutine of a mux is alone *)

Lemma loops_single w i p :
  Inv w -> loops w !! i = Some p ->
  i = 0%nat /\ loops w = [p] /\ cur w = p /\ started (mux w) = true.
Proof.
  intros HI Hi. pose proof (inv_loops _ HI) as Hl. unfold cur.
  destruct (loops w) as [|q [|q' l]]; simpl in *.
  - done.
  - destruct i; simpl in Hi; [|done]. destruct (started (mux w)); [|done].
    by simplify_eq.
  - by destruct (started (mux w)).
Qed.

Lemma cur_goto w p p' : loops w = [p] -> cur (goto 0 p' w) = p'.
Proof. intros H. unfold cur, goto. simpl. by rewrite H. Qed.

Lemma loops_goto w p p' : loops w = [p] -> loops (goto 0 p' w) = [p'].
Proof. intros H. unfold goto. simpl. by rewrite H. Qed.

Lemma Inv_set_crashed w c : Inv w -> Inv (set_crashed w c).
Proof. intros []. by split. Qed.

Lemma Inv_set_leaked w n : Inv w -> Inv (set_leaked w n).
Proof. intros []. by split. Qed.

(** *** Every event keeps the invariant *)

Lemma Inv_push x w w' : Inv w -> push x w = Returns w' -> Inv w'.
Proof.
  intros HI. unfold push.
  destruct (ch_closed (src (mux w))) eqn:Hc; [done|]. intros [= <-].
  inv_split HI.
  - by apply chan_enqueue_wf.
  - intros Hs. destruct (inv_src_end0 Hs). congruence.
Qed.

Lemma Inv_close_src w w' : Inv w -> close_src w = Returns w' -> Inv w'.
Proof.
  intros HI. unfold close_src.
  destruct (chan_close (src (mux w))) as [c|] eqn:Hc; [|done]. intros [= <-].
  destruct (chan_close_inv _ _ Hc) as (Ho & Hc' & Hs & Hg & Hb & Hrq & _).
  inv_split HI.
  - by eapply chan_close_wf.
  - intros Hsh. destruct (inv_src_end0 Hsh). congruence.
  - by rewrite Hg.
  - by rewrite Hg.
Qed.

Lemma Inv_Start w w' : Inv w -> Start w = Returns w' -> Inv w'.
Proof.
  intros HI. unfold Start.
  destruct (lock (mux w)) eqn:Hl; [done|].
  destruct (started (mux w)) eqn:Hs; intros [= <-]; [done|].
  pose proof (inv_loops _ HI) as Hlen. rewrite Hs in Hlen.
  destruct (loops w) as [|] eqn:Hloops; [|done].
  assert (Hcur : cur w = PRecv) by (unfold cur; by rewrite Hloops).
  destruct HI. unfold cur in *. rewrite Hloops in *.
  split; unfold cur; simpl; auto.
Qed.

Lemma Inv_Wait w : Inv w -> Inv (WaitUntilFinished w).
Proof.
  intros HI. unfold WaitUntilFinished.
  destruct (chan_recv (Finished (mux w))) as [v f|f|] eqn:Hr.
  - destruct (chan_recv_value _ _ _ Hr)
      as (Hb & Hg & Hs & Hc & Hrq & Hcap & _).
    pose proof (chan_recv_value_wf _ _ _ Hr (inv_fin_wf _ HI)).
    inv_split HI; try congruence.
    + rewrite Hg, !length_app. simpl. lia.
    + rewrite Hrq, length_app. simpl. lia.
  - destruct (chan_recv_end _ _ Hr) as (_ & Hc & _).
    rewrite (inv_fin_open _ HI) in Hc. done.
  - destruct (chan_recv_blocks _ Hr) as (Hb & _).
    pose proof (chan_park_wf (nwait w) _ Hb (inv_fin_wf _ HI)).
    inv_split HI.
    rewrite length_app. simpl. lia.
Qed.

Lemma Inv_consume c w w' : Inv w -> consume c w = Returns w' -> Inv w'.
Proof.
  intros HI. unfold consume.
  destruct (chans w !! c) as [sl|] eqn:Hsl; [|done]. intros [= <-].
  pose proof (inv_slots _ HI _ _ Hsl) as Hok.
  inv_split HI.
  - by rewrite length_insert.
  - intros h sl' Hh. destruct (decide (h = c)) as [->|Hne].
    + rewrite list_lookup_insert_eq in Hh by (by eapply lookup_lt_Some).
      injection Hh as <-.
      destruct (chan_recv (sl_ch sl)) as [v f|f|] eqn:Hr.
      * destruct (chan_recv_value _ _ _ Hr) as (_ & _ & Hs & Hc & _).
        apply slot_ok_same_chan; auto.
        eapply chan_recv_value_wf; eauto. apply Hok.
      * destruct (chan_recv_end _ _ Hr) as (_ & Hc & _ & _ & Hs & Hc' & _).
        apply slot_ok_same_chan; auto; [|congruence].
        eapply chan_recv_end_wf; eauto. apply Hok.
      * destruct (chan_recv_blocks _ Hr) as (Hb & _).
        apply slot_ok_same_chan; auto.
        apply chan_park_wf; auto. apply Hok.
    + rewrite list_lookup_insert_ne in Hh by done. auto.
Qed.

Lemma loops_shape w :
  Inv w -> loops w = [] \/ loops w = [cur w].
Proof.
  intros HI. pose proof (inv_loops _ HI) as Hl. unfold cur.
  destruct (loops w) as [|q [|q' l]]; simpl in *; auto.
  by destruct (started (mux w)).
Qed.

Lemma pending_handle_lt w o :
  Inv w -> o ∈ pending (cur w) -> (dst o < length (chans w))%nat.
Proof.
  intros HI Ho. apply (inv_pending_sub _ HI) in Ho.
  assert (dst o ∈ dst <$> outputs (mux w)) as Hd
    by (apply list_elem_of_fmap; eauto).
  rewrite (inv_handles _ HI) in Hd. apply elem_of_seq in Hd. lia.
Qed.

Lemma not_owes_fresh w h :
  Inv w -> (length (chans w) <= h)%nat ->
  in_flight (cur w) = None \/ ~ owes (cur w) h \/
  exists x, cur w = PSnap x.
Proof.
  intros HI Hh.
  assert (h ∉ dst <$> pending (cur w)) as Hn.
  { intros (o & -> & Ho)%list_elem_of_fmap.
    pose proof (pending_handle_lt _ _ HI Ho). lia. }
  destruct (cur w); simpl in *; eauto.
Qed.

Lemma Inv_AddOutput name buf w w' h :
  Inv w -> AddOutput name buf w = Returns (w', h) -> Inv w'.
Proof.
  intros HI. unfold AddOutput, make_chan.
  destruct (buf <? 0); [done|]. destruct (_ <? _); [done|].
  destruct (lock (mux w)) eqn:Hl; [done|]. intros [= <- <-].
  pose proof (inv_lock _ HI) as Hlock. rewrite Hl in Hlock.
  pose proof (loops_shape _ HI) as Hshape.
  pose proof (not_owes_fresh w (length (chans w)) HI (le_n _)) as Hfresh.
  pose proof (inv_flight _ HI) as Hflight.
  inv_split HI.
  - rewrite fmap_app, length_app, seq_app, inv_handles0. done.
  - intros o Ho. apply elem_of_app. left. auto.
  - intros h sl Hh.
    destruct (decide (h < length (chans w))%nat) as [Hlt|Hge].
    { rewrite lookup_app_l in Hh by done. auto. }
    rewrite lookup_app_r in Hh by lia.
    apply list_lookup_singleton_Some in Hh as [Hh <-].
    assert (h = length (chans w)) as -> by lia. clear Hh Hge.
    set (p := default PRecv (head (loops w))) in *.
    split; simpl.
    + apply new_chan_wf.
    + destruct Hshape as [Hs | Hs]; rewrite Hs.
      * subst p. rewrite Hs. simpl. done.
      * clearbody p. destruct p; simpl in *; done.
    + destruct Hshape as [Hs | Hs]; rewrite Hs; [done|].
      clearbody p. destruct p; simpl; try done.
      intros _. split; [done|]. destruct inv_src_end0 as (_ & _ & ?); [done|].
      lia.
    + clearbody p. destruct Hfresh as [Hnone | [Hno | (x & Hx)]].
      * exists (ch_got (src (mux w))). repeat split.
        -- apply sublist_nil_l.
        -- intros _ H0. simpl in H0. symmetry. apply nil_length_inv. lia.
        -- right. split; [|done]. destruct p; simpl in *; try done; tauto.
      * exists (ch_got (src (mux w))). repeat split.
        -- apply sublist_nil_l.
        -- intros _ H0. simpl in H0. symmetry. apply nil_length_inv. lia.
        -- by right.
      * destruct (Hflight x) as (prev & Hprev); [by rewrite Hx|].
        exists prev. repeat split.
        -- apply sublist_nil_l.
        -- intros _ H0. rewrite Hprev, length_app in H0. simpl in H0. lia.
        -- left. rewrite Hx. simpl. eauto.
Qed.

Lemma Inv_recv_value w p x c :
  Inv w -> loops w = [p] -> p = PRecv ->
  chan_recv (src (mux w)) = RecvValue x c ->
  Inv (goto 0 (PSnap x) (set_mux w (set_src (mux w) c))).
Proof.
  intros HI Hl -> Hr.
  destruct (chan_recv_value _ _ _ Hr) as (Hb & Hg & Hs & Hc & Hrq & _).
  pose proof (chan_recv_value_wf _ _ _ Hr (inv_src_wf _ HI)).
  inv_open HI Hl. inv_close Hl.
  - intros y [= <-]. eauto.
  - intros h sl Hh. destruct (inv_slots0 _ _ Hh) as [Hw Hcl Hla Hd].
    split; auto. rewrite Hg.
    eapply delivery_read; eauto; simpl; auto.
Qed.

Lemma Inv_recv_end w p c :
  Inv w -> loops w = [p] -> p = PRecv ->
  chan_recv (src (mux w)) = RecvEnd c ->
  Inv (goto 0 PShutLock (set_mux w (set_src (mux w) c))).
Proof.
  intros HI Hl -> Hr.
  destruct (chan_recv_end _ _ Hr)
    as (Hb & Hc & Hb' & Hg & Hs & Hc' & Hrq & _).
  pose proof (chan_recv_end_wf _ _ Hr (inv_src_wf _ HI)).
  destruct (chan_recv_end _ _ Hr) as (_&_&_&_&_&_&_&_&_& Heos).
  inv_open HI Hl. inv_close Hl.
  { intros _. repeat split; auto. lia. }
  intros h sl Hh. rewrite Hg.
    eapply slot_ok_pc; [| | |eauto]; simpl; try done.
    apply (inv_slots0 _ _ Hh).
Qed.

Lemma Inv_snapshot w p x :
  Inv w -> loops w = [p] -> p = PSnap x ->
  Inv (goto 0 (PWrite x (outputs (mux w))) w).
Proof.
  intros HI Hl ->. inv_open HI Hl. inv_close Hl.
  - rewrite inv_handles0. apply NoDup_seq.
  - intros h sl Hh.
    eapply slot_ok_pc; [| | |eauto]; simpl; try done.
    + apply (inv_slots0 _ _ Hh).
    + split; [intros _|done]. rewrite inv_handles0. apply elem_of_seq.
      apply lookup_lt_Some in Hh. lia.
Qed.

Lemma Inv_range_end w p x :
  Inv w -> loops w = [p] -> p = PWrite x [] ->
  Inv (goto 0 PRecv w).
Proof.
  intros HI Hl ->. inv_open HI Hl. inv_close Hl.
  intros h sl Hh.
  eapply slot_ok_pc; [| | |eauto]; simpl; try done.
  - apply (inv_slots0 _ _ Hh).
  - split; [|done]. by intros ?%elem_of_nil.
  - by intros ?%elem_of_nil.
Qed.

Lemma blockingOutputWriter_inv o x w w1 :
  blockingOutputWriter o x w = Returns w1 ->
  exists sl ch,
    chans w !! dst o = Some sl /\
    sent_chan (chan_send (sl_ch sl) x) = Some ch /\
    w1 = set_chans w (<[dst o := set_ch sl ch]> (chans w)).
Proof.
  unfold blockingOutputWriter.
  destruct (chans w !! dst o) as [sl|]; [|done].
  destruct (chan_send (sl_ch sl) x) as [r ch|ch| |] eqn:Hs;
    intros [= <-]; exists sl, ch; by rewrite Hs.
Qed.

Lemma offering_pending p x o t : offering p x o t -> pending p = o :: t.
Proof. by intros [-> | (s & ->)]. Qed.

Lemma offering_in_flight p x o t : offering p x o t -> in_flight p = Some x.
Proof. by intros [-> | (s & ->)]. Qed.

Lemma offering_owes p x o t h :
  offering p x o t -> owes p h <-> h ∈ dst <$> o :: t.
Proof. by intros [-> | (s & ->)]. Qed.

Lemma offering_closed_spec p x o t h sl :
  offering p x o t ->
  closed_spec p h sl <-> sl_late sl = false /\ ch_closed (sl_ch sl) = false.
Proof. by intros [-> | (s & ->)]. Qed.

Lemma offering_flags p x o t :
  offering p x o t ->
  holds_lock p = false /\ shutting p = false /\ signalled p = false.
Proof. by intros [-> | (s & ->)]. Qed.

Lemma Inv_send w p x o t w1 :
  Inv w -> loops w = [p] -> offering p x o t ->
  blockingOutputWriter o x w = Returns w1 ->
  Inv (goto 0 (PWrite x t) w1).
Proof.
  intros HI Hl Hp (sl & ch & Hsl & Hch & ->)%blockingOutputWriter_inv.
  destruct (chan_send_inv _ _ _ Hch) as (Hc & Hc' & Hs & _).
  pose proof (offering_pending _ _ _ _ Hp) as Hpend.
  pose proof (offering_in_flight _ _ _ _ Hp) as Hfl.
  destruct (offering_flags _ _ _ _ Hp) as (Hf1 & Hf2 & Hf3).
  inv_open HI Hl. rewrite Hpend, ?Hf1, ?Hf2, ?Hf3, ?Hfl in *.
  rewrite fmap_cons in inv_pending_nodup0.
  apply NoDup_cons in inv_pending_nodup0 as [Hnin Hnd].
  inv_close Hl.
  - by rewrite length_insert.
  - intros o' Ho'. apply inv_pending_sub0. by right.
  - intros h sl' Hh. destruct (decide (h = dst o)) as [->|Hne].
    + rewrite list_lookup_insert_eq in Hh by (by eapply lookup_lt_Some).
      injection Hh as <-.
      destruct (inv_slots0 _ _ Hsl) as [Hw Hcl Hla Hd].
      apply (offering_closed_spec _ _ _ _ _ _ Hp) in Hcl as [Hlate _].
      split; simpl; auto.
      * eapply chan_send_wf; eauto.
      * congruence.
      * eapply (delivery_sent p _ _ _ x _ sl); [| | | | |exact Hd];
          simpl; auto.
        apply (offering_owes _ _ _ _ _ Hp). by left.
    + rewrite list_lookup_insert_ne in Hh by done.
      destruct (inv_slots0 _ _ Hh) as [Hw Hcl Hla Hd].
      apply (offering_closed_spec _ _ _ _ _ _ Hp) in Hcl.
      split; simpl; auto.
      eapply (delivery_keep p _ _ _ _ sl'); [| | | |exact Hd]; simpl; auto.
      rewrite (offering_owes _ _ _ _ _ Hp). simpl.
      rewrite elem_of_cons. split; [by intros [?|?] | by right].
Qed.

Lemma Inv_drop w p x o t :
  Inv w -> loops w = [p] -> offering p x o t ->
  writer (mux w) <> WriterBlocking ->
  Inv (goto 0 (PWrite x t) w).
Proof.
  intros HI Hl Hp Hwr.
  pose proof (offering_pending _ _ _ _ Hp) as Hpend.
  pose proof (offering_in_flight _ _ _ _ Hp) as Hfl.
  destruct (offering_flags _ _ _ _ Hp) as (Hf1 & Hf2 & Hf3).
  inv_open HI Hl. rewrite Hpend, ?Hf1, ?Hf2, ?Hf3, ?Hfl in *.
  rewrite fmap_cons in inv_pending_nodup0.
  apply NoDup_cons in inv_pending_nodup0 as [Hnin Hnd].
  inv_close Hl.
  - intros o' Ho'. apply inv_pending_sub0. by right.
  - intros h sl Hh.
    destruct (inv_slots0 _ _ Hh) as [Hw Hcl Hla Hd].
    apply (offering_closed_spec _ _ _ _ _ _ Hp) in Hcl.
    split; simpl; auto.
    destruct (decide (h = dst o)) as [->|Hne].
    + eapply delivery_drop; [| | |exact Hd]; simpl; auto.
      apply (offering_owes _ _ _ _ _ Hp). by left.
    + eapply (delivery_keep p _ _ _ _ sl); [| | | |exact Hd]; simpl; auto.
      rewrite (offering_owes _ _ _ _ _ Hp). simpl.
      rewrite elem_of_cons. split; [by intros [?|?] | by right].
Qed.

Lemma Inv_timer w p x o t d s :
  Inv w -> loops w = [p] -> offering p x o t ->
  writer (mux w) = WriterTimeout d -> s <= d ->
  Inv (goto 0 (PTimed x o t s) w).
Proof.
  intros HI Hl Hp Hwr Hs.
  pose proof (offering_pending _ _ _ _ Hp) as Hpend.
  pose proof (offering_in_flight _ _ _ _ Hp) as Hfl.
  destruct (offering_flags _ _ _ _ Hp) as (Hf1 & Hf2 & Hf3).
  inv_open HI Hl. rewrite Hpend, ?Hf1, ?Hf2, ?Hf3, ?Hfl in *.
  inv_close Hl.
  - intros ? ? ? ? [= <- <- <- <-]. eauto.
  - intros h sl Hh.
    destruct (inv_slots0 _ _ Hh) as [Hw Hcl Hla Hd].
    apply (offering_closed_spec _ _ _ _ _ _ Hp) in Hcl.
    split; simpl; auto.
    eapply (delivery_keep p _ _ _ _ sl); [| | | |exact Hd]; simpl; auto.
    by rewrite (offering_owes _ _ _ _ _ Hp).
Qed.

Lemma Inv_shut_lock w p :
  Inv w -> loops w = [p] -> p = PShutLock ->
  Inv (goto 0 (PShutClose (outputs (mux w)))
         (set_mux w (set_lock (mux w) true))).
Proof.
  intros HI Hl ->. inv_open HI Hl. inv_close Hl.
  - rewrite inv_handles0. apply NoDup_seq.
  - intros h sl Hh. destruct (inv_slots0 _ _ Hh) as [Hw [Hla Hcl] Hl' Hd].
    split; auto.
    split; [done|]. split; [intros _|done].
    rewrite inv_handles0. apply elem_of_seq.
    apply lookup_lt_Some in Hh. lia.
Qed.

Lemma Inv_shut_close w p o t sl ch :
  Inv w -> loops w = [p] -> p = PShutClose (o :: t) ->
  chans w !! dst o = Some sl -> chan_close (sl_ch sl) = Some ch ->
  Inv (goto 0 (PShutClose t)
         (set_chans w (<[dst o := set_ch sl ch]> (chans w)))).
Proof.
  intros HI Hl -> Hsl Hch.
  destruct (chan_close_inv _ _ Hch) as (Hc & Hc' & Hs & _).
  inv_open HI Hl.
  apply NoDup_cons in inv_pending_nodup0 as [Hnin Hnd].
  inv_close Hl.
  - by rewrite length_insert.
  - intros o' Ho'. apply inv_pending_sub0. by right.
  - intros h sl' Hh. destruct (decide (h = dst o)) as [->|Hne].
    + rewrite list_lookup_insert_eq in Hh by (by eapply lookup_lt_Some).
      injection Hh as <-.
      destruct (inv_slots0 _ _ Hsl) as [Hw [Hla Hcl] Hl' Hd].
      split; simpl; auto.
      * eapply chan_close_wf; eauto.
      * split; [done|]. rewrite Hc'. split; [done|]. by intros ?.
      * by rewrite Hs.
      * eapply (delivery_keep _ _ _ _ _ sl); [| | | |exact Hd]; auto; done.
    + rewrite list_lookup_insert_ne in Hh by done.
      destruct (inv_slots0 _ _ Hh) as [Hw [Hla Hcl] Hl' Hd].
      split; simpl; auto.
      split; [done|]. rewrite Hcl, fmap_cons, elem_of_cons.
      split; [by intros [?|?] | by right].
Qed.

Lemma Inv_signal w p f rs :
  Inv w -> loops w = [p] -> p = PShutClose [] ->
  sent_chan (chan_send (Finished (mux w)) true) = Some f ->
  length rs = (length (ch_recvq (Finished (mux w))) - length (ch_recvq f))%nat ->
  Inv (goto 0 PShutUnlock
         (set_returned (set_mux w (set_Finished (mux w) f))
                       (returned w ++ rs))).
Proof.
  intros HI Hl -> Hf Hrs.
  pose proof (chan_send_wf _ _ _ Hf (inv_fin_wf _ HI)) as Hwf.
  destruct (chan_send_inv _ _ _ Hf)
    as (Hc & Hc' & Hs & Hcap & _ & _ & Hcase).
  inv_open HI Hl. inv_close Hl.
  - by rewrite Hs, inv_fin_sent0.
  - rewrite length_app.
    destruct Hcase as [(r & Hr & Hg & _) | (Hr & Hr' & Hg & _)].
    + rewrite Hr in Hrs. simpl in Hrs. rewrite Hg, length_app. simpl. lia.
    + rewrite Hr, Hr' in Hrs. simpl in Hrs. rewrite Hg. lia.
  - rewrite length_app.
    destruct Hcase as [(r & Hr & Hg & _) | (Hr & Hr' & Hg & _)].
    + rewrite Hr in Hrs, inv_nwait0. simpl in *. lia.
    + rewrite Hr, Hr' in *. simpl in *. lia.
  - intros h sl Hh. destruct (inv_slots0 _ _ Hh) as [Hw [Hla Hcl] Hl' Hd].
    split; auto.
    split; [done|]. destruct (ch_closed (sl_ch sl)); [done|].
    destruct Hcl as [Hcl _]. specialize (Hcl eq_refl).
    by apply elem_of_nil in Hcl.
Qed.

Lemma Inv_unlock w p :
  Inv w -> loops w = [p] -> p = PShutUnlock ->
  Inv (goto 0 PDone (set_mux w (set_lock (mux w) false))).
Proof.
  intros HI Hl ->. inv_open HI Hl. inv_close Hl.
  intros h sl Hh. destruct (inv_slots0 _ _ Hh) as [Hw [Hla Hcl] Hl' Hd].
  split; auto.
  simpl. by rewrite Hla, Hcl.
Qed.

Lemma and_then_Returns r k w' :
  and_then r k = Returns w' -> exists w1, r = Returns w1 /\ w' = k w1.
Proof. destruct r; intros [= <-]; eauto. Qed.

Lemma Inv_loop_step w p w' :
  Inv w -> loops w = [p] -> loop_step 0 p w = Returns w' -> Inv w'.
Proof.
  intros HI Hl. destruct p as [|x|x [|o t]|x o t s| |[|o t]| |]; simpl.
  - destruct (chan_recv (src (mux w))) as [x c|c|] eqn:Hr;
      intros [= <-]; [by eapply Inv_recv_value | by eapply Inv_recv_end].
  - destruct (lock (mux w)); intros [= <-]. by eapply Inv_snapshot.
  - intros [= <-]. by eapply Inv_range_end.
  - assert (offering (PWrite x (o :: t)) x o t) as Hoff by by left.
    unfold call_writer. destruct (writer (mux w)) as [| |d] eqn:Hwr.
    + intros (w1 & Hw1 & ->)%and_then_Returns. by eapply Inv_send.
    + intros (w1 & Hw1 & ->)%and_then_Returns.
      unfold nonBlockingOutputWriter in Hw1.
      destruct (blockingOutputWriter o x w) as [w2| |] eqn:Hb;
        simplify_eq.
      * by eapply Inv_send.
      * eapply Inv_drop; eauto. by rewrite Hwr.
    + intros [= <-]. eapply Inv_timer; eauto. lia.
  - assert (offering (PTimed x o t s) x o t) as Hoff by (right; eauto).
    intros (w1 & Hw1 & ->)%and_then_Returns.
    unfold timeout_select_send in Hw1.
    destruct (blockingOutputWriter o x w) as [w2| |] eqn:Hb; simplify_eq.
    apply (Inv_set_leaked (goto 0 (PWrite x t) w2)). by eapply Inv_send.
  - destruct (lock (mux w)); intros [= <-]. by eapply Inv_shut_lock.
  - destruct (chan_send (Finished (mux w)) true) as [r f|f| |] eqn:Hs;
      intros [= <-].
    + eapply Inv_signal; eauto; [by rewrite Hs|].
      unfold chan_send in Hs. destruct (ch_closed _); [done|].
      destruct (ch_recvq _) as [|r' q]; [by destruct (_ <? _)|].
      injection Hs as <- <-. simpl. lia.
    + assert (Inv (goto 0 PShutUnlock
                (set_returned (set_mux w (set_Finished (mux w) f))
                              (returned w ++ [])))) as H.
      { eapply Inv_signal; eauto; [by rewrite Hs|].
        unfold chan_send in Hs. destruct (ch_closed _); [done|].
        destruct (ch_recvq _) as [|r' q]; [|done].
        destruct (_ <? _); [|done]. injection Hs as <-. done. }
      rewrite app_nil_r in H. exact H.
  - destruct (chans w !! dst o) as [sl|] eqn:Hsl; [|done].
    destruct (chan_close (sl_ch sl)) as [ch|] eqn:Hch; intros [= <-].
    by eapply Inv_shut_close.
  - intros [= <-]. by eapply Inv_unlock.
  - done.
Qed.

Lemma Inv_kill_step w p w' :
  Inv w -> loops w = [p] -> kill_step 0 p w = Returns w' -> Inv w'.
Proof.
  intros HI Hl. destruct p as [|x|x l|x o t s| |l| |]; simpl; try done.
  intros (w1 & Hw1 & ->)%and_then_Returns.
  unfold timeout_select_kill in Hw1. destruct (s <=? 0); simplify_eq.
  destruct (inv_timed _ HI x o t s) as (d & Hd & _).
  { unfold cur. by rewrite Hl. }
  eapply Inv_drop; eauto; [right; eauto | by rewrite Hd].
Qed.

Lemma Inv_tick_step w p w' :
  Inv w -> loops w = [p] -> tick_step 0 p w = Returns w' -> Inv w'.
Proof.
  intros HI Hl. destruct p as [|x|x l|x o t s| |l| |]; simpl; try done.
  destruct (0 <? s); intros [= <-].
  destruct (inv_timed _ HI x o t s) as (d & Hd & Hs).
  { unfold cur. by rewrite Hl. }
  eapply Inv_timer; eauto; [right; eauto | lia].
Qed.

Lemma Inv_perform e w w' : Inv w -> perform e w = Returns w' -> Inv w'.
Proof.
  intros HI. destruct e as [x| |nm buf| | |c|i|i|i]; simpl.
  - by apply Inv_push.
  - by apply Inv_close_src.
  - destruct (AddOutput nm buf w) as [[w1 h]| |] eqn:Ha; intros [= <-].
    by eapply Inv_AddOutput.
  - by apply Inv_Start.
  - intros [= <-]. by apply Inv_Wait.
  - by apply Inv_consume.
  - destruct (loops w !! i) as [p|] eqn:Hi; [|done].
    destruct (loops_single _ _ _ HI Hi) as (-> & Hl & _).
    by apply Inv_loop_step.
  - destruct (loops w !! i) as [p|] eqn:Hi; [|done].
    destruct (loops_single _ _ _ HI Hi) as (-> & Hl & _).
    by apply Inv_kill_step.
  - destruct (loops w !! i) as [p|] eqn:Hi; [|done].
    destruct (loops_single _ _ _ HI Hi) as (-> & Hl & _).
    by apply Inv_tick_step.
Qed.

Lemma Inv_step w e w' : Inv w -> step w e = Some w' -> Inv w'.
Proof.
  intros HI. unfold step. destruct (crashed w); [done|].
  destruct (perform e w) as [w1| |p] eqn:Hp; intros [= <-].
  - by eapply Inv_perform.
  - by apply Inv_set_crashed.
Qed.

Lemma Inv_run es : forall w w', Inv w -> run w es = Some w' -> Inv w'.
Proof.
  induction es as [|e es IH]; simpl; intros w w' HI.
  - by intros [= <-].
  - destruct (step w e) as [w1|] eqn:Hs; [|done].
    apply IH. by eapply Inv_step.
Qed.

Lemma reachable_Inv w : reachable w -> Inv w.
Proof.
  intros (m & Hm & es & Hrun). eapply Inv_run; [|exact Hrun].
  by apply Inv_boot.
Qed.

(** *** Buffers never exceed their capacity *)

Lemma caps_ok_insert cs h sl ch :
  caps_ok cs -> cap_ok ch -> caps_ok (<[h := set_ch sl ch]> cs).
Proof.
  intros Hcs Hch h' sl' Hh'.
  destruct (decide (h' = h)) as [->|Hne].
  - apply list_lookup_insert_Some in Hh' as [(_ & <- & _) | (? & _)]; done.
  - rewrite list_lookup_insert_ne in Hh' by done. eauto.
Qed.

Lemma cap_ok_send {A} (ch ch' : chan A) x :
  sent_chan (chan_send ch x) = Some ch' -> cap_ok ch -> cap_ok ch'.
Proof.
  intros Hs Hc. unfold cap_ok in *.
  destruct (chan_send_inv _ _ _ Hs) as (_ & _ & _ & -> & _ & _ & Hcase).
  destruct Hcase as [(r & _ & _ & ->) | (_ & _ & _ & -> & Hlt)]; [done|].
  rewrite length_app. simpl. lia.
Qed.

Lemma cap_ok_recv {A} (ch : chan A) :
  cap_ok ch ->
  cap_ok match chan_recv ch with
         | RecvValue _ c | RecvEnd c => c
         | RecvBlocks => chan_park 0%nat ch
         end.
Proof.
  unfold cap_ok, chan_recv. intros Hc.
  destruct (ch_buf ch) as [|y b] eqn:Hb; simpl in *.
  - destruct (ch_closed ch); simpl; by rewrite ?Hb.
  - lia.
Qed.

Lemma cap_ok_close {A} (ch ch' : chan A) :
  chan_close ch = Some ch' -> cap_ok ch -> cap_ok ch'.
Proof.
  intros (_ & _ & _ & _ & Hb & _ & _ & Hcap)%chan_close_inv.
  unfold cap_ok. by rewrite Hb, Hcap.
Qed.

Lemma caps_ok_blockingOutputWriter o x w w' :
  blockingOutputWriter o x w = Returns w' ->
  caps_ok (chans w) -> caps_ok (chans w').
Proof.
  intros (sl & ch & Hsl & Hch & ->)%blockingOutputWriter_inv Hc. simpl.
  apply caps_ok_insert; [done|]. eapply cap_ok_send; eauto.
Qed.

Lemma caps_ok_loop_step i p w w' :
  loop_step i p w = Returns w' -> caps_ok (chans w) -> caps_ok (chans w').
Proof.
  destruct p as [|x|x [|o t]|x o t s| |[|o t]| |]; simpl.
  - destruct (chan_recv (src (mux w))); by intros [= <-].
  - destruct (lock (mux w)); by intros [= <-].
  - by intros [= <-].
  - unfold call_writer. destruct (writer (mux w)).
    + intros (w1 & Hw1 & ->)%and_then_Returns. simpl.
      by eapply caps_ok_blockingOutputWriter.
    + intros (w1 & Hw1 & ->)%and_then_Returns. simpl.
      unfold nonBlockingOutputWriter in Hw1.
      destruct (blockingOutputWriter o x w) eqn:Hb; simplify_eq; [|done].
      by eapply caps_ok_blockingOutputWriter.
    + by intros [= <-].
  - intros (w1 & Hw1 & ->)%and_then_Returns. simpl.
    unfold timeout_select_send in Hw1.
    destruct (blockingOutputWriter o x w) eqn:Hb; simplify_eq. simpl.
    by eapply caps_ok_blockingOutputWriter.
  - destruct (lock (mux w)); by intros [= <-].
  - destruct (chan_send (Finished (mux w)) true); by intros [= <-].
  - destruct (chans w !! dst o) as [sl|] eqn:Hsl; [|done].
    destruct (chan_close (sl_ch sl)) as [ch|] eqn:Hch; intros [= <-] Hc.
    simpl. apply caps_ok_insert; [done|].
    eapply cap_ok_close; eauto.
  - by intros [= <-].
  - done.
Qed.

Lemma caps_ok_perform e w w' :
  perform e w = Returns w' -> caps_ok (chans w) -> caps_ok (chans w').
Proof.
  destruct e as [x| |nm buf| | |c|i|i|i]; simpl.
  - unfold push. destruct (ch_closed (src (mux w))); by intros [= <-].
  - unfold close_src. destruct (chan_close (src (mux w))); by intros [= <-].
  - unfold AddOutput, make_chan.
    destruct (Z.ltb_spec buf 0); [done|]. destruct (_ <? _); [done|].
    destruct (lock (mux w)); [done|]. intros [= <-] Hc h sl. simpl.
    intros [?| (_ & [_ <-]%list_lookup_singleton_Some)]%lookup_app_Some;
      [by eauto|].
    unfold cap_ok. simpl. lia.
  - unfold Start. destruct (lock (mux w)), (started (mux w)); by intros [= <-].
  - intros [= <-]. unfold WaitUntilFinished.
    by destruct (chan_recv (Finished (mux w))).
  - unfold consume. destruct (chans w !! c) as [sl|] eqn:Hsl; [|done].
    intros [= <-] Hc. simpl. apply caps_ok_insert; [done|].
    apply cap_ok_recv. by eapply Hc.
  - destruct (loops w !! i); [apply caps_ok_loop_step | done].
  - destruct (loops w !! i) as [[]|]; simpl; try done.
    unfold timeout_select_kill. destruct (_ <=? _); by intros [= <-].
  - destruct (loops w !! i) as [[]|]; simpl; try done.
    destruct (_ <? _); by intros [= <-].
Qed.

Lemma caps_ok_run es : forall w w',
  run w es = Some w' -> caps_ok (chans w) -> caps_ok (chans w').
Proof.
  induction es as [|e es IH]; simpl; intros w w'.
  - by intros [= <-].
  - unfold step. destruct (crashed w); [done|].
    destruct (perform e w) as [w1| |p] eqn:Hp; [|done|].
    + intros Hr Hc. eapply IH; eauto. by eapply caps_ok_perform.
    + intros Hr Hc. eapply IH; eauto.
Qed.

Lemma reachable_caps_ok w : reachable w -> caps_ok (chans w).
Proof.
  intros (m & Hm & es & Hrun). eapply caps_ok_run; [exact Hrun|].
  by intros h sl Hh.
Qed.

(** *** What no event, or no quiet event, changes *)

Lemma perform_frame e w w' :
  perform e w = Returns w' ->
  crashed w' = crashed w /\ writer (mux w') = writer (mux w) /\
  blocking (mux w') = blocking (mux w) /\ timeout (mux w') = timeout (mux w).
Proof. destruct e; crush_perform; done. Qed.

Lemma perform_quiet e w w' :
  quiet e -> perform e w = Returns w' ->
  ch_sent (src (mux w')) = ch_sent (src (mux w)) /\
  outputs (mux w') = outputs (mux w) /\
  length (chans w') = length (chans w) /\
  nwait w' = nwait w.
Proof.
  destruct e; try done; intros _; crush_perform;
    rewrite ?length_insert; try done;
    unfold chan_recv in *; repeat case_match; by simplify_eq.
Qed.

(** ** Running to completion *)

Lemma run_app es1 : forall w es2,
  run w (es1 ++ es2) =
  match run w es1 with Some w1 => run w1 es2 | None => None end.
Proof.
  induction es1 as [|e es1 IH]; simpl; intros w es2; [done|].
  destruct (step w e); [apply IH | done].
Qed.

Lemma reachable_run w es w' :
  reachable w -> run w es = Some w' -> reachable w'.
Proof.
  intros (m & Hm & es0 & Hr) Hrun. exists m. split; [done|].
  exists (es0 ++ es). by rewrite run_app, Hr.
Qed.

Lemma good_run w es w' :
  good w -> run w es = Some w' -> crashed w' = None -> good w'.
Proof.
  intros [HI Hc _] Hr Ha. split; [by eapply Inv_run| |done].
  by eapply caps_ok_run.
Qed.

Lemma leads_refl w : crashed w = None -> leads w [] w.
Proof. intros H. by repeat split. Qed.

Lemma leads_step w e w1 es w' :
  crashed w = None -> quiet e -> perform e w = Returns w1 ->
  leads w1 es w' -> leads w (e :: es) w'.
Proof.
  intros Ha Hq Hp (Hqs & Hr & Ha'). repeat split; [by constructor| |done].
  simpl. unfold step. by rewrite Ha, Hp.
Qed.

Lemma leads_trans w es1 w1 es2 w2 :
  leads w es1 w1 -> leads w1 es2 w2 -> leads w (es1 ++ es2) w2.
Proof.
  intros (Hq1 & Hr1 & _) (Hq2 & Hr2 & Ha). repeat split; [|
    by rewrite run_app, Hr1 | done].
  by apply Forall_app.
Qed.

Lemma leads_good w es w' : good w -> leads w es w' -> good w'.
Proof. intros Hg (_ & Hr & Ha). by eapply good_run. Qed.

Lemma good_perform w e w' : good w -> perform e w = Returns w' -> good w'.
Proof.
  intros [HI Hc Ha] Hp. split.
  - by eapply Inv_perform.
  - by eapply caps_ok_perform.
  - destruct (perform_frame _ _ _ Hp) as (-> & _). done.
Qed.

(** After a consumer's receive the channel takes a send. *)
Lemma chan_send_after_recv {A} (ch : chan A) (x : A) :
  chan_wf ch -> cap_ok ch -> ch_closed ch = false ->
  exists ch2,
    sent_chan (chan_send
                 match chan_recv ch with
                 | RecvValue _ c | RecvEnd c => c
                 | RecvBlocks => chan_park 0%nat ch
                 end x) = Some ch2.
Proof.
  intros (_ & _ & _ & Hq & _) Hcap Hc. unfold cap_ok in Hcap.
  unfold chan_recv. destruct (ch_buf ch) as [|y b] eqn:Hb.
  - rewrite Hc. unfold chan_send. simpl. rewrite Hc.
    destruct (ch_recvq ch ++ [0%nat]) as [|r q] eqn:Happ; [|eauto].
    by apply app_nil in Happ as [_ ?].
  - unfold chan_send. simpl. rewrite Hc.
    destruct Hq as [-> | ?]; [|done].
    simpl in Hcap. destruct (Z.ltb_spec (Z.of_nat (length b)) (ch_cap ch));
      [eauto | lia].
Qed.

Lemma pending_slot w o :
  good w -> o ∈ pending (cur w) ->
  exists sl, chans w !! dst o = Some sl /\
             slot_ok (cur w) (writer (mux w)) (ch_got (src (mux w)))
                     (dst o) sl /\
             cap_ok (sl_ch sl).
Proof.
  intros [HI Hc _] Ho.
  destruct (lookup_lt_is_Some_2 (chans w) (dst o)) as [sl Hsl].
  { by eapply pending_handle_lt. }
  exists sl. split; [done|]. split; [by apply (inv_slots _ HI)|].
  by eapply Hc.
Qed.

Lemma blockingOutputWriter_ready o x w sl ch :
  chans w !! dst o = Some sl ->
  sent_chan (chan_send (sl_ch sl) x) = Some ch ->
  blockingOutputWriter o x w =
  Returns (set_chans w (<[dst o := set_ch sl ch]> (chans w))).
Proof.
  intros Hsl Hch. unfold blockingOutputWriter. rewrite Hsl.
  by destruct (chan_send (sl_ch sl) x); simplify_eq/=.
Qed.

(** A send that is ready goes through, whatever the writer; the timeout
    writer takes one more instruction to get to its select. *)
Lemma send_step v p x o t sl ch :
  crashed v = None -> loops v = [p] -> offering p x o t ->
  chans v !! dst o = Some sl ->
  sent_chan (chan_send (sl_ch sl) x) = Some ch ->
  exists es v',
    Forall quiet es /\ run v es = Some v' /\
    loops v' = [PWrite x t] /\ src (mux v') = src (mux v) /\
    crashed v' = None.
Proof.
  intros Hcr Hl Hp Hsl Hch.
  pose proof (blockingOutputWriter_ready o x v sl ch Hsl Hch) as Hb.
  set (v1 := set_chans v (<[dst o := set_ch sl ch]> (chans v))) in *.
  assert (forall s u, crashed u = None -> loops u = [PTimed x o t s] ->
            blockingOutputWriter o x u = Returns (set_chans u (chans v1)) ->
            step u (EvLoop 0) =
            Some (goto 0 (PWrite x t)
                    (set_leaked (set_chans u (chans v1)) (S (leaked u)))))
    as Htimed.
  { intros s u Hu Hlu Hbu. unfold step. rewrite Hu. simpl. rewrite Hlu.
    simpl. unfold timeout_select_send. by rewrite Hbu. }
  destruct Hp as [-> | (s & ->)].
  - destruct (writer (mux v)) as [| |d] eqn:Hwr.
    + exists [EvLoop 0%nat], (goto 0 (PWrite x t) v1).
      split; [by repeat constructor|]. simpl. unfold step.
      rewrite Hcr. simpl. rewrite Hl. simpl. unfold call_writer.
      rewrite Hwr, Hb. simpl. by rewrite ?Hl.
    + exists [EvLoop 0%nat], (goto 0 (PWrite x t) v1).
      split; [by repeat constructor|]. simpl. unfold step.
      rewrite Hcr. simpl. rewrite Hl. simpl.
      unfold call_writer, nonBlockingOutputWriter. rewrite Hwr, Hb. simpl.
      by rewrite ?Hl.
    + set (u := goto 0 (PTimed x o t d) v).
      exists [EvLoop 0%nat; EvLoop 0%nat],
        (goto 0 (PWrite x t)
           (set_leaked (set_chans u (chans v1)) (S (leaked u)))).
      split; [by repeat constructor|]. simpl.
      assert (step v (EvLoop 0) = Some u) as ->.
      { unfold step. rewrite Hcr. simpl. rewrite Hl. simpl.
        unfold call_writer. by rewrite Hwr. }
      rewrite (Htimed d u); [by subst u; simpl; rewrite ?Hl|done| |].
      * subst u. simpl. by rewrite Hl.
      * unfold blockingOutputWriter in *. simpl. rewrite Hsl in *.
        by destruct (chan_send (sl_ch sl) x); simplify_eq/=.
  - exists [EvLoop 0%nat],
        (goto 0 (PWrite x t)
           (set_leaked (set_chans v (chans v1)) (S (leaked v)))).
    split; [by repeat constructor|]. simpl.
    rewrite (Htimed s v); [by simpl; rewrite ?Hl|done|done|done].
Qed.

Lemma write_one w p x o t :
  good w -> loops w = [p] -> offering p x o t ->
  exists es w',
    leads w es w' /\ loops w' = [PWrite x t] /\
    src (mux w') = src (mux w).
Proof.
  intros Hg Hl Hp.
  assert (cur w = p) as Hcur by (unfold cur; by rewrite Hl).
  destruct (pending_slot w o Hg) as (sl & Hsl & Hok & Hcap).
  { rewrite Hcur, (offering_pending _ _ _ _ Hp). by left. }
  rewrite Hcur in Hok. destruct Hok as [Hwf Hcl _ _].
  apply (offering_closed_spec _ _ _ _ _ _ Hp) in Hcl as [_ Hopen].
  destruct (chan_send_after_recv (sl_ch sl) x Hwf Hcap Hopen) as [ch2 Hch2].
  set (ch1 := match chan_recv (sl_ch sl) with
              | RecvValue _ c | RecvEnd c => c
              | RecvBlocks => chan_park 0%nat (sl_ch sl)
              end) in *.
  set (w1 := set_chans w (<[dst o := set_ch sl ch1]> (chans w))).
  assert (perform (EvRecv (dst o)) w = Returns w1) as Hrecv.
  { simpl. unfold consume. by rewrite Hsl. }
  destruct (send_step w1 p x o t (set_ch sl ch1) ch2)
    as (es & w' & Hq & Hrun & Hl' & Hsrc & Hcr); auto.
  { apply Hg. }
  { simpl. apply list_lookup_insert_eq. by eapply lookup_lt_Some. }
  exists (EvRecv (dst o) :: es), w'. split; [|done].
  eapply leads_step; eauto; [apply Hg|done|done].
Qed.

Lemma write_all t : forall w x,
  good w -> loops w = [PWrite x t] ->
  exists es w',
    leads w es w' /\ loops w' = [PRecv] /\ src (mux w') = src (mux w).
Proof.
  induction t as [|o t IH]; intros w x Hg Hl.
  - exists [EvLoop 0%nat], (goto 0 PRecv w). split; [|by simpl; rewrite Hl].
    eapply leads_step; [apply Hg|done| |by apply leads_refl, Hg].
    simpl. by rewrite Hl.
  - destruct (write_one w _ x o t Hg Hl) as (es1 & w1 & Hl1 & Hp1 & Hs1);
      [by left|].
    destruct (IH w1 x) as (es2 & w2 & Hl2 & Hp2 & Hs2);
      [by eapply leads_good|done|].
    exists (es1 ++ es2), w2. split; [by eapply leads_trans|].
    split; [done|congruence].
Qed.

Lemma cur_single w p : loops w = [p] -> cur w = p.
Proof. intros H. unfold cur. by rewrite H. Qed.

(** One instruction of the goroutine that goes through, as a schedule. *)
Lemma loop_leads w p w1 es w' :
  good w -> loops w = [p] -> loop_step 0 p w = Returns w1 ->
  leads w1 es w' -> leads w (EvLoop 0 :: es) w'.
Proof.
  intros Hg Hl Hs Hrest. eapply leads_step; eauto; [apply Hg|done|].
  simpl. by rewrite Hl.
Qed.

Lemma loop_good w p w1 :
  good w -> loops w = [p] -> loop_step 0 p w = Returns w1 -> good w1.
Proof.
  intros Hg Hl Hs. eapply (good_perform w (EvLoop 0)); [done|].
  simpl. by rewrite Hl.
Qed.

Lemma finish_unlock w :
  good w -> loops w = [PShutUnlock] ->
  exists es w', leads w es w' /\ loops w' = [PDone].
Proof.
  intros Hg Hl.
  exists [EvLoop 0%nat], (goto 0 PDone (set_mux w (set_lock (mux w) false))).
  split; [|by simpl; rewrite Hl].
  eapply loop_leads; eauto. apply leads_refl. apply Hg.
Qed.

Lemma finish_signal w :
  good w -> loops w = [PShutClose []] ->
  exists es w', leads w es w' /\ loops w' = [PDone].
Proof.
  intros Hg Hl. pose proof (good_inv _ Hg) as HI.
  pose proof (cur_single _ _ Hl) as Hcur.
  assert (exists w1, loop_step 0 (PShutClose []) w = Returns w1 /\
                     loops w1 = [PShutUnlock]) as (w1 & Hs & Hl1).
  { simpl. unfold chan_send. rewrite (inv_fin_open _ HI).
    destruct (ch_recvq (Finished (mux w))) as [|r q].
    - pose proof (inv_fin_sent _ HI) as Hsent. rewrite Hcur in Hsent.
      destruct (inv_fin_wf _ HI) as (Hwf & _). simpl in Hsent.
      rewrite Hsent in Hwf. symmetry in Hwf.
      apply app_eq_nil in Hwf as [_ ->]. rewrite (inv_fin_cap _ HI). simpl.
      eexists. split; [done|]. simpl. by rewrite Hl.
    - eexists. split; [done|]. simpl. by rewrite Hl. }
  destruct (finish_unlock w1) as (es & w' & Hle & Hl'); [|done|].
  { by eapply loop_good. }
  exists (EvLoop 0%nat :: es), w'. split; [|done]. by eapply loop_leads.
Qed.

Lemma finish_close t : forall w,
  good w -> loops w = [PShutClose t] ->
  exists es w', leads w es w' /\ loops w' = [PDone].
Proof.
  induction t as [|o t IH]; intros w Hg Hl; [by apply finish_signal|].
  pose proof (cur_single _ _ Hl) as Hcur.
  destruct (pending_slot w o Hg) as (sl & Hsl & [_ Hcl _ _] & _).
  { rewrite Hcur. by left. }
  rewrite Hcur in Hcl. destruct Hcl as [_ Hcl].
  assert (ch_closed (sl_ch sl) = false) as Hopen.
  { apply Hcl. rewrite fmap_cons. by left. }
  assert (exists w1, loop_step 0 (PShutClose (o :: t)) w = Returns w1 /\
                     loops w1 = [PShutClose t]) as (w1 & Hs & Hl1).
  { simpl. rewrite Hsl. unfold chan_close. rewrite Hopen.
    eexists. split; [done|]. simpl. by rewrite Hl. }
  destruct (IH w1) as (es & w' & Hle & Hl'); [|done|].
  { by eapply loop_good. }
  exists (EvLoop 0%nat :: es), w'. split; [|done]. by eapply loop_leads.
Qed.

Lemma finish_shutdown w :
  good w -> loops w = [PShutLock] ->
  exists es w', leads w es w' /\ loops w' = [PDone].
Proof.
  intros Hg Hl. pose proof (inv_lock _ (good_inv _ Hg)) as Hlock.
  rewrite (cur_single _ _ Hl) in Hlock. simpl in Hlock.
  assert (exists w1, loop_step 0 PShutLock w = Returns w1 /\
                     loops w1 = [PShutClose (outputs (mux w))])
    as (w1 & Hs & Hl1).
  { simpl. rewrite Hlock. eexists. split; [done|]. simpl. by rewrite Hl. }
  destruct (finish_close (outputs (mux w)) w1)
    as (es & w' & Hle & Hl'); [|done|].
  { by eapply loop_good. }
  exists (EvLoop 0%nat :: es), w'. split; [|done]. by eapply loop_leads.
Qed.

Lemma finish_drain b : forall w,
  good w -> loops w = [PRecv] ->
  ch_buf (src (mux w)) = b -> ch_closed (src (mux w)) = true ->
  exists es w', leads w es w' /\ loops w' = [PDone].
Proof.
  induction b as [|x b IH]; intros w Hg Hl Hb Hc.
  - assert (exists w1, loop_step 0 PRecv w = Returns w1 /\
                       loops w1 = [PShutLock]) as (w1 & Hs & Hl1).
    { simpl. unfold chan_recv. rewrite Hb, Hc.
      eexists. split; [done|]. simpl. by rewrite Hl. }
    destruct (finish_shutdown w1) as (es & w' & Hle & Hl'); [|done|].
    { by eapply loop_good. }
    exists (EvLoop 0%nat :: es), w'. split; [|done]. by eapply loop_leads.
  - assert (exists w1, loop_step 0 PRecv w = Returns w1 /\
                       loops w1 = [PSnap x] /\
                       ch_buf (src (mux w1)) = b /\
                       ch_closed (src (mux w1)) = true)
      as (w1 & Hs1 & Hl1 & Hb1 & Hc1).
    { simpl. unfold chan_recv. rewrite Hb.
      eexists. split; [done|]. simpl. by rewrite Hl. }
    assert (good w1) as Hg1 by by eapply loop_good.
    pose proof (inv_lock _ (good_inv _ Hg1)) as Hlock.
    rewrite (cur_single _ _ Hl1) in Hlock. simpl in Hlock.
    assert (exists w2, loop_step 0 (PSnap x) w1 = Returns w2 /\
                       loops w2 = [PWrite x (outputs (mux w1))] /\
                       src (mux w2) = src (mux w1))
      as (w2 & Hs2 & Hl2 & Hsrc2).
    { simpl. rewrite Hlock.
      eexists. split; [done|]. simpl. by rewrite Hl1. }
    assert (good w2) as Hg2 by by eapply loop_good.
    destruct (write_all _ w2 x Hg2 Hl2) as (es3 & w3 & Hle3 & Hl3 & Hsrc3).
    destruct (IH w3) as (es & w' & Hle & Hl'); try done.
    { by eapply leads_good. }
    { by rewrite Hsrc3, Hsrc2. }
    { by rewrite Hsrc3, Hsrc2. }
    exists (EvLoop 0%nat :: EvLoop 0%nat :: es3 ++ es), w'. split; [|done].
    eapply loop_leads; eauto. eapply loop_leads; eauto.
    by eapply leads_trans.
Qed.

Lemma finish_recv w :
  good w -> loops w = [PRecv] ->
  exists es w', leads w es w' /\ loops w' = [PDone].
Proof.
  intros Hg Hl. destruct (ch_closed (src (mux w))) eqn:Hc.
  { by eapply finish_drain. }
  assert (exists w1, perform EvCloseSrc w = Returns w1 /\
                     loops w1 = [PRecv] /\
                     ch_closed (src (mux w1)) = true) as (w1 & Hs & Hl1 & Hc1).
  { simpl. unfold close_src, chan_close. rewrite Hc.
    eexists. split; [done|]. by simpl. }
  destruct (finish_drain (ch_buf (src (mux w1))) w1)
    as (es & w' & Hle & Hl'); try done.
  { by eapply good_perform. }
  exists (EvCloseSrc :: es), w'. split; [|done].
  eapply leads_step; eauto; [apply Hg|done].
Qed.

Lemma finish_write w x t :
  good w -> loops w = [PWrite x t] ->
  exists es w', leads w es w' /\ loops w' = [PDone].
Proof.
  intros Hg Hl.
  destruct (write_all _ w x Hg Hl) as (es1 & w1 & Hle1 & Hl1 & _).
  destruct (finish_recv w1) as (es & w' & Hle & Hl'); [|done|].
  { by eapply leads_good. }
  exists (es1 ++ es), w'. split; [|done]. by eapply leads_trans.
Qed.

(** From wherever a program stands, short of a panic, the goroutine can be
    brought to its end by closing the source, letting it run and letting
    the consumers read. *)
Lemma finish w :
  good w -> exists es w', leads w es w' /\ loops w' = [PDone].
Proof.
  intros Hg. pose proof (good_inv _ Hg) as HI.
  destruct (loops_shape _ HI) as [Hnil | Hl].
  - pose proof (inv_loops _ HI) as Hlen. rewrite Hnil in Hlen.
    pose proof (inv_lock _ HI) as Hlock. unfold cur in Hlock.
    rewrite Hnil in Hlock. simpl in Hlock, Hlen.
    destruct (started (mux w)) eqn:Hst; [done|].
    assert (exists w1, perform EvStart w = Returns w1 /\ loops w1 = [PRecv])
      as (w1 & Hs & Hl1).
    { simpl. unfold Start. rewrite Hlock, Hst.
      eexists. split; [done|]. simpl. by rewrite Hnil. }
    destruct (finish_recv w1) as (es & w' & Hle & Hl'); [|done|].
    { by eapply good_perform. }
    exists (EvStart :: es), w'. split; [|done].
    eapply leads_step; eauto; [apply Hg|done].
  - destruct (cur w) as [|x|x t|x o t s| |t| |] eqn:Hcur.
    + by apply finish_recv.
    + pose proof (inv_lock _ HI) as Hlock. rewrite Hcur in Hlock.
      simpl in Hlock.
      assert (exists w1, loop_step 0 (PSnap x) w = Returns w1 /\
                         loops w1 = [PWrite x (outputs (mux w))])
        as (w1 & Hs & Hl1).
      { simpl. rewrite Hlock.
        eexists. split; [done|]. simpl. by rewrite Hl. }
      destruct (finish_write w1 x (outputs (mux w)))
        as (es & w' & Hle & Hl'); [|done|].
      { by eapply loop_good. }
      exists (EvLoop 0%nat :: es), w'. split; [|done]. by eapply loop_leads.
    + by eapply finish_write.
    + destruct (write_one w _ x o t Hg Hl) as (es1 & w1 & Hle1 & Hl1 & _).
      { right. eauto. }
      destruct (finish_write w1 x t) as (es & w' & Hle & Hl'); [|done|].
      { by eapply leads_good. }
      exists (es1 ++ es), w'. split; [|done]. by eapply leads_trans.
    + by apply finish_shutdown.
    + by eapply finish_close.
    + by apply finish_unlock.
    + exists [], w. split; [|done]. apply leads_refl, Hg.
Qed.

(** *** What a run never undoes *)

Lemma perform_chans e w w' :
  perform e w = Returns w' ->
  chans w' = chans w \/
  (exists sl, chans w' = chans w ++ [sl]) \/
  (exists h sl ch, chans w !! h = Some sl /\
                   chans w' = <[h := set_ch sl ch]> (chans w)).
Proof. destruct e; crush_perform; eauto 10. Qed.

Lemma perform_slot e w w' h sl :
  perform e w = Returns w' -> chans w !! h = Some sl ->
  exists sl', chans w' !! h = Some sl' /\
              sl_late sl' = sl_late sl /\ sl_born sl' = sl_born sl.
Proof.
  intros Hp Hh.
  destruct (perform_chans _ _ _ Hp)
    as [-> | [(sl0 & ->) | (h0 & sl0 & ch & Hh0 & ->)]].
  - eauto.
  - exists sl. split; [|done]. apply lookup_app_l_Some. done.
  - destruct (decide (h = h0)) as [->|Hne].
    + exists (set_ch sl0 ch). rewrite list_lookup_insert_eq
        by (by eapply lookup_lt_Some). by simplify_eq.
    + exists sl. by rewrite list_lookup_insert_ne.
Qed.

Lemma run_slot es : forall w w' h sl,
  run w es = Some w' -> chans w !! h = Some sl ->
  exists sl', chans w' !! h = Some sl' /\
              sl_late sl' = sl_late sl /\ sl_born sl' = sl_born sl.
Proof.
  induction es as [|e es IH]; simpl; intros w w' h sl.
  - intros [= <-]. eauto.
  - unfold step. destruct (crashed w); [done|].
    destruct (perform e w) as [w1| |p] eqn:Hp; [|done|].
    + intros Hr Hh.
      destruct (perform_slot _ _ _ _ _ Hp Hh) as (sl1 & Hh1 & Hl1 & Hb1).
      destruct (IH _ _ _ _ Hr Hh1) as (sl' & Hh' & Hl' & Hb').
      exists sl'. split; [done|]. split; congruence.
    + intros Hr Hh. by apply (IH _ _ _ _ Hr).
Qed.

Lemma perform_returned e w w' :
  perform e w = Returns w' -> returned w `prefix_of` returned w'.
Proof.
  destruct e; crush_perform; try done; by apply prefix_app_r.
Qed.

Lemma run_returned es : forall w w',
  run w es = Some w' -> returned w `prefix_of` returned w'.
Proof.
  induction es as [|e es IH]; simpl; intros w w'.
  - by intros [= <-].
  - unfold step. destruct (crashed w); [done|].
    destruct (perform e w) as [w1| |p] eqn:Hp; [|done|]; intros Hr.
    + etrans; [by eapply perform_returned | by apply IH].
    + by apply (IH _ _ Hr).
Qed.

Lemma run_crashed es w w' p :
  crashed w = Some p -> run w es = Some w' -> w' = w.
Proof.
  intros Hc. destruct es as [|e es]; simpl; [by intros [= <-]|].
  unfold step. by rewrite Hc.
Qed.

Lemma leads_frame es : forall w w',
  leads w es w' ->
  ch_sent (src (mux w')) = ch_sent (src (mux w)) /\
  outputs (mux w') = outputs (mux w) /\
  length (chans w') = length (chans w) /\
  nwait w' = nwait w.
Proof.
  induction es as [|e es IH]; intros w w' (Hq & Hr & Ha); simpl in Hr.
  - by simplify_eq.
  - apply Forall_cons in Hq as [Hq Hqs]. unfold step in Hr.
    destruct (crashed w); [done|].
    destruct (perform e w) as [w1| |p] eqn:Hp; [|done|].
    + destruct (perform_quiet _ _ _ Hq Hp) as (H1 & H2 & H3 & H4).
      destruct (IH w1 w') as (H1' & H2' & H3' & H4'); [done|].
      repeat split; congruence.
    + apply (run_crashed _ _ _ p) in Hr; [|done]. by subst w'.
Qed.

(** *** The goroutine never panics *)

Lemma blockingOutputWriter_no_panic w o p :
  Inv w -> o ∈ pending (cur w) ->
  closed_spec (cur w) (dst o) =
    (fun sl => sl_late sl = false /\ ch_closed (sl_ch sl) = false) ->
  forall x, blockingOutputWriter o x w <> Panics p.
Proof.
  intros HI Ho Hspec x. unfold blockingOutputWriter.
  destruct (chans w !! dst o) as [sl|] eqn:Hsl; [|done].
  destruct (inv_slots _ HI _ _ Hsl) as [_ Hcl _ _].
  rewrite Hspec in Hcl. destruct Hcl as [_ Hopen].
  unfold chan_send. rewrite Hopen.
  destruct (ch_recvq (sl_ch sl)); [|done]. by destruct (_ <? _).
Qed.

Lemma loop_step_no_panic w p q :
  Inv w -> loops w = [p] -> loop_step 0 p w <> Panics q.
Proof.
  intros HI Hl. pose proof (cur_single _ _ Hl) as Hcur.
  destruct p as [|x|x [|o t]|x o t s| |[|o t]| |]; simpl; try done.
  - by destruct (chan_recv (src (mux w))).
  - by destruct (lock (mux w)).
  - assert (forall y, blockingOutputWriter o y w <> Panics q) as Hb.
    { apply blockingOutputWriter_no_panic; rewrite ?Hcur; [done|by left|done]. }
    specialize (Hb x). unfold call_writer, nonBlockingOutputWriter.
    destruct (writer (mux w)); [| |done];
      by destruct (blockingOutputWriter o x w).
  - assert (forall y, blockingOutputWriter o y w <> Panics q) as Hb.
    { apply blockingOutputWriter_no_panic; rewrite ?Hcur; [done|by left|done]. }
    specialize (Hb x). unfold timeout_select_send.
    by destruct (blockingOutputWriter o x w).
  - by destruct (lock (mux w)).
  - unfold chan_send. rewrite (inv_fin_open _ HI).
    destruct (ch_recvq (Finished (mux w))); [|done]. by destruct (_ <? _).
  - assert (o ∈ pending (cur w)) as Ho by (rewrite Hcur; by left).
    destruct (chans w !! dst o) as [sl|] eqn:Hsl.
    + destruct (inv_slots _ HI _ _ Hsl) as [_ Hcl _ _].
      rewrite Hcur in Hcl. destruct Hcl as [_ [_ Hopen]].
      unfold chan_close. rewrite Hopen; [done|]. rewrite fmap_cons. by left.
    + apply lookup_ge_None in Hsl.
      pose proof (pending_handle_lt _ _ HI Ho). lia.
Qed.

Lemma perform_panic e w p :
  Inv w -> perform e w = Panics p ->
  p = PanicMakeChan /\
  exists nm buf, e = EvAddOutput nm buf /\ (buf < 0 \/ max_chan_size < buf).
Proof.
  intros HI. destruct e as [x| |nm buf| | |c|i|i|i]; simpl.
  - unfold push. by destruct (ch_closed _).
  - unfold close_src. by destruct (chan_close _).
  - destruct (make_chan_cases (A:=RequestResponsePair) buf)
      as [[Hb Hm] | [Hb Hm]]; unfold AddOutput; rewrite Hm.
    + by destruct (lock (mux w)).
    + intros [= <-]. eauto.
  - unfold Start. by destruct (lock (mux w)), (started (mux w)).
  - done.
  - unfold consume. by destruct (chans w !! c).
  - destruct (loops w !! i) as [q|] eqn:Hi; [|done].
    destruct (loops_single _ _ _ HI Hi) as (-> & Hl & _).
    intros Hp. by apply loop_step_no_panic in Hp.
  - destruct (loops w !! i) as [[]|]; simpl; try done.
    unfold timeout_select_kill. by destruct (_ <=? _).
  - destruct (loops w !! i) as [[]|]; simpl; try done.
    by destruct (_ <? _).
Qed.

Lemma run_crashed_make es : forall w w',
  Inv w -> crashed w = None -> run w es = Some w' ->
  crashed w' = None \/ crashed w' = Some PanicMakeChan.
Proof.
  induction es as [|e es IH]; simpl; intros w w' HI Ha.
  - intros [= <-]. by left.
  - unfold step. rewrite Ha.
    destruct (perform e w) as [w1| |p] eqn:Hp; [|done|]; intros Hr.
    + apply (IH w1); [by eapply Inv_perform| |done].
      destruct (perform_frame _ _ _ Hp) as (-> & _). done.
    + destruct (perform_panic _ _ _ HI Hp) as (-> & _).
      apply (run_crashed _ _ _ PanicMakeChan) in Hr; [|done].
      subst w'. by right.
Qed.

(** The only panic of a program is the one of [make] in AddOutput. *)
Lemma reachable_crashed w :
  reachable w -> crashed w = None \/ crashed w = Some PanicMakeChan.
Proof.
  intros (m & Hm & es & Hr).
  eapply run_crashed_make; [by apply Inv_boot|done|done].
Qed.

(** ** The claims *)

(** *** C1: WaitUntilFinished *)

Lemma returned_le_one w : Inv w -> (length (returned w) <= 1)%nat.
Proof.
  intros HI. rewrite (inv_returned _ HI).
  destruct (inv_fin_wf _ HI) as (Hs & _).
  pose proof (inv_fin_sent _ HI) as Hsent. rewrite Hs in Hsent.
  apply (f_equal length) in Hsent. rewrite length_app in Hsent.
  destruct (signalled (cur w)); simpl in Hsent; lia.
Qed.

(** C1, as stated, fails: with two callers parked on [Finished] and the
    completion signal sent, caller 0 returns and caller 1 never does,
    whatever happens afterwards. *)
Lemma C1_counterexample :
  run (boot (NewBlockingPairMux (new_chan 0))) two_waiters
    = Some after_two_waiters /\
  ch_sent (Finished (mux after_two_waiters)) = [true] /\
  nwait after_two_waiters = 2%nat /\
  returned after_two_waiters = [0%nat] /\
  forall es w', run after_two_waiters es = Some w' -> 1%nat ∉ returned w'.
Proof.
  split; [reflexivity|]. repeat split.
  intros es w' Hrun.
  assert (reachable w') as Hreach.
  { exists (NewBlockingPairMux (new_chan 0)). split; [left; by exists 0|].
    exists (two_waiters ++ es). rewrite run_app.
    change (run (boot (NewBlockingPairMux (new_chan 0))) two_waiters)
      with (Some after_two_waiters). exact Hrun. }
  pose proof (returned_le_one _ (reachable_Inv _ Hreach)) as Hle.
  destruct (run_returned _ _ _ Hrun) as [k Hk]. simpl in Hk.
  rewrite Hk in *. destruct k; simpl in Hle; [|lia].
  by intros [=]%list_elem_of_singleton.
Qed.

(** C1, amended: [Finished] hands its one value to one caller.  Nobody
    returns before the signal is sent; once it is sent, exactly one of the
    callers so far has returned, if there is any, whether it called before
    or after Start, and every other caller is parked on the channel. *)
Theorem C1_single_handoff w :
  reachable w ->
  (returned w <> [] -> ch_sent (Finished (mux w)) = [true]) /\
  (ch_sent (Finished (mux w)) = [true] -> (0 < nwait w)%nat ->
   length (returned w) = 1%nat) /\
  (length (returned w) <= 1)%nat /\
  nwait w = (length (returned w)
             + length (ch_recvq (Finished (mux w))))%nat.
Proof.
  intros HI%reachable_Inv.
  pose proof (inv_fin_sent _ HI) as Hsent.
  pose proof (inv_returned _ HI) as Hret.
  pose proof (inv_nwait _ HI) as Hn.
  destruct (inv_fin_wf _ HI) as (Hs & _ & _ & Hq & _).
  repeat split; [| |by apply returned_le_one|done].
  - intros Hne. destruct (signalled (cur w)); [done|].
    rewrite Hs in Hsent. apply app_eq_nil in Hsent as [Hg _].
    rewrite Hg in Hret. by apply nil_length_inv in Hret.
  - intros Hfired Hcalled. rewrite Hs in Hfired.
    destruct Hq as [Hq | Hq].
    + rewrite Hq in Hn. simpl in Hn.
      destruct (ch_got (Finished (mux w))) as [|v g]; simpl in *; [lia|].
      injection Hfired as _ Hrest. apply app_eq_nil in Hrest as [-> _].
      done.
    + rewrite Hq, app_nil_r in Hfired. by rewrite Hret, Hfired.
Qed.

Lemma C1_single_handoff_witness :
  reachable after_two_waiters /\
  length (returned after_two_waiters) = 1%nat.
Proof.
  assert (reachable after_two_waiters) as Hr.
  { exists (NewBlockingPairMux (new_chan 0)). split; [left; by exists 0|].
    exists two_waiters. reflexivity. }
  split; [exact Hr|].
  destruct (C1_single_handoff after_two_waiters Hr) as (_ & H & _).
  apply H; [reflexivity | simpl; lia].
Defined.

(** *** C2: closing the outputs *)

Lemma reachable_after_three_items : reachable after_three_items.
Proof.
  exists (NewBlockingPairMux (new_chan 0)). split; [left; by exists 0|].
  exists three_items. reflexivity.
Defined.

Lemma late_slot_open w h sl :
  Inv w -> chans w !! h = Some sl -> sl_late sl = true ->
  cur w = PDone /\ ch_closed (sl_ch sl) = false /\
  ch_closes (sl_ch sl) = 0%nat /\ ch_sent (sl_ch sl) = [].
Proof.
  intros HI Hh Hlate. destruct (inv_slots _ HI _ _ Hh) as [Hwf Hcl Hla _].
  destruct Hwf as (_ & Hcloses & _). destruct (Hla Hlate) as [Hsent _].
  destruct (cur w); simpl in Hcl; try (destruct Hcl; congruence).
  rewrite Hlate in Hcl. simpl in Hcl. rewrite Hcl in Hcloses. done.
Qed.

Lemma done_slot_closed w h sl :
  Inv w -> chans w !! h = Some sl -> cur w = PDone -> sl_late sl = false ->
  ch_closed (sl_ch sl) = true /\ ch_closes (sl_ch sl) = 1%nat.
Proof.
  intros HI Hh Hcur Hlate.
  destruct (inv_slots _ HI _ _ Hh) as [(_ & Hc & _) Hcs _ _].
  rewrite Hcur in Hcs. simpl in Hcs. rewrite Hlate in Hcs. simpl in Hcs.
  by rewrite Hc, Hcs.
Qed.

(** Every output registered before the goroutine finished can be brought
    to its closed channel. *)
Lemma finish_closed w h sl :
  reachable w -> crashed w = None ->
  chans w !! h = Some sl -> sl_late sl = false ->
  exists es w' sl',
    leads w es w' /\ Inv w' /\ loops w' = [PDone] /\
    chans w' !! h = Some sl' /\ sl_born sl' = sl_born sl /\
    ch_closed (sl_ch sl') = true /\ ch_closes (sl_ch sl') = 1%nat.
Proof.
  intros Hreach Ha Hh Hlate. pose proof (reachable_Inv _ Hreach) as HI.
  destruct (finish w) as (es & w' & Hle & Hl').
  { split; [done|by apply reachable_caps_ok|done]. }
  pose proof Hle as (Hq & Hrun & Ha').
  destruct (run_slot _ _ _ _ _ Hrun Hh) as (sl' & Hsl' & Hlate' & Hborn').
  assert (Inv w') as HI' by by eapply Inv_run.
  destruct (done_slot_closed w' h sl') as [Hc Hn]; auto;
    [by apply cur_single|congruence|].
  by exists es, w', sl'.
Qed.

(** C2, as stated, fails: the channel of an output registered after the
    goroutine has finished is never closed, whatever happens afterwards. *)
Lemma C2_counterexample :
  run (boot (NewBlockingPairMux (new_chan 0))) late_output
    = Some after_late_output /\
  outputs (mux after_late_output) = [Output "late" 0] /\
  forall es w' sl,
    run after_late_output es = Some w' -> chans w' !! 0%nat = Some sl ->
    ch_closed (sl_ch sl) = false /\ ch_closes (sl_ch sl) = 0%nat.
Proof.
  split; [reflexivity|]. split; [reflexivity|].
  intros es w' sl Hrun Hsl.
  assert (reachable w') as Hreach.
  { exists (NewBlockingPairMux (new_chan 0)). split; [left; by exists 0|].
    exists (late_output ++ es). rewrite run_app.
    change (run (boot (NewBlockingPairMux (new_chan 0))) late_output)
      with (Some after_late_output). exact Hrun. }
  destruct (run_slot es after_late_output w' 0%nat
              (Slot (new_chan 1) 1 true) Hrun eq_refl)
    as (sl' & Hsl' & Hlate & _).
  simplify_eq. simpl in Hlate.
  destruct (late_slot_open _ _ _ (reachable_Inv _ Hreach) Hsl Hlate)
    as (_ & ? & ? & _).
  done.
Qed.

(** C2, amended: a destination queue is closed at most once, and only by
    shutdown, under the lock, after the source is closed and drained; when
    the goroutine has finished, every output registered before that has
    been closed exactly once; an output registered after that is never
    sent an item and is never closed.  From any world that has not
    panicked the goroutine can be run to that end. *)
Theorem C2_closed_once w h sl :
  reachable w -> chans w !! h = Some sl ->
  ch_closes (sl_ch sl) = (if ch_closed (sl_ch sl) then 1 else 0)%nat /\
  (ch_closed (sl_ch sl) = true ->
   sl_late sl = false /\
   (exists p, loops w = [p] /\ (holds_lock p = true \/ p = PDone)) /\
   ch_closed (src (mux w)) = true /\ ch_buf (src (mux w)) = []) /\
  (loops w = [PDone] -> sl_late sl = false ->
   ch_closed (sl_ch sl) = true /\ ch_closes (sl_ch sl) = 1%nat) /\
  (sl_late sl = true ->
   ch_sent (sl_ch sl) = [] /\ ch_closed (sl_ch sl) = false /\
   ch_closes (sl_ch sl) = 0%nat) /\
  (crashed w = None -> sl_late sl = false ->
   exists es w' sl',
     Forall quiet es /\ run w es = Some w' /\ loops w' = [PDone] /\
     chans w' !! h = Some sl' /\ ch_closes (sl_ch sl') = 1%nat).
Proof.
  intros Hreach Hh. pose proof (reachable_Inv _ Hreach) as HI.
  destruct (inv_slots _ HI _ _ Hh) as [Hwf Hcl Hla _].
  pose proof Hwf as (_ & Hcloses & _).
  split; [done|]. split; [|split; [|split]].
  - intros Hclosed. pose proof (inv_src_end _ HI) as Hsrc.
    assert (sl_late sl = false /\ shutting (cur w) = true /\
            (holds_lock (cur w) = true \/ cur w = PDone))
      as (Hnl & Hsh & Hstage).
    { destruct (cur w); simpl in *; try (destruct Hcl; congruence).
      - destruct Hcl. auto.
      - destruct Hcl. auto.
      - destruct (sl_late sl); simpl in *; [congruence|auto]. }
    destruct (Hsrc Hsh) as (? & ? & _). repeat split; auto.
    exists (cur w). split; [|done].
    destruct (loops_shape _ HI) as [Hnil | Hl]; [|done].
    unfold cur in Hsh. by rewrite Hnil in Hsh.
  - intros Hl Hlate. eapply done_slot_closed; eauto. by apply cur_single.
  - intros Hlate.
    destruct (late_slot_open _ _ _ HI Hh Hlate) as (_ & ? & ? & ?). done.
  - intros Ha Hlate.
    destruct (finish_closed w h sl Hreach Ha Hh Hlate)
      as (es & w' & sl' & (Hq & Hrun & _) & _ & Hcur & Hsl' & _ & _ & Hn).
    by exists es, w', sl'.
Qed.

Lemma C2_closed_once_witness :
  exists sl,
    chans after_three_items !! 1%nat = Some sl /\
    ch_closed (sl_ch sl) = true /\ ch_closes (sl_ch sl) = 1%nat.
Proof.
  eexists. split; [reflexivity|].
  eapply (C2_closed_once after_three_items 1%nat).
  - exact reachable_after_three_items.
  - reflexivity.
  - reflexivity.
  - reflexivity.
Defined.

(** *** C3: delivery under the blocking writer *)

Lemma run_writer es : forall w w',
  run w es = Some w' -> writer (mux w') = writer (mux w).
Proof.
  induction es as [|e es IH]; simpl; intros w w'.
  - by intros [= <-].
  - unfold step. destruct (crashed w); [done|].
    destruct (perform e w) as [w1| |p] eqn:Hp; [|done|]; intros Hr.
    + destruct (perform_frame _ _ _ Hp) as (_ & <- & _). by apply IH.
    + by rewrite (IH _ _ Hr).
Qed.

Lemma reachable_from_blocking cap w :
  reachable_from (NewBlockingPairMux (new_chan cap)) w ->
  reachable w /\ writer (mux w) = WriterBlocking.
Proof.
  intros [es Hr]. split.
  - exists (NewBlockingPairMux (new_chan cap)). split; [left; eauto|].
    by exists es.
  - by rewrite (run_writer _ _ _ Hr).
Qed.

(** C3: under the blocking writer, an output registered before the
    goroutine's first receive on the source has been sent the items read
    from the source, in that order, all of them but possibly the one in
    flight; once its channel is closed it has been sent exactly the items
    pushed to the source, and a consumer that sees the end of stream has
    received exactly those; and from any world that has not panicked the
    source can be closed and the goroutine and the consumers run on so that
    the channel ends closed with exactly the items pushed so far. *)
Theorem C3_blocking_delivery cap w h sl :
  reachable_from (NewBlockingPairMux (new_chan cap)) w ->
  chans w !! h = Some sl -> sl_born sl = 0%nat ->
  (ch_sent (sl_ch sl) = ch_got (src (mux w)) \/
   exists x, in_flight (cur w) = Some x /\
             ch_got (src (mux w)) = ch_sent (sl_ch sl) ++ [x]) /\
  ch_got (src (mux w)) `prefix_of` ch_sent (src (mux w)) /\
  ch_got (sl_ch sl) `prefix_of` ch_sent (sl_ch sl) /\
  (ch_closed (sl_ch sl) = true ->
   ch_closed (src (mux w)) = true /\
   ch_sent (sl_ch sl) = ch_sent (src (mux w))) /\
  ((0 < ch_eos (sl_ch sl))%nat ->
   ch_closed (sl_ch sl) = true /\
   ch_got (sl_ch sl) = ch_sent (src (mux w))) /\
  (crashed w = None ->
   exists es w' sl',
     Forall quiet es /\ run w es = Some w' /\
     chans w' !! h = Some sl' /\ ch_closed (sl_ch sl') = true /\
     ch_sent (sl_ch sl') = ch_sent (src (mux w))).
Proof.
  intros [Hreach Hwr]%reachable_from_blocking Hh Hborn.
  pose proof (reachable_Inv _ Hreach) as HI.
  assert (forall v s, Inv v -> writer (mux v) = WriterBlocking ->
            chans v !! h = Some s -> sl_born s = 0%nat ->
            ch_closed (sl_ch s) = true ->
            ch_closed (src (mux v)) = true /\
            ch_sent (sl_ch s) = ch_sent (src (mux v))) as Hclosed.
  { intros v s HIv Hwv Hs Hb Hc.
    destruct (inv_slots _ HIv _ _ Hs) as [_ Hcl _ (tg & _ & Heq & Hcase)].
    pose proof (inv_src_end _ HIv) as Hend.
    destruct (inv_src_wf _ HIv) as (Hsrc & _).
    rewrite (Heq Hwv Hb).
    destruct (cur v); simpl in *; try (destruct Hcl; congruence);
      destruct Hend as (Hsc & Hsb & _); auto;
      destruct Hcase as [([] & _) | (_ & ->)];
      by rewrite Hsrc, Hsb, app_nil_r. }
  destruct (inv_slots _ HI _ _ Hh) as [Hwf Hcl Hla (tg & _ & Heq & Hcase)].
  pose proof Hwf as (Hsent & _ & Heos & _ & Hbuf).
  split; [|split; [|split; [|split; [|split]]]].
  - rewrite (Heq Hwr Hborn).
    destruct Hcase as [(_ & x & Hx & Hr) | (_ & ->)]; [right; eauto|by left].
  - destruct (inv_src_wf _ HI) as (-> & _). by apply prefix_app_r.
  - rewrite Hsent. by apply prefix_app_r.
  - by apply Hclosed.
  - intros Hpos. assert (ch_closed (sl_ch sl) = true) as Hc.
    { destruct (ch_closed (sl_ch sl)); [done|]. rewrite Heos in Hpos; lia. }
    split; [done|]. destruct (Hclosed w sl) as [_ <-]; auto.
    by rewrite Hsent, (Hbuf Hpos), app_nil_r.
  - intros Ha.
    assert (sl_late sl = false) as Hlate.
    { destruct (sl_late sl); [|done]. destruct Hla as [_ ?]; [done|lia]. }
    destruct (finish_closed w h sl Hreach Ha Hh Hlate)
      as (es & w' & sl' & Hle & HI' & Hcur & Hsl' & Hborn' & Hc & _).
    pose proof Hle as (Hq & Hrun & _).
    destruct (leads_frame _ _ _ Hle) as (Hsrc & _).
    exists es, w', sl'. repeat split; auto.
    destruct (Hclosed w' sl') as [_ ->]; auto; [|congruence].
    by rewrite (run_writer _ _ _ Hrun).
Qed.

Lemma C3_blocking_delivery_witness :
  exists sl,
    chans after_three_items !! 0%nat = Some sl /\
    ch_closed (sl_ch sl) = true /\
    ch_sent (sl_ch sl) = [1; 2; 3]%nat.
Proof.
  eexists. split; [reflexivity|].
  destruct (C3_blocking_delivery 0 after_three_items 0%nat
              (Slot (Chan 10 [1; 2; 3]%nat true [] [1; 2; 3]%nat [] 0 1) 0
                    false))
    as (_ & _ & _ & H & _).
  - exists three_items. reflexivity.
  - reflexivity.
  - reflexivity.
  - split; [reflexivity|]. by destruct H.
Defined.

(** *** C4: Start *)

Lemma sent_sublist_read w h sl :
  Inv w -> chans w !! h = Some sl ->
  ch_sent (sl_ch sl) `sublist_of` ch_got (src (mux w)).
Proof.
  intros HI Hh.
  destruct (inv_slots _ HI _ _ Hh) as [_ _ _ (tg & Hsub & _ & Hcase)].
  destruct Hcase as [(_ & x & _ & ->) | (_ & <-)]; [|done].
  by apply sublist_inserts_r.
Qed.



(** *** C5: the completion signal *)

Lemma perform_signal e w w' :
  perform e w = Returns w' ->
  ch_sent (Finished (mux w')) <> ch_sent (Finished (mux w)) ->
  exists i, e = EvLoop i /\ loops w !! i = Some (PShutClose []).
Proof.
  destruct e; crush_perform; try done; unfold chan_recv in *;
    repeat case_match; simplify_eq; try done; eauto.
Qed.

Lemma step_signal w e w' :
  Inv w -> step w e = Some w' ->
  ch_sent (Finished (mux w')) <> ch_sent (Finished (mux w)) ->
  cur w = PShutClose [] /\
  ch_sent (Finished (mux w)) = [] /\ ch_sent (Finished (mux w')) = [true].
Proof.
  intros HI Hs Hne. pose proof (Inv_step _ _ _ HI Hs) as HI'.
  unfold step in Hs. destruct (crashed w); [done|].
  destruct (perform e w) as [w1| |p] eqn:Hp; [|done|by simplify_eq].
  injection Hs as ->.
  destruct (perform_signal _ _ _ Hp Hne) as (i & -> & Hi).
  destruct (loops_single _ _ _ HI Hi) as (_ & _ & Hcur & _).
  split; [done|].
  pose proof (inv_fin_sent _ HI) as H1. pose proof (inv_fin_sent _ HI') as H2.
  rewrite Hcur in H1. simpl in H1. rewrite H1 in *.
  by destruct (signalled (cur w')).
Qed.

(** C5: at most one value is ever sent on [Finished]; it has been sent
    exactly when the goroutine is past its send, so once the goroutine has
    finished; and at the step that sends it every registered output's
    channel is already closed, closed once. *)
Theorem C5_signal_once w :
  reachable w ->
  (length (ch_sent (Finished (mux w))) <= 1)%nat /\
  ch_sent (Finished (mux w)) = (if signalled (cur w) then [true] else []) /\
  (forall e w',
     step w e = Some w' ->
     ch_sent (Finished (mux w')) <> ch_sent (Finished (mux w)) ->
     ch_sent (Finished (mux w)) = [] /\
     ch_sent (Finished (mux w')) = [true] /\
     forall o, o ∈ outputs (mux w) ->
       exists sl, chans w !! dst o = Some sl /\
                  ch_closed (sl_ch sl) = true /\
                  ch_closes (sl_ch sl) = 1%nat) /\
  (crashed w = None ->
   exists es w',
     Forall quiet es /\ run w es = Some w' /\ loops w' = [PDone] /\
     ch_sent (Finished (mux w')) = [true]).
Proof.
  intros Hreach. pose proof (reachable_Inv _ Hreach) as HI.
  pose proof (inv_fin_sent _ HI) as Hsent.
  split; [|split; [done|split]].
  - rewrite Hsent. destruct (signalled (cur w)); simpl; lia.
  - intros e w' Hs Hne.
    destruct (step_signal _ _ _ HI Hs Hne) as (Hcur & H1 & H2).
    split; [done|]. split; [done|]. intros o Ho.
    assert (dst o < length (chans w))%nat as Hlt.
    { assert (dst o ∈ dst <$> outputs (mux w)) as Hd
        by (apply list_elem_of_fmap; eauto).
      rewrite (inv_handles _ HI) in Hd. apply elem_of_seq in Hd. lia. }
    destruct (lookup_lt_is_Some_2 _ _ Hlt) as [sl Hsl]. exists sl.
    split; [done|].
    destruct (inv_slots _ HI _ _ Hsl) as [(_ & Hc & _) Hcl _ _].
    rewrite Hcur in Hcl. destruct Hcl as [_ Hcl].
    destruct (ch_closed (sl_ch sl)); [done|].
    destruct Hcl as [Hcl _]. specialize (Hcl eq_refl).
    by apply elem_of_nil in Hcl.
  - intros Ha. destruct (finish w) as (es & w' & (Hq & Hrun & _) & Hl').
    { split; [done|by apply reachable_caps_ok|done]. }
    exists es, w'. split; [done|]. split; [done|].
    pose proof (cur_single _ _ Hl') as Hcur. split; [done|].
    rewrite (inv_fin_sent w'); [by rewrite Hcur|by eapply Inv_run].
Qed.

Lemma C5_signal_once_witness :
  ch_sent (Finished (mux before_signal)) = [] /\
  (forall o, o ∈ outputs (mux before_signal) ->
     exists sl, chans before_signal !! dst o = Some sl /\
                ch_closed (sl_ch sl) = true /\
                ch_closes (sl_ch sl) = 1%nat).
Proof.
  assert (reachable before_signal) as Hr.
  { exists (NewBlockingPairMux (new_chan 0)). split; [left; by exists 0|].
    exists (take 26 three_items). reflexivity. }
  destruct (C5_signal_once before_signal Hr) as (_ & _ & H & _).
  edestruct (H (EvLoop 0%nat)) as (H1 & _ & H3);
    [reflexivity | simpl; discriminate | ].
  split; [exact H1 | exact H3].
Defined.

(** *** C6: the non-blocking writer and a full channel *)

Lemma full_send_blocks {A} (ch : chan A) x :
  full ch -> chan_send ch x = SendBlocks.
Proof.
  intros (Hc & Hq & Hcap). unfold chan_send. rewrite Hc, Hq.
  by destruct (Z.ltb_spec (Z.of_nat (length (ch_buf ch))) (ch_cap ch));
    [lia|].
Qed.

Lemma full_blockingOutputWriter o x w sl :
  chans w !! dst o = Some sl -> full (sl_ch sl) ->
  blockingOutputWriter o x w = Waits.
Proof.
  intros Hsl Hfull. unfold blockingOutputWriter.
  by rewrite Hsl, (full_send_blocks _ x Hfull).
Qed.

Lemma reachable_from_nonblocking cap d w :
  reachable_from (NewNonBlockingPairMux (new_chan cap) d) w ->
  reachable w /\
  writer (mux w) =
    (if negb (d =? 0) then WriterTimeout d else WriterNonBlocking).
Proof.
  intros [es Hr]. split.
  - exists (NewNonBlockingPairMux (new_chan cap) d). split; [right; eauto|].
    by exists es.
  - by rewrite (run_writer _ _ _ Hr).
Qed.

(** C6: in a mux made with timeout zero, a write to an output whose
    channel is full is one step of the goroutine that always goes through;
    it leaves every channel as it was, takes the goroutine to the next
    output of the range, which is never this output again, and after the
    last output to the receive of the next item. *)
Theorem C6_nonblocking_drop cap w i x o t sl :
  reachable_from (NewNonBlockingPairMux (new_chan cap) 0) w ->
  crashed w = None ->
  loops w !! i = Some (PWrite x (o :: t)) ->
  chans w !! dst o = Some sl -> full (sl_ch sl) ->
  step w (EvLoop i) = Some (goto i (PWrite x t) w) /\
  chans (goto i (PWrite x t) w) = chans w /\
  (dst o ∉ dst <$> t) /\
  (t = [] ->
   exists w', step (goto i (PWrite x t) w) (EvLoop i) = Some w' /\
              loops w' !! i = Some PRecv /\ chans w' = chans w).
Proof.
  intros [Hreach Hwr]%reachable_from_nonblocking Ha Hi Hsl Hfull.
  simpl in Hwr. pose proof (reachable_Inv _ Hreach) as HI.
  destruct (loops_single _ _ _ HI Hi) as (-> & Hl & Hcur & _).
  split; [|split; [done|split]].
  - unfold step. rewrite Ha. simpl. rewrite Hl. simpl.
    unfold call_writer, nonBlockingOutputWriter. rewrite Hwr.
    by rewrite (full_blockingOutputWriter o x w sl).
  - pose proof (inv_pending_nodup _ HI) as Hnd. rewrite Hcur in Hnd.
    simpl in Hnd. by apply NoDup_cons in Hnd as [? _].
  - intros ->. eexists. split; [|split].
    + unfold step. simpl. rewrite Ha, Hl. simpl. reflexivity.
    + simpl. by rewrite Hl.
    + done.
Qed.

Lemma C6_nonblocking_drop_witness :
  step at_unread_output (EvLoop 0) =
  Some (goto 0 (PWrite 1%nat []) at_unread_output).
Proof.
  eapply (C6_nonblocking_drop 0 at_unread_output 0%nat 1%nat
            (Output "u" 0) [] (Slot (new_chan 0) 0 false)).
  - exists unread_output. reflexivity.
  - reflexivity.
  - reflexivity.
  - reflexivity.
  - repeat split; simpl; lia.
Defined.

(** *** C7: the timeout writer *)

Lemma goto_goto i p q w : goto i p (goto i q w) = goto i p w.
Proof. unfold goto. simpl. by rewrite list_insert_insert_eq. Qed.

Lemma ticks n : forall w i x o t s,
  crashed w = None -> loops w !! i = Some (PTimed x o t s) ->
  Z.of_nat n <= s ->
  run w (replicate n (EvTick i)) =
  Some (match n with
        | O => w
        | S _ => goto i (PTimed x o t (s - Z.of_nat n)) w
        end).
Proof.
  induction n as [|n IH]; intros w i x o t s Ha Hi Hn; [done|].
  simpl replicate. simpl run. unfold step. rewrite Ha. simpl. rewrite Hi.
  simpl. destruct (Z.ltb_spec 0 s); [|lia].
  rewrite (IH _ i x o t (s - 1)); [|done| |lia].
  - destruct n; [do 3 f_equal; lia|]. rewrite goto_goto.
    do 3 f_equal. lia.
  - simpl. apply list_lookup_insert_eq. by eapply lookup_lt_Some.
Qed.

Lemma ticks_bounded n : forall w i x o t s,
  loops w !! i = Some (PTimed x o t s) ->
  is_Some (run w (replicate n (EvTick i))) -> Z.of_nat n <= Z.max 0 s.
Proof.
  induction n as [|n IH]; intros w i x o t s Hi; [lia|].
  simpl. unfold step. destruct (crashed w); [by intros [? [=]]|].
  simpl. rewrite Hi. simpl. destruct (Z.ltb_spec 0 s); [|by intros [? [=]]].
  intros Hrun. apply (IH _ i x o t (s - 1)) in Hrun; [lia|].
  simpl. apply list_lookup_insert_eq. by eapply lookup_lt_Some.
Qed.

(** C7: in a mux made with timeout [D], a write standing at its select
    with [s] units of sleep left on its timer has [s <= D]; the timer can
    tick at most [s] times, and when it cannot tick the [kill] case is
    ready; so after the [s] ticks the write is abandoned by one more step,
    which leaves every channel as it was and takes the goroutine to the
    next output, even when the destination is full all along, in which
    case the send case is never ready.  The destination is a channel that
    is there and open, and whenever it is not full, however much sleep is
    left, the send case is ready: it is one step of the goroutine, which
    sends the item on the destination, touches no other channel and takes
    the goroutine to the next output as well. *)
Theorem C7_timed_write_terminates cap D w i x o t s :
  D <> 0 ->
  reachable_from (NewNonBlockingPairMux (new_chan cap) D) w ->
  crashed w = None ->
  loops w !! i = Some (PTimed x o t s) ->
  s <= D /\
  (is_Some (step w (EvTick i)) \/ is_Some (step w (EvKill i))) /\
  (forall n, is_Some (run w (replicate n (EvTick i))) ->
             Z.of_nat n <= Z.max 0 s) /\
  run w (replicate (Z.to_nat s) (EvTick i) ++ [EvKill i]) =
    Some (goto i (PWrite x t) w) /\
  chans (goto i (PWrite x t) w) = chans w /\
  (forall sl, chans w !! dst o = Some sl -> full (sl_ch sl) ->
              step w (EvLoop i) = None) /\
  (exists sl, chans w !! dst o = Some sl /\ ch_closed (sl_ch sl) = false) /\
  (forall sl, chans w !! dst o = Some sl -> ~ full (sl_ch sl) ->
     exists w' sl',
       step w (EvLoop i) = Some w' /\
       loops w' !! i = Some (PWrite x t) /\
       chans w' !! dst o = Some sl' /\
       ch_sent (sl_ch sl') = ch_sent (sl_ch sl) ++ [x] /\
       forall h, h <> dst o -> chans w' !! h = chans w !! h).
Proof.
  intros HD [Hreach Hwr]%reachable_from_nonblocking Ha Hi.
  pose proof (reachable_Inv _ Hreach) as HI.
  destruct (Z.eqb_spec D 0) as [?|_]; [done|]. simpl in Hwr.
  destruct (loops_single _ _ _ HI Hi) as (-> & Hl & Hcur & _).
  destruct (inv_timed _ HI x o t s Hcur) as (d & Hd & Hs).
  rewrite Hwr in Hd. injection Hd as <-.
  assert (forall sl, chans w !! dst o = Some sl ->
            ch_closed (sl_ch sl) = false) as Hopen.
  { intros sl Hsl. destruct (inv_slots _ HI _ _ Hsl) as [_ Hcl _ _].
    rewrite Hcur in Hcl. by destruct Hcl. }
  split; [done|split; [|split; [|split; [|split; [|split; [|split]]]]]].
  - unfold step. rewrite Ha. simpl. rewrite Hl. simpl.
    unfold timeout_select_kill.
    destruct (Z.ltb_spec 0 s); [left; eauto|right].
    destruct (Z.leb_spec s 0); [simpl; eauto|lia].
  - intros n. by eapply ticks_bounded.
  - rewrite run_app.
    assert (forall v s', crashed v = None ->
              loops v = [PTimed x o t s'] -> s' <= 0 ->
              run v [EvKill 0%nat] = Some (goto 0 (PWrite x t) v)) as Hkill.
    { intros v s' Hv Hlv Hs'. simpl. unfold step. rewrite Hv. simpl.
      rewrite Hlv. simpl. unfold timeout_select_kill.
      by destruct (Z.leb_spec s' 0); [|lia]. }
    destruct (Z.to_nat s) as [|k] eqn:Hk.
    + simpl replicate. apply (Hkill w s); auto. lia.
    + rewrite (ticks (S k) w 0%nat x o t s); [|done|done|lia].
      rewrite (Hkill _ (s - Z.of_nat (S k))); [|done| |lia].
      * by rewrite goto_goto.
      * simpl. by rewrite Hl.
  - done.
  - intros sl Hsl Hfull. unfold step. rewrite Ha. simpl. rewrite Hl. simpl.
    unfold timeout_select_send.
    by rewrite (full_blockingOutputWriter o x w sl).
  - destruct (chans w !! dst o) as [sl|] eqn:Hsl; [by eauto|].
    apply lookup_ge_None in Hsl.
    assert (o ∈ pending (cur w)) as Ho by (rewrite Hcur; by left).
    pose proof (pending_handle_lt _ _ HI Ho). lia.
  - intros sl Hsl Hroom. pose proof (Hopen _ Hsl) as Hc.
    assert (exists ch, sent_chan (chan_send (sl_ch sl) x) = Some ch)
      as [ch Hch].
    { unfold chan_send. rewrite Hc.
      destruct (ch_recvq (sl_ch sl)) as [|r q] eqn:Hq; [|by eauto].
      destruct (Z.ltb_spec (Z.of_nat (length (ch_buf (sl_ch sl))))
                  (ch_cap (sl_ch sl))); [by eauto|].
      by destruct Hroom. }
    destruct (chan_send_inv _ _ _ Hch) as (_ & _ & Hsent & _).
    eexists _, (set_ch sl ch). split; [|split; [|split; [|split]]].
    + unfold step. rewrite Ha. simpl. rewrite Hl. simpl.
      unfold timeout_select_send.
      rewrite (blockingOutputWriter_ready o x w sl ch Hsl Hch). done.
    + simpl. rewrite Hl. done.
    + simpl. rewrite list_lookup_insert_eq; [done|].
      by eapply lookup_lt_Some.
    + done.
    + intros h Hne. simpl. by rewrite list_lookup_insert_ne.
Qed.

Lemma C7_timed_write_terminates_witness :
  run at_timed_select [EvTick 0; EvTick 0; EvTick 0; EvKill 0]%nat =
  Some (goto 0 (PWrite 1%nat []) at_timed_select).
Proof.
  eapply (C7_timed_write_terminates 0 3 at_timed_select 0%nat 1%nat
            (Output "u" 0) [] 3).
  - lia.
  - exists timed_unread_output. reflexivity.
  - reflexivity.
  - reflexivity.
Defined.

(** *** C8: a timeout of zero *)

(** C8: the writer held by a mux made with [NewNonBlockingPairMux src 0]
    is the non-blocking writer, it stays so in every world of such a mux,
    and what the goroutine's call of it does to any output and item is
    what [nonBlockingOutputWriter] does. *)
Theorem C8_zero_timeout_nonblocking cap w :
  reachable_from (NewNonBlockingPairMux (new_chan cap) 0) w ->
  writer (NewNonBlockingPairMux (new_chan cap) 0) = WriterNonBlocking /\
  writer (mux w) = WriterNonBlocking /\
  forall i x o t,
    call_writer (writer (mux w)) i x o t w =
    and_then (nonBlockingOutputWriter o x w) (goto i (PWrite x t)) /\
    loop_step i (PWrite x (o :: t)) w =
    and_then (nonBlockingOutputWriter o x w) (goto i (PWrite x t)).
Proof.
  intros [_ Hwr]%reachable_from_nonblocking. simpl in Hwr.
  split; [done|]. split; [done|]. intros i x o t. simpl.
  by rewrite Hwr.
Qed.

Lemma C8_zero_timeout_nonblocking_witness :
  loop_step 0 (PWrite 1%nat [Output "u" 0]) at_unread_output =
  and_then (nonBlockingOutputWriter (Output "u" 0) 1%nat at_unread_output)
           (goto 0 (PWrite 1%nat [])).
Proof.
  destruct (C8_zero_timeout_nonblocking 0 at_unread_output) as (_ & _ & H).
  - exists unread_output. reflexivity.
  - apply H.
Defined.

(** *** C9: the capacity given to AddOutput *)

Lemma finish_unlocked w :
  reachable w -> crashed w = None ->
  exists es w', Forall quiet es /\ run w es = Some w' /\
                reachable w' /\ crashed w' = None /\
                lock (mux w') = false.
Proof.
  intros Hreach Ha. pose proof (reachable_Inv _ Hreach) as HI.
  destruct (finish w) as (es & w' & (Hq & Hrun & Ha') & Hl').
  { split; [done|by apply reachable_caps_ok|done]. }
  exists es, w'. repeat split; auto.
  - destruct Hreach as (m & Hm & es0 & Hr). exists m. split; [done|].
    exists (es0 ++ es). by rewrite run_app, Hr.
  - rewrite (inv_lock w'); [|by eapply Inv_run].
    by rewrite (cur_single _ _ Hl').
Qed.

(** C9, as stated, fails: a size that is not negative can still be more
    than [make] accepts, and AddOutput then panics as it does on a
    negative size, here on a mux just made. *)
Lemma C9_counterexample :
  0 <= 2 ^ 62 /\
  reachable (boot (NewBlockingPairMux (new_chan 0))) /\
  crashed (boot (NewBlockingPairMux (new_chan 0))) = None /\
  lock (mux (boot (NewBlockingPairMux (new_chan 0)))) = false /\
  AddOutput "u" (2 ^ 62) (boot (NewBlockingPairMux (new_chan 0)))
  = Panics PanicMakeChan.
Proof.
  split; [lia|]. split; [|by vm_compute].
  exists (NewBlockingPairMux (new_chan 0)). split; [left; by exists 0|].
  by exists [].
Qed.

(** C9: with a negative [buf], and with a [buf] over the largest size
    [make] accepts, AddOutput panics in [make]; with any other [buf],
    the memory for the buffer being there, it
    never panics: it waits while shutdown holds the lock, which shutdown
    always gives back, and else returns a handle no registered output
    has, on a new, empty channel of capacity [buf], registered last under
    the given name. *)
Theorem C9_AddOutput_capacity name buf w :
  reachable w -> crashed w = None ->
  0 < max_chan_size /\
  (buf < 0 \/ max_chan_size < buf ->
   AddOutput name buf w = Panics PanicMakeChan) /\
  (0 <= buf <= max_chan_size ->
   (lock (mux w) = true /\ AddOutput name buf w = Waits \/
    lock (mux w) = false /\
    exists w',
      AddOutput name buf w = Returns (w', length (chans w)) /\
      (length (chans w) ∉ dst <$> outputs (mux w)) /\
      chans w !! length (chans w) = None /\
      (exists sl, chans w' !! length (chans w) = Some sl /\
                  sl_ch sl = new_chan buf) /\
      outputs (mux w') =
        outputs (mux w) ++ [Output name (length (chans w))]) /\
   exists es w1 w2 h,
     Forall quiet es /\ run w es = Some w1 /\
     AddOutput name buf w1 = Returns (w2, h)).
Proof.
  intros Hreach Ha. pose proof (reachable_Inv _ Hreach) as HI.
  assert (forall v, 0 <= buf <= max_chan_size -> lock (mux v) = false ->
            AddOutput name buf v =
            Returns (set_mux
                       (set_chans v
                          (chans v ++
                           [Slot (new_chan buf)
                              (length (ch_got (src (mux v)))
                               + ch_eos (src (mux v)))
                              (existsb is_done (loops v))]))
                       (set_outputs (mux v)
                          (outputs (mux v)
                           ++ [Output name (length (chans v))])),
                     length (chans v))) as Hret.
  { intros v Hb Hl. unfold AddOutput.
    destruct (make_chan_cases (A:=RequestResponsePair) buf)
      as [[_ ->] | [? _]]; [|lia]. by rewrite Hl. }
  split; [done|]. split.
  - intros Hout. unfold AddOutput.
    by destruct (make_chan_cases (A:=RequestResponsePair) buf)
      as [[? _] | [_ ->]]; [lia|].
  - intros Hb. split.
    + destruct (lock (mux w)) eqn:Hl.
      * left. split; [done|]. unfold AddOutput.
        destruct (make_chan_cases (A:=RequestResponsePair) buf)
          as [[_ ->] | [? _]]; [|lia]. by rewrite Hl.
      * right. split; [done|]. eexists. split; [by apply Hret|].
        split; [|split; [|split]].
        -- rewrite (inv_handles _ HI), elem_of_seq. lia.
        -- by apply lookup_ge_None.
        -- eexists. split.
           ++ simpl. rewrite lookup_app_r by done.
              by rewrite Nat.sub_diag.
           ++ done.
        -- done.
    + destruct (finish_unlocked w Hreach Ha)
        as (es & w1 & Hq & Hrun & _ & _ & Hl).
      exists es, w1. eexists _, _. split; [done|]. split; [done|].
      by apply Hret.
Qed.

Lemma C9_AddOutput_capacity_witness :
  AddOutput "v" (-1) at_unread_output = Panics PanicMakeChan /\
  AddOutput "v" (2 ^ 62) at_unread_output = Panics PanicMakeChan /\
  exists w', AddOutput "v" 4 at_unread_output = Returns (w', 1%nat).
Proof.
  assert (reachable at_unread_output) as Hr.
  { exists (NewNonBlockingPairMux (new_chan 0) 0).
    split; [right; by exists 0, 0|]. exists unread_output. reflexivity. }
  split; [|split].
  - apply (C9_AddOutput_capacity "v" (-1) at_unread_output Hr eq_refl). lia.
  - apply (C9_AddOutput_capacity "v" (2 ^ 62) at_unread_output Hr eq_refl).
    right. vm_compute. reflexivity.
  - destruct (C9_AddOutput_capacity "v" 4 at_unread_output Hr eq_refl)
      as (_ & _ & H).
    destruct H as ([[[=] _] | (_ & w' & Hw' & _)] & _).
    + split; [lia|]. vm_compute. discriminate.
    + by exists w'.
Defined.

(** *** C10: the buffer of Finished *)

(** A send on an unbuffered channel nobody is parked on has to wait. *)
Remark unbuffered_send_blocks : chan_send (new_chan 0) true = SendBlocks.
Proof. reflexivity. Qed.

(** C10: both constructors make [Finished] with a buffer of one; wherever
    the goroutine stands at [m.Finished <- true], that send goes through
    at once, with or without a caller of WaitUntilFinished; and from any
    world that has not panicked the goroutine can be run to its end, the
    signal sent and the channel of every output registered before that end
    closed, by a schedule in which nobody calls WaitUntilFinished. *)
Theorem C10_shutdown_never_blocks m w :
  constructed m -> reachable_from m w -> crashed w = None ->
  Finished m = new_chan 1 /\
  ch_cap (Finished (mux w)) = 1 /\
  (forall i, loops w !! i = Some (PShutClose []) ->
     exists w', step w (EvLoop i) = Some w' /\
                loops w' !! i = Some PShutUnlock /\
                ch_sent (Finished (mux w')) = [true] /\
                crashed w' = None) /\
  exists es w',
    Forall quiet es /\ run w es = Some w' /\ nwait w' = nwait w /\
    loops w' = [PDone] /\ lock (mux w') = false /\
    ch_sent (Finished (mux w')) = [true] /\
    forall h sl, chans w !! h = Some sl -> sl_late sl = false ->
      exists sl', chans w' !! h = Some sl' /\
                  ch_closed (sl_ch sl') = true.
Proof.
  intros Hm Hfrom Ha.
  assert (reachable w) as Hreach by (exists m; eauto).
  pose proof (reachable_Inv _ Hreach) as HI.
  assert (good w) as Hg by (split; [done|by apply reachable_caps_ok|done]).
  split; [by destruct Hm as [[c ->] | (c & t & ->)]|].
  split; [by apply inv_fin_cap|]. split.
  - intros i Hi. destruct (loops_single _ _ _ HI Hi) as (-> & Hl & Hcur & _).
    assert (exists w1, loop_step 0 (PShutClose []) w = Returns w1 /\
                       loops w1 = [PShutUnlock]) as (w1 & Hs & Hl1).
    { simpl. unfold chan_send. rewrite (inv_fin_open _ HI).
      destruct (ch_recvq (Finished (mux w))) as [|r q].
      - pose proof (inv_fin_sent _ HI) as Hsent. rewrite Hcur in Hsent.
        destruct (inv_fin_wf _ HI) as (Hwf & _). simpl in Hsent.
        rewrite Hsent in Hwf. symmetry in Hwf.
        apply app_eq_nil in Hwf as [_ ->]. rewrite (inv_fin_cap _ HI).
        simpl. eexists. split; [done|]. simpl. by rewrite Hl.
      - eexists. split; [done|]. simpl. by rewrite Hl. }
    pose proof (loop_good _ _ _ Hg Hl Hs) as Hg1.
    exists w1. split; [|split; [by rewrite Hl1|split]].
    + assert (perform (EvLoop 0) w = Returns w1) as Hp
        by (simpl; by rewrite Hl).
      unfold step. by rewrite Ha, Hp.
    + rewrite (inv_fin_sent _ (good_inv _ Hg1)).
      by rewrite (cur_single _ _ Hl1).
    + apply Hg1.
  - destruct (finish w Hg) as (es & w' & Hle & Hl').
    pose proof Hle as (Hq & Hrun & _).
    destruct (leads_frame _ _ _ Hle) as (_ & Hout & Hlen & Hnw).
    assert (Inv w') as HI' by by eapply Inv_run.
    pose proof (cur_single _ _ Hl') as Hcur.
    exists es, w'. split; [done|]. split; [done|]. split; [done|].
    split; [done|]. split; [by rewrite (inv_lock _ HI'), Hcur|].
    split; [by rewrite (inv_fin_sent _ HI'), Hcur|].
    intros h sl Hsl Hnl.
    destruct (run_slot _ _ _ _ _ Hrun Hsl) as (sl' & Hsl' & Hlate & _).
    exists sl'. split; [done|].
    eapply done_slot_closed; eauto.
Qed.

Lemma C10_shutdown_never_blocks_witness :
  exists w', step before_signal (EvLoop 0) = Some w' /\
             loops w' !! 0%nat = Some PShutUnlock /\
             ch_sent (Finished (mux w')) = [true] /\
             crashed w' = None.
Proof.
  destruct (C10_shutdown_never_blocks
              (NewBlockingPairMux (new_chan 0)) before_signal)
    as (_ & _ & H & _).
  - left. by exists 0.
  - exists (take 26 three_items). reflexivity.
  - reflexivity.
  - apply (H 0%nat). reflexivity.
Defined.

(** ** Further properties of the mux *)

(** *** Panics *)

(** X1: the goroutine never sends on a closed channel and never closes a
    channel twice: a program panics only in AddOutput, in [make], on a
    size that is negative or over the largest size [make] accepts, and has
    not panicked otherwise. *)
Theorem X1_only_make_panics w :
  reachable w ->
  (crashed w = None \/ crashed w = Some PanicMakeChan) /\
  forall e w',
    crashed w = None -> step w e = Some w' -> crashed w' <> None ->
    crashed w' = Some PanicMakeChan /\
    exists nm buf, e = EvAddOutput nm buf /\
                   (buf < 0 \/ max_chan_size < buf).
Proof.
  intros Hreach. split; [by apply reachable_crashed|].
  intros e w' Ha Hs Hpanic. pose proof (reachable_Inv _ Hreach) as HI.
  unfold step in Hs. rewrite Ha in Hs.
  destruct (perform e w) as [w1| |p] eqn:Hp; [|done|].
  - injection Hs as ->. destruct (perform_frame _ _ _ Hp) as (Hc & _).
    congruence.
  - injection Hs as <-. destruct (perform_panic _ _ _ HI Hp) as (-> & Hev).
    done.
Qed.

Lemma X1_only_make_panics_witness :
  crashed before_signal = None /\
  forall w', step before_signal (EvAddOutput "v" (-2)) = Some w' ->
             crashed w' = Some PanicMakeChan /\
             exists nm buf, EvAddOutput "v" (-2) = EvAddOutput nm buf /\
                            (buf < 0 \/ max_chan_size < buf).
Proof.
  assert (reachable before_signal) as Hr.
  { exists (NewBlockingPairMux (new_chan 0)). split; [left; by exists 0|].
    exists (take 26 three_items). reflexivity. }
  destruct (X1_only_make_panics before_signal Hr) as [_ H].
  split; [reflexivity|]. intros w' Hs.
  apply (H (EvAddOutput "v" (-2)) w' eq_refl Hs).
  vm_compute in Hs. injection Hs as <-. discriminate.
Defined.

(** *** The registry *)

Lemma perform_outputs e w w' :
  perform e w = Returns w' ->
  outputs (mux w) `prefix_of` outputs (mux w').
Proof. destruct e; crush_perform; try done; by apply prefix_app_r. Qed.

Lemma run_outputs es : forall w w',
  run w es = Some w' -> outputs (mux w) `prefix_of` outputs (mux w').
Proof.
  induction es as [|e es IH]; simpl; intros w w'.
  - by intros [= <-].
  - unfold step. destruct (crashed w); [done|].
    destruct (perform e w) as [w1| |p] eqn:Hp; [|done|]; intros Hr.
    + etrans; [by eapply perform_outputs | by apply IH].
    + by apply (IH _ _ Hr).
Qed.

(** X2: outputs are never removed, renamed or reordered: along any run the
    registry only grows at its end; its outputs have the handles 0, 1, 2,
    ... in the order of registration, all different, one for each channel
    made. *)
Theorem X2_outputs_only_grow w es w' :
  reachable w -> run w es = Some w' ->
  outputs (mux w) `prefix_of` outputs (mux w') /\
  dst <$> outputs (mux w') = seq 0 (length (outputs (mux w'))) /\
  NoDup (dst <$> outputs (mux w')) /\
  length (chans w') = length (outputs (mux w')).
Proof.
  intros Hreach Hrun.
  pose proof (reachable_Inv _ (reachable_run _ _ _ Hreach Hrun)) as HI.
  pose proof (inv_handles _ HI) as Hh.
  assert (length (chans w') = length (outputs (mux w'))) as Hlen.
  { apply (f_equal length) in Hh.
    by rewrite length_fmap, length_seq in Hh. }
  split; [by eapply run_outputs|]. split; [by rewrite Hh, Hlen|].
  split; [|done]. rewrite Hh. apply NoDup_seq.
Qed.

Lemma X2_outputs_only_grow_witness :
  exists w',
    run at_unread_output [EvAddOutput "v" 4] = Some w' /\
    outputs (mux at_unread_output) `prefix_of` outputs (mux w') /\
    dst <$> outputs (mux w') = [0; 1]%nat.
Proof.
  assert (reachable at_unread_output) as Hr.
  { exists (NewNonBlockingPairMux (new_chan 0) 0).
    split; [right; by exists 0, 0|]. exists unread_output. reflexivity. }
  eexists. split; [reflexivity|].
  edestruct (X2_outputs_only_grow at_unread_output [EvAddOutput "v" 4])
    as (H1 & H2 & _); [exact Hr|reflexivity|].
  split; [exact H1|exact H2].
Defined.

(** *** The lock *)

(** X3: no critical section but that of shutdown contains a channel
    operation (those of AddOutput, of Start and of the snapshot in RunStep
    are one step each), so the lock is found held only during shutdown,
    that is only once the source is closed and drained; while the source
    is open or has items left, and while the goroutine is in RunStep, at
    its receive, its snapshot, a write, blocked or not, or the select of a
    timed write, AddOutput with a size [make] accepts and Start return
    without waiting. *)
Theorem X3_lock_only_in_shutdown w name buf :
  reachable w -> 0 <= buf <= max_chan_size ->
  (lock (mux w) = true ->
   (exists p, loops w = [p] /\ holds_lock p = true) /\
   ch_closed (src (mux w)) = true /\ ch_buf (src (mux w)) = []) /\
  (ch_closed (src (mux w)) = false \/ ch_buf (src (mux w)) <> [] \/
   (exists p, loops w = [p] /\ shutting p = false) ->
   lock (mux w) = false /\
   (exists w', AddOutput name buf w = Returns (w', length (chans w))) /\
   exists w', Start w = Returns w').
Proof.
  intros Hreach Hbuf. pose proof (reachable_Inv _ Hreach) as HI.
  pose proof (inv_lock _ HI) as Hlock.
  assert (lock (mux w) = true ->
          (exists p, loops w = [p] /\ holds_lock p = true) /\
          ch_closed (src (mux w)) = true /\ ch_buf (src (mux w)) = [])
    as Hheld.
  { intros Hl. rewrite Hl in Hlock.
    destruct (inv_src_end _ HI) as (? & ? & _).
    { destruct (cur w); simpl in *; done. }
    split; [|done]. exists (cur w). split; [|done].
    destruct (loops_shape _ HI) as [Hnil | ?]; [|done].
    unfold cur in Hlock. by rewrite Hnil in Hlock. }
  split; [done|]. intros Hcase.
  assert (lock (mux w) = false) as Hfree.
  { destruct (lock (mux w)) eqn:Hl; [|done].
    destruct Hheld as ((p & Hp & Hhp) & Hc & Hb); [done|].
    destruct Hcase as [? | [? | (q & Hw & Hq)]]; [congruence|done|].
    rewrite Hp in Hw. simplify_eq. by destruct q. }
  split; [done|]. split.
  - unfold AddOutput.
    destruct (make_chan_cases (A:=RequestResponsePair) buf)
      as [[_ ->] | [? _]]; [|lia].
    rewrite Hfree. eauto.
  - unfold Start. rewrite Hfree. destruct (started (mux w)); eauto.
Qed.

(** The goroutine of a blocking mux stuck on an unbuffered output nobody
    reads, and the goroutine of a timed mux at its select: registration
    still goes through. *)
Lemma X3_lock_only_in_shutdown_witness :
  (lock (mux at_blocked_write) = false /\
   exists w', AddOutput "z" 0 at_blocked_write = Returns (w', 2%nat)) /\
  (lock (mux at_timed_select) = false /\
   exists w', AddOutput "z" 7 at_timed_select = Returns (w', 1%nat)).
Proof.
  assert (reachable at_blocked_write) as Hr.
  { exists (NewBlockingPairMux (new_chan 0)). split; [left; by exists 0|].
    exists blocked_write. reflexivity. }
  assert (reachable at_timed_select) as Hr'.
  { exists (NewNonBlockingPairMux (new_chan 0) 3).
    split; [right; by exists 0, 3|]. exists timed_unread_output.
    reflexivity. }
  split.
  - destruct (X3_lock_only_in_shutdown at_blocked_write "z" 0 Hr) as [_ H].
    + split; [lia|]. vm_compute. discriminate.
    + destruct H as (H1 & H2 & _).
      * right. right. eexists. split; [reflexivity|reflexivity].
      * split; [exact H1|exact H2].
  - destruct (X3_lock_only_in_shutdown at_timed_select "z" 7 Hr') as [_ H].
    + split; [lia|]. vm_compute. discriminate.
    + destruct H as (H1 & H2 & _).
      * right. right. eexists. split; [reflexivity|reflexivity].
      * split; [exact H1|exact H2].
Defined.

(** *** Before Start, and after WaitUntilFinished *)

Lemma perform_started e w w' :
  perform e w = Returns w' ->
  started (mux w) = true -> started (mux w') = true.
Proof. destruct e; crush_perform; done. Qed.

Lemma perform_src_idle e w w' :
  perform e w = Returns w' -> loops w = [] ->
  ch_recvq (src (mux w)) = [] ->
  ch_got (src (mux w')) = ch_got (src (mux w)) /\
  ch_eos (src (mux w')) = ch_eos (src (mux w)).
Proof.
  intros Hp Hl Hq. revert Hp.
  destruct e; simpl; rewrite ?Hl; simpl; try done.
  - unfold push. destruct (ch_closed (src (mux w))); by intros [= <-].
  - unfold close_src, chan_close.
    destruct (ch_closed (src (mux w))); intros [= <-]; simpl.
    rewrite Hq. simpl. split; [done|lia].
  - unfold AddOutput, make_chan. destruct (_ <? _); [done|].
    destruct (_ <? _); [done|].
    destruct (lock (mux w)); by intros [= <-].
  - unfold Start. destruct (lock (mux w)), (started (mux w));
      by intros [= <-].
  - intros [= <-]. unfold WaitUntilFinished.
    by destruct (chan_recv (Finished (mux w))).
  - unfold consume. destruct (chans w !! c); by intros [= <-].
Qed.

Lemma unread_perform e w w' :
  Inv w -> unread w -> perform e w = Returns w' -> unread w'.
Proof.
  intros HI Hu Hp Hs'. destruct (started (mux w)) eqn:Hs.
  - by rewrite (perform_started _ _ _ Hp Hs) in Hs'.
  - pose proof (inv_loops _ HI) as Hl. rewrite Hs in Hl.
    apply nil_length_inv in Hl.
    destruct (perform_src_idle _ _ _ Hp Hl (inv_src_recvq _ HI)) as [-> ->].
    by apply Hu.
Qed.

Lemma unread_run es : forall w w',
  Inv w -> unread w -> run w es = Some w' -> unread w'.
Proof.
  induction es as [|e es IH]; simpl; intros w w' HI Hu.
  - by intros [= <-].
  - destruct (step w e) as [w1|] eqn:Hs; [|done].
    apply IH; [by eapply Inv_step|].
    unfold step in Hs. destruct (crashed w); [done|].
    destruct (perform e w) as [w2| |p] eqn:Hp; simplify_eq; [|done].
    by eapply unread_perform.
Qed.

Lemma reachable_unread w : reachable w -> unread w.
Proof.
  intros (m & Hm & es & Hr). eapply unread_run; [by apply Inv_boot| |done].
  by destruct Hm as [[c ->] | (c & t & ->)].
Qed.

(** X4: until Start is called nothing moves: no goroutine, nothing read
    from the source, so everything pushed is still queued there, nothing
    sent to any output and no output closed, whatever its consumers do,
    no completion signal, and every caller of WaitUntilFinished parked. *)
Theorem X4_nothing_before_start w :
  reachable w -> started (mux w) = false ->
  loops w = [] /\
  ch_got (src (mux w)) = [] /\
  ch_buf (src (mux w)) = ch_sent (src (mux w)) /\
  (forall h sl, chans w !! h = Some sl ->
     ch_sent (sl_ch sl) = [] /\ ch_got (sl_ch sl) = [] /\
     ch_closed (sl_ch sl) = false) /\
  ch_sent (Finished (mux w)) = [] /\
  returned w = [] /\
  length (ch_recvq (Finished (mux w))) = nwait w.
Proof.
  intros Hreach Hs. pose proof (reachable_Inv _ Hreach) as HI.
  destruct (reachable_unread _ Hreach Hs) as [Hgot _].
  pose proof (inv_loops _ HI) as Hl. rewrite Hs in Hl.
  apply nil_length_inv in Hl.
  assert (cur w = PRecv) as Hcur by (unfold cur; by rewrite Hl).
  pose proof (inv_fin_sent _ HI) as Hfin. rewrite Hcur in Hfin.
  assert (returned w = []) as Hret.
  { apply nil_length_inv. rewrite (inv_returned _ HI).
    destruct (inv_fin_wf _ HI) as (Hwf & _). rewrite Hfin in Hwf.
    symmetry in Hwf. by apply app_eq_nil in Hwf as [-> _]. }
  split; [done|]. split; [done|]. split.
  { destruct (inv_src_wf _ HI) as (-> & _). by rewrite Hgot. }
  split; [|split; [done|split; [done|]]].
  - intros h sl Hh.
    destruct (inv_slots _ HI _ _ Hh) as [(Hwf & _) Hcl _ _].
    pose proof (sent_sublist_read _ _ _ HI Hh) as Hsub.
    rewrite Hgot in Hsub. apply sublist_nil_r in Hsub.
    rewrite Hcur in Hcl. destruct Hcl as [_ Hopen].
    rewrite Hsub in Hwf. symmetry in Hwf.
    apply app_eq_nil in Hwf as [-> _]. done.
  - rewrite (inv_nwait _ HI), Hret. done.
Qed.

Lemma X4_nothing_before_start_witness :
  ch_buf (src (mux after_never_started)) = [1; 2]%nat /\
  returned after_never_started = [] /\
  forall h sl, chans after_never_started !! h = Some sl ->
               ch_sent (sl_ch sl) = [].
Proof.
  assert (reachable after_never_started) as Hr.
  { exists (NewBlockingPairMux (new_chan 0)). split; [left; by exists 0|].
    exists never_started. reflexivity. }
  destruct (X4_nothing_before_start after_never_started Hr eq_refl)
    as (_ & _ & H1 & H2 & _ & H3 & _).
  split; [exact H1|]. split; [exact H3|].
  intros h sl Hh. by destruct (H2 h sl Hh).
Defined.

(** X5: when a caller has returned from WaitUntilFinished, Start has been
    called, the source is closed and everything pushed to it has been
    read, and the channel of every output registered before the goroutine
    finished is closed; under the blocking writer every output registered
    before the first receive on the source has been sent exactly the
    items pushed. *)
Theorem X5_wait_postcondition w c :
  reachable w -> c ∈ returned w ->
  started (mux w) = true /\
  ch_closed (src (mux w)) = true /\
  ch_got (src (mux w)) = ch_sent (src (mux w)) /\
  (forall h sl, chans w !! h = Some sl -> sl_late sl = false ->
     ch_closed (sl_ch sl) = true /\ ch_closes (sl_ch sl) = 1%nat) /\
  (writer (mux w) = WriterBlocking ->
   forall h sl, chans w !! h = Some sl -> sl_born sl = 0%nat ->
     ch_sent (sl_ch sl) = ch_sent (src (mux w))).
Proof.
  intros Hreach Hc. pose proof (reachable_Inv _ Hreach) as HI.
  assert (signalled (cur w) = true) as Hsig.
  { pose proof (inv_fin_sent _ HI) as Hfin.
    destruct (signalled (cur w)); [done|].
    destruct (inv_fin_wf _ HI) as (Hwf & _). rewrite Hfin in Hwf.
    symmetry in Hwf. apply app_eq_nil in Hwf as [Hg _].
    pose proof (inv_returned _ HI) as Hret. rewrite Hg in Hret.
    apply nil_length_inv in Hret. rewrite Hret in Hc.
    by apply elem_of_nil in Hc. }
  assert (shutting (cur w) = true) as Hsh by by destruct (cur w).
  destruct (inv_src_end _ HI Hsh) as (Hclosed & Hbuf & _).
  destruct (inv_src_wf _ HI) as (Hwf & _).
  assert (ch_got (src (mux w)) = ch_sent (src (mux w))) as Hall
    by by rewrite Hwf, Hbuf, app_nil_r.
  assert (forall h sl, chans w !! h = Some sl -> sl_late sl = false ->
            ch_closed (sl_ch sl) = true /\ ch_closes (sl_ch sl) = 1%nat)
    as Hout.
  { intros h sl Hh Hlate.
    destruct (inv_slots _ HI _ _ Hh) as [(_ & Hn & _) Hcl _ _].
    assert (ch_closed (sl_ch sl) = true) as Hcd.
    { destruct (cur w); simpl in *; try done; [by destruct Hcl|].
      by rewrite Hcl, Hlate. }
    by rewrite Hn, Hcd. }
  split; [|split; [done|split; [done|split; [done|]]]].
  - pose proof (inv_loops _ HI) as Hl.
    destruct (started (mux w)); [done|]. apply nil_length_inv in Hl.
    unfold cur in Hsig. by rewrite Hl in Hsig.
  - intros Hwr h sl Hh Hborn. rewrite <- Hall.
    destruct (inv_slots _ HI _ _ Hh) as [_ _ _ (tg & _ & Heq & Hcase)].
    rewrite (Heq Hwr Hborn).
    destruct Hcase as [(Ho & _) | (_ & ->)]; [|done].
    by destruct (cur w).
Qed.

Lemma X5_wait_postcondition_witness :
  returned after_waited_three_items = [0%nat] /\
  forall h sl, chans after_waited_three_items !! h = Some sl ->
               sl_born sl = 0%nat ->
               ch_sent (sl_ch sl) = [1; 2; 3]%nat.
Proof.
  assert (reachable after_waited_three_items) as Hr.
  { exists (NewBlockingPairMux (new_chan 0)). split; [left; by exists 0|].
    exists waited_three_items. reflexivity. }
  split; [reflexivity|].
  destruct (X5_wait_postcondition after_waited_three_items 0%nat Hr)
    as (_ & _ & _ & _ & H).
  - by left.
  - apply H. reflexivity.
Defined.

(** *** After the goroutine has finished *)

Lemma consume_slots c w w' :
  consume c w = Returns w' ->
  forall h s, chans w !! h = Some s ->
    exists s', chans w' !! h = Some s' /\
               ch_sent (sl_ch s') = ch_sent (sl_ch s) /\
               ch_closed (sl_ch s') = ch_closed (sl_ch s) /\
               ch_closes (sl_ch s') = ch_closes (sl_ch s) /\
               (h <> c -> s' = s).
Proof.
  unfold consume. destruct (chans w !! c) as [sl|] eqn:Hsl; [|done].
  intros [= <-] h s Hh. simpl. destruct (decide (h = c)) as [->|Hne].
  - rewrite list_lookup_insert_eq by (by eapply lookup_lt_Some).
    assert (s = sl) as -> by congruence.
    eexists. split; [done|]. simpl. unfold chan_recv.
    destruct (ch_buf (sl_ch sl)); [destruct (ch_closed (sl_ch sl)) eqn:Hc|];
      simpl; by rewrite ?Hc.
  - rewrite list_lookup_insert_ne by done. by exists s.
Qed.

Lemma perform_done e w w' :
  Inv w -> loops w = [PDone] -> perform e w = Returns w' ->
  loops w' = [PDone] /\ src (mux w') = src (mux w) /\
  ch_sent (Finished (mux w')) = ch_sent (Finished (mux w)) /\
  lock (mux w') = lock (mux w) /\
  forall h s, chans w !! h = Some s ->
    exists s', chans w' !! h = Some s' /\
               ch_sent (sl_ch s') = ch_sent (sl_ch s) /\
               ch_closed (sl_ch s') = ch_closed (sl_ch s) /\
               ch_closes (sl_ch s') = ch_closes (sl_ch s).
Proof.
  intros HI Hl. pose proof (cur_single _ _ Hl) as Hcur.
  destruct (inv_src_end _ HI) as (Hclosed & _); [by rewrite Hcur|].
  pose proof (inv_loops _ HI) as Hst. rewrite Hl in Hst.
  destruct e as [x| |nm buf| | |c|i|i|i]; simpl; rewrite ?Hl.
  - unfold push. by rewrite Hclosed.
  - unfold close_src, chan_close. by rewrite Hclosed.
  - unfold AddOutput, make_chan. destruct (_ <? _); [done|].
    destruct (_ <? _); [done|].
    destruct (lock (mux w)) eqn:Hk; simpl; [done|]. intros [= <-]; simpl.
    do 4 (split; [done|]). intros h s Hh. exists s.
    split; [by apply lookup_app_l_Some|done].
  - unfold Start. destruct (lock (mux w)) eqn:Hk; [done|].
    destruct (started (mux w)); [|done]. intros [= <-]. eauto 10.
  - intros [= <-]. unfold WaitUntilFinished, chan_recv.
    destruct (ch_buf (Finished (mux w)));
      [destruct (ch_closed (Finished (mux w)))|]; simpl; eauto 10.
  - intros Hc. pose proof (consume_slots _ _ _ Hc) as Hsl.
    unfold consume in Hc. destruct (chans w !! c) as [sc|]; [|done].
    injection Hc as <-. simpl. do 4 (split; [done|]).
    intros h s Hh. destruct (Hsl h s Hh) as (s' & ? & ? & ? & ? & _).
    by exists s'.
  - by destruct i as [|[|i]].
  - by destruct i as [|[|i]].
  - by destruct i as [|[|i]].
Qed.

Lemma run_done es : forall w w',
  Inv w -> loops w = [PDone] -> run w es = Some w' ->
  loops w' = [PDone] /\ src (mux w') = src (mux w) /\
  ch_sent (Finished (mux w')) = ch_sent (Finished (mux w)) /\
  lock (mux w') = lock (mux w) /\
  forall h s, chans w !! h = Some s ->
    exists s', chans w' !! h = Some s' /\
               ch_sent (sl_ch s') = ch_sent (sl_ch s) /\
               ch_closed (sl_ch s') = ch_closed (sl_ch s) /\
               ch_closes (sl_ch s') = ch_closes (sl_ch s).
Proof.
  induction es as [|e es IH]; simpl; intros w w' HI Hl.
  - intros [= <-]. eauto 10.
  - unfold step. destruct (crashed w) eqn:Ha; [done|].
    destruct (perform e w) as [w1| |p] eqn:Hp; [|done|]; intros Hr.
    + destruct (perform_done _ _ _ HI Hl Hp) as (Hl1 & Hs1 & Hf1 & Hk1 & H1).
      destruct (IH w1 w') as (Hl2 & Hs2 & Hf2 & Hk2 & H2);
        [by eapply Inv_perform|done|done|].
      split; [done|]. split; [congruence|]. split; [congruence|].
      split; [congruence|]. intros h s Hh.
      destruct (H1 h s Hh) as (s1 & Hh1 & ? & ? & ?).
      destruct (H2 h s1 Hh1) as (s2 & Hh2 & ? & ? & ?).
      exists s2. split; [done|]. split; [congruence|]. split; congruence.
    + apply (run_crashed _ _ _ p) in Hr; [|done]. subst w'. simpl.
      eauto 10.
Qed.

(** X6: the end of the goroutine is final: whatever is called or happens
    afterwards, Start included, no goroutine is launched again, the lock
    stays free, nothing more is received from the source, nothing more is
    sent on any output channel or on [Finished], and no channel is closed
    or closed again. *)
Theorem X6_done_is_terminal w es w' :
  reachable w -> loops w = [PDone] -> run w es = Some w' ->
  loops w' = [PDone] /\ lock (mux w') = false /\
  src (mux w') = src (mux w) /\
  ch_sent (Finished (mux w')) = [true] /\
  forall h s, chans w !! h = Some s ->
    exists s', chans w' !! h = Some s' /\
               ch_sent (sl_ch s') = ch_sent (sl_ch s) /\
               ch_closed (sl_ch s') = ch_closed (sl_ch s) /\
               ch_closes (sl_ch s') = ch_closes (sl_ch s).
Proof.
  intros Hreach Hl Hrun. pose proof (reachable_Inv _ Hreach) as HI.
  destruct (run_done _ _ _ HI Hl Hrun) as (Hl' & Hs & Hf & Hk & Hsl).
  pose proof (cur_single _ _ Hl) as Hcur.
  split; [done|]. split; [by rewrite Hk, (inv_lock _ HI), Hcur|].
  split; [done|]. split; [by rewrite Hf, (inv_fin_sent _ HI), Hcur|done].
Qed.

Lemma X6_done_is_terminal_witness :
  exists w',
    run after_three_items
        [EvStart; EvRecv 0; EvAddOutput "z" 1; EvWait; EvStart]%nat
      = Some w' /\
    loops w' = [PDone] /\ ch_sent (Finished (mux w')) = [true].
Proof.
  eexists. split; [reflexivity|].
  edestruct (X6_done_is_terminal after_three_items
               [EvStart; EvRecv 0; EvAddOutput "z" 1; EvWait; EvStart]%nat)
    as (H1 & _ & _ & H2 & _).
  - exact reachable_after_three_items.
  - reflexivity.
  - reflexivity.
  - split; [exact H1|exact H2].
Defined.

(** *** A blocking write that has to wait *)

Lemma perform_stuck e w w' x o t sl :
  Inv w -> writer (mux w) = WriterBlocking ->
  loops w = [PWrite x (o :: t)] ->
  chans w !! dst o = Some sl -> full (sl_ch sl) ->
  e <> EvRecv (dst o) -> perform e w = Returns w' ->
  loops w' = [PWrite x (o :: t)] /\
  chans w' !! dst o = Some sl /\
  ch_got (src (mux w')) = ch_got (src (mux w)) /\
  forall h s, chans w !! h = Some s ->
    exists s', chans w' !! h = Some s' /\
               ch_sent (sl_ch s') = ch_sent (sl_ch s).
Proof.
  intros HI Hwr Hl Hsl Hfull Hne.
  pose proof (inv_loops _ HI) as Hst. rewrite Hl in Hst.
  destruct e as [y| |nm buf| | |c|i|i|i]; simpl; rewrite ?Hl.
  - unfold push. destruct (ch_closed (src (mux w))); intros [= <-].
    simpl. eauto 10.
  - unfold close_src, chan_close.
    destruct (ch_closed (src (mux w))); intros [= <-]. simpl. eauto 10.
  - unfold AddOutput, make_chan. destruct (_ <? _); [done|].
    destruct (_ <? _); [done|].
    destruct (lock (mux w)) eqn:Hk; simpl; [done|]. intros [= <-]; simpl.
    split; [done|]. split; [by apply lookup_app_l_Some|]. split; [done|].
    intros h s Hh. exists s. split; [by apply lookup_app_l_Some|done].
  - unfold Start. destruct (lock (mux w)) eqn:Hk; [done|].
    destruct (started (mux w)); [|done]. intros [= <-]. eauto 10.
  - intros [= <-]. unfold WaitUntilFinished.
    destruct (chan_recv (Finished (mux w))); simpl; eauto 10.
  - intros Hc. pose proof (consume_slots _ _ _ Hc) as Hs.
    assert (dst o <> c) as Hoc by congruence.
    destruct (Hs _ _ Hsl) as (s' & Hs' & _ & _ & _ & Heq).
    rewrite (Heq Hoc) in Hs'.
    unfold consume in Hc. destruct (chans w !! c) as [sc|]; [|done].
    injection Hc as <-. simpl in *. do 3 (split; [done|]).
    intros h s Hh. destruct (Hs h s Hh) as (s1 & ? & ? & _). by exists s1.
  - destruct i as [|[|i]]; simpl; try done.
    unfold call_writer. rewrite Hwr.
    by rewrite (full_blockingOutputWriter o x w sl).
  - by destruct i as [|[|i]].
  - by destruct i as [|[|i]].
Qed.

Lemma run_stuck es : forall w w' x o t sl,
  Inv w -> writer (mux w) = WriterBlocking ->
  loops w = [PWrite x (o :: t)] ->
  chans w !! dst o = Some sl -> full (sl_ch sl) ->
  Forall (fun e => e <> EvRecv (dst o)) es -> run w es = Some w' ->
  loops w' = [PWrite x (o :: t)] /\
  ch_got (src (mux w')) = ch_got (src (mux w)) /\
  forall h s, chans w !! h = Some s ->
    exists s', chans w' !! h = Some s' /\
               ch_sent (sl_ch s') = ch_sent (sl_ch s).
Proof.
  induction es as [|e es IH]; simpl; intros w w' x o t sl HI Hwr Hl Hsl Hfull.
  - intros _ [= <-]. eauto.
  - intros [Hne Hes]%Forall_cons. unfold step.
    destruct (crashed w) eqn:Ha; [done|].
    destruct (perform e w) as [w1| |p] eqn:Hp; [|done|]; intros Hr.
    + destruct (perform_stuck _ _ _ _ _ _ _ HI Hwr Hl Hsl Hfull Hne Hp)
        as (Hl1 & Hsl1 & Hg1 & H1).
      destruct (IH w1 w' x o t sl) as (Hl2 & Hg2 & H2); auto.
      { by eapply Inv_perform. }
      { destruct (perform_frame _ _ _ Hp) as (_ & -> & _). done. }
      split; [done|]. split; [congruence|]. intros h s Hh.
      destruct (H1 h s Hh) as (s1 & Hh1 & ?).
      destruct (H2 h s1 Hh1) as (s2 & Hh2 & ?).
      exists s2. split; [done|congruence].
    + apply (run_crashed _ _ _ p) in Hr; [|done]. subst w'. simpl. eauto.
Qed.

(** X7: under the blocking writer a write to an output whose channel is
    full is not a step of the goroutine, and for as long as no consumer
    receives from that output the goroutine stays at this very write,
    whatever else happens: no later output is sent the item, no further
    item is read from the source, nothing is sent on any output. *)
Theorem X7_blocked_write_stalls cap w x o t sl es w' :
  reachable_from (NewBlockingPairMux (new_chan cap)) w ->
  loops w = [PWrite x (o :: t)] ->
  chans w !! dst o = Some sl -> full (sl_ch sl) ->
  Forall (fun e => e <> EvRecv (dst o)) es -> run w es = Some w' ->
  step w (EvLoop 0) = None /\
  loops w' = [PWrite x (o :: t)] /\
  ch_got (src (mux w')) = ch_got (src (mux w)) /\
  forall h s, chans w !! h = Some s ->
    exists s', chans w' !! h = Some s' /\
               ch_sent (sl_ch s') = ch_sent (sl_ch s).
Proof.
  intros [Hreach Hwr]%reachable_from_blocking Hl Hsl Hfull Hes Hrun.
  pose proof (reachable_Inv _ Hreach) as HI. split.
  - unfold step. destruct (crashed w); [done|]. simpl. rewrite Hl. simpl.
    unfold call_writer. rewrite Hwr.
    by rewrite (full_blockingOutputWriter o x w sl).
  - by eapply run_stuck.
Qed.

Lemma X7_blocked_write_stalls_witness :
  exists w',
    run at_blocked_write [EvPush 3%nat; EvRecv 1; EvCloseSrc; EvStart]%nat
      = Some w' /\
    step at_blocked_write (EvLoop 0) = None /\
    loops w' = [PWrite 1%nat [Output "u" 0; Output "v" 1]].
Proof.
  eexists. split; [reflexivity|].
  edestruct (X7_blocked_write_stalls 0 at_blocked_write 1%nat
               (Output "u" 0) [Output "v" 1] (Slot (new_chan 0) 0 false)
               [EvPush 3%nat; EvRecv 1; EvCloseSrc; EvStart]%nat)
    as (H1 & H2 & _).
  - exists blocked_write. reflexivity.
  - reflexivity.
  - reflexivity.
  - repeat split; simpl; lia.
  - repeat constructor; discriminate.
  - reflexivity.
  - split; [exact H1|exact H2].
Defined.

(** *** A negative timeout *)

(** X8: a negative timeout is not zero, so the constructor takes the
    timeout writer; its timer has nothing to sleep: at the select no time
    can pass and the [kill] case is ready at once, so a write to an output
    that is not ready can be abandoned right away. *)
Theorem X8_negative_timeout cap D w i x o t s :
  D < 0 ->
  reachable_from (NewNonBlockingPairMux (new_chan cap) D) w ->
  crashed w = None ->
  loops w !! i = Some (PTimed x o t s) ->
  writer (mux w) = WriterTimeout D /\ s < 0 /\
  step w (EvTick i) = None /\
  step w (EvKill i) = Some (goto i (PWrite x t) w).
Proof.
  intros HD [Hreach Hwr]%reachable_from_nonblocking Ha Hi.
  pose proof (reachable_Inv _ Hreach) as HI.
  destruct (Z.eqb_spec D 0) as [?|_]; [lia|]. simpl in Hwr.
  destruct (loops_single _ _ _ HI Hi) as (-> & Hl & Hcur & _).
  destruct (inv_timed _ HI x o t s Hcur) as (d & Hd & Hs).
  rewrite Hwr in Hd. injection Hd as <-.
  split; [done|]. split; [lia|]. unfold step. rewrite Ha. simpl.
  rewrite Hl. simpl. unfold timeout_select_kill.
  destruct (Z.ltb_spec 0 s); [lia|].
  by destruct (Z.leb_spec s 0); [|lia].
Qed.

Lemma X8_negative_timeout_witness :
  step at_negative_timeout (EvTick 0) = None /\
  step at_negative_timeout (EvKill 0) =
    Some (goto 0 (PWrite 1%nat []) at_negative_timeout).
Proof.
  edestruct (X8_negative_timeout 0 (-5) at_negative_timeout 0%nat 1%nat
               (Output "u" 0) [] (-5)) as (_ & _ & H1 & H2).
  - lia.
  - exists negative_timeout. reflexivity.
  - reflexivity.
  - reflexivity.
  - split; [exact H1|exact H2].
Defined.

(** *** Running to completion with nobody reading *)

Lemma alone_refl w : crashed w = None -> leads_alone w [] w.
Proof. intros H. by repeat split. Qed.

Lemma alone_step w e w1 es w' :
  crashed w = None -> unattended e -> perform e w = Returns w1 ->
  leads_alone w1 es w' -> leads_alone w (e :: es) w'.
Proof.
  intros Ha Hq Hp (Hqs & Hr & Ha'). repeat split; [by constructor| |done].
  simpl. unfold step. by rewrite Ha, Hp.
Qed.

Lemma alone_trans w es1 w1 es2 w2 :
  leads_alone w es1 w1 -> leads_alone w1 es2 w2 ->
  leads_alone w (es1 ++ es2) w2.
Proof.
  intros (Hq1 & Hr1 & _) (Hq2 & Hr2 & Ha). repeat split; [|
    by rewrite run_app, Hr1 | done].
  by apply Forall_app.
Qed.

Lemma alone_good w es w' : good w -> leads_alone w es w' -> good w'.
Proof. intros Hg (_ & Hr & Ha). by eapply good_run. Qed.

Lemma alone_loop w p w1 es w' :
  good w -> loops w = [p] -> loop_step 0 p w = Returns w1 ->
  leads_alone w1 es w' -> leads_alone w (EvLoop 0 :: es) w'.
Proof.
  intros Hg Hl Hs Hrest. eapply alone_step; eauto; [apply Hg|done|].
  simpl. by rewrite Hl.
Qed.

(** The timer of a pending write sleeps its time, then [kill] wins. *)
Lemma timer_runs_out w x o t s :
  crashed w = None -> loops w = [PTimed x o t s] ->
  run w (replicate (Z.to_nat s) (EvTick 0) ++ [EvKill 0])
    = Some (goto 0 (PWrite x t) w).
Proof.
  intros Ha Hl. rewrite run_app.
  assert (forall v s', crashed v = None ->
            loops v = [PTimed x o t s'] -> s' <= 0 ->
            run v [EvKill 0%nat] = Some (goto 0 (PWrite x t) v)) as Hkill.
  { intros v s' Hv Hlv Hs'. simpl. unfold step. rewrite Hv. simpl.
    rewrite Hlv. simpl. unfold timeout_select_kill.
    by destruct (Z.leb_spec s' 0); [|lia]. }
  destruct (Z.to_nat s) as [|k] eqn:Hk.
  - simpl replicate. apply (Hkill w s); auto. lia.
  - rewrite (ticks (S k) w 0%nat x o t s); [|done|by rewrite Hl|lia].
    rewrite (Hkill _ (s - Z.of_nat (S k))); [|done| |lia].
    + by rewrite goto_goto.
    + simpl. by rewrite Hl.
Qed.

Lemma timer_leads_alone w x o t s :
  crashed w = None -> loops w = [PTimed x o t s] ->
  leads_alone w (replicate (Z.to_nat s) (EvTick 0) ++ [EvKill 0])
              (goto 0 (PWrite x t) w).
Proof.
  intros Ha Hl. split; [|split; [by eapply timer_runs_out|done]].
  apply Forall_app. split; [|by repeat constructor].
  by apply Forall_replicate.
Qed.

Lemma nonBlockingOutputWriter_frame o x w w0 :
  nonBlockingOutputWriter o x w = Returns w0 ->
  loops w0 = loops w /\ mux w0 = mux w /\ crashed w0 = crashed w.
Proof.
  unfold nonBlockingOutputWriter.
  destruct (blockingOutputWriter o x w) as [w1| |] eqn:Hb; intros [= <-];
    [|done].
  by apply blockingOutputWriter_inv in Hb as (sl & ch & _ & _ & ->).
Qed.

Lemma write_one_alone w p x o t :
  good w -> writer (mux w) <> WriterBlocking ->
  loops w = [p] -> offering p x o t ->
  exists es w',
    leads_alone w es w' /\ loops w' = [PWrite x t] /\
    src (mux w') = src (mux w).
Proof.
  intros Hg Hwr Hl Hp. pose proof (good_alive _ Hg) as Ha.
  destruct Hp as [-> | (s & ->)].
  - destruct (writer (mux w)) as [| |d] eqn:Hw; [done| |].
    + assert (forall q, loop_step 0 (PWrite x (o :: t)) w <> Panics q) as Hno
        by (intros q; by apply loop_step_no_panic; [apply Hg|]).
      simpl in Hno. unfold call_writer in Hno. rewrite Hw in Hno.
      destruct (nonBlockingOutputWriter o x w) as [w0| |q] eqn:Hn.
      * destruct (nonBlockingOutputWriter_frame _ _ _ _ Hn)
          as (Hl0 & Hm0 & Ha0).
        exists [EvLoop 0%nat], (goto 0 (PWrite x t) w0).
        split; [|split; [by simpl; rewrite Hl0, Hl|by simpl; rewrite Hm0]].
        eapply alone_loop; eauto.
        -- simpl. unfold call_writer. by rewrite Hw, Hn.
        -- apply alone_refl. simpl. congruence.
      * unfold nonBlockingOutputWriter in Hn.
        by destruct (blockingOutputWriter o x w).
      * by destruct (Hno q).
    + set (w1 := goto 0 (PTimed x o t d) w).
      exists (EvLoop 0%nat ::
              replicate (Z.to_nat d) (EvTick 0) ++ [EvKill 0%nat]),
             (goto 0 (PWrite x t) w1).
      split; [|split; [by simpl; rewrite Hl|done]].
      eapply alone_loop; eauto.
      * simpl. unfold call_writer. by rewrite Hw.
      * eapply timer_leads_alone; [done|]. subst w1. simpl. by rewrite Hl.
  - exists (replicate (Z.to_nat s) (EvTick 0) ++ [EvKill 0%nat]),
           (goto 0 (PWrite x t) w).
    split; [by eapply timer_leads_alone|].
    split; [by simpl; rewrite Hl|done].
Qed.

Lemma alone_writer w es w' :
  leads_alone w es w' -> writer (mux w') = writer (mux w).
Proof. intros (_ & Hr & _). by eapply run_writer. Qed.

Lemma write_all_alone t : forall w x,
  good w -> writer (mux w) <> WriterBlocking -> loops w = [PWrite x t] ->
  exists es w',
    leads_alone w es w' /\ loops w' = [PRecv] /\
    src (mux w') = src (mux w).
Proof.
  induction t as [|o t IH]; intros w x Hg Hwr Hl.
  - exists [EvLoop 0%nat], (goto 0 PRecv w). split; [|by simpl; rewrite Hl].
    eapply alone_loop; eauto. apply alone_refl, Hg.
  - destruct (write_one_alone w _ x o t Hg Hwr Hl)
      as (es1 & w1 & Hl1 & Hp1 & Hs1); [by left|].
    destruct (IH w1 x) as (es2 & w2 & Hl2 & Hp2 & Hs2);
      [by eapply alone_good|by rewrite (alone_writer _ _ _ Hl1)|done|].
    exists (es1 ++ es2), w2. split; [by eapply alone_trans|].
    split; [done|congruence].
Qed.

Lemma shutdown_alone w p :
  good w -> loops w = [p] ->
  p = PShutLock \/ (exists t, p = PShutClose t) \/ p = PShutUnlock ->
  exists es w', leads_alone w es w' /\ loops w' = [PDone].
Proof.
  intros Hg Hl Hp.
  assert (forall v, good v -> loops v = [PShutUnlock] ->
            exists es v', leads_alone v es v' /\ loops v' = [PDone])
    as Hunlock.
  { intros v Hv Hlv.
    exists [EvLoop 0%nat],
           (goto 0 PDone (set_mux v (set_lock (mux v) false))).
    split; [|by simpl; rewrite Hlv].
    eapply alone_loop; eauto. apply alone_refl, Hv. }
  assert (forall v w1, good v -> loops v = [PShutClose []] ->
            loop_step 0 (PShutClose []) v = Returns w1 ->
            loops w1 = [PShutUnlock]) as Hsig.
  { intros v w1 Hv Hlv. simpl.
    destruct (chan_send (Finished (mux v)) true); intros [= <-]; simpl;
      by rewrite Hlv. }
  assert (forall t v, good v -> loops v = [PShutClose t] ->
            exists es v', leads_alone v es v' /\ loops v' = [PDone])
    as Hclose.
  { induction t as [|o t IH]; intros v Hv Hlv.
    - assert (exists w1, loop_step 0 (PShutClose []) v = Returns w1)
        as [w1 Hs].
      { pose proof (good_inv _ Hv) as HI. simpl. unfold chan_send.
        rewrite (inv_fin_open _ HI).
        destruct (ch_recvq (Finished (mux v))) as [|r q]; [|eauto].
        pose proof (inv_fin_sent _ HI) as Hsent.
        rewrite (cur_single _ _ Hlv) in Hsent.
        destruct (inv_fin_wf _ HI) as (Hwf & _). simpl in Hsent.
        rewrite Hsent in Hwf. symmetry in Hwf.
        apply app_eq_nil in Hwf as [_ ->]. rewrite (inv_fin_cap _ HI).
        simpl. eauto. }
      destruct (Hunlock w1) as (es & v' & Hle & Hl');
        [by eapply loop_good|by eapply Hsig|].
      exists (EvLoop 0%nat :: es), v'. split; [|done]. by eapply alone_loop.
    - pose proof (cur_single _ _ Hlv) as Hcur.
      destruct (pending_slot v o Hv) as (sl & Hsl & [_ Hcl _ _] & _).
      { rewrite Hcur. by left. }
      rewrite Hcur in Hcl. destruct Hcl as [_ Hcl].
      assert (ch_closed (sl_ch sl) = false) as Hopen.
      { apply Hcl. rewrite fmap_cons. by left. }
      assert (exists w1, loop_step 0 (PShutClose (o :: t)) v = Returns w1 /\
                         loops w1 = [PShutClose t]) as (w1 & Hs & Hl1).
      { simpl. rewrite Hsl. unfold chan_close. rewrite Hopen.
        eexists. split; [done|]. simpl. by rewrite Hlv. }
      destruct (IH w1) as (es & v' & Hle & Hl'); [by eapply loop_good|done|].
      exists (EvLoop 0%nat :: es), v'. split; [|done]. by eapply alone_loop. }
  destruct Hp as [-> | [[t ->] | ->]]; [|by eapply Hclose|by apply Hunlock].
  pose proof (inv_lock _ (good_inv _ Hg)) as Hlock.
  rewrite (cur_single _ _ Hl) in Hlock. simpl in Hlock.
  assert (exists w1, loop_step 0 PShutLock w = Returns w1 /\
                     loops w1 = [PShutClose (outputs (mux w))])
    as (w1 & Hs & Hl1).
  { simpl. rewrite Hlock. eexists. split; [done|]. simpl. by rewrite Hl. }
  destruct (Hclose (outputs (mux w)) w1) as (es & w' & Hle & Hl');
    [by eapply loop_good|done|].
  exists (EvLoop 0%nat :: es), w'. split; [|done]. by eapply alone_loop.
Qed.

Lemma drain_alone b : forall w,
  good w -> writer (mux w) <> WriterBlocking -> loops w = [PRecv] ->
  ch_buf (src (mux w)) = b -> ch_closed (src (mux w)) = true ->
  exists es w', leads_alone w es w' /\ loops w' = [PDone].
Proof.
  induction b as [|x b IH]; intros w Hg Hwr Hl Hb Hc.
  - assert (exists w1, loop_step 0 PRecv w = Returns w1 /\
                       loops w1 = [PShutLock]) as (w1 & Hs & Hl1).
    { simpl. unfold chan_recv. rewrite Hb, Hc.
      eexists. split; [done|]. simpl. by rewrite Hl. }
    destruct (shutdown_alone w1 PShutLock) as (es & w' & Hle & Hl');
      [by eapply loop_good|done|by left|].
    exists (EvLoop 0%nat :: es), w'. split; [|done]. by eapply alone_loop.
  - assert (exists w1, loop_step 0 PRecv w = Returns w1 /\
                       loops w1 = [PSnap x] /\
                       ch_buf (src (mux w1)) = b /\
                       ch_closed (src (mux w1)) = true /\
                       writer (mux w1) = writer (mux w))
      as (w1 & Hs1 & Hl1 & Hb1 & Hc1 & Hw1).
    { simpl. unfold chan_recv. rewrite Hb.
      eexists. split; [done|]. simpl. by rewrite Hl. }
    assert (good w1) as Hg1 by by eapply loop_good.
    pose proof (inv_lock _ (good_inv _ Hg1)) as Hlock.
    rewrite (cur_single _ _ Hl1) in Hlock. simpl in Hlock.
    assert (exists w2, loop_step 0 (PSnap x) w1 = Returns w2 /\
                       loops w2 = [PWrite x (outputs (mux w1))] /\
                       mux w2 = mux w1)
      as (w2 & Hs2 & Hl2 & Hm2).
    { simpl. rewrite Hlock.
      eexists. split; [done|]. simpl. by rewrite Hl1. }
    assert (good w2) as Hg2 by by eapply loop_good.
    destruct (write_all_alone (outputs (mux w1)) w2 x Hg2)
      as (es3 & w3 & Hle3 & Hl3 & Hsrc3);
      [by rewrite Hm2, Hw1|done|].
    destruct (IH w3) as (es & w' & Hle & Hl'); try done.
    { by eapply alone_good. }
    { by rewrite (alone_writer _ _ _ Hle3), Hm2, Hw1. }
    { by rewrite Hsrc3, Hm2. }
    { by rewrite Hsrc3, Hm2. }
    exists (EvLoop 0%nat :: EvLoop 0%nat :: es3 ++ es), w'. split; [|done].
    eapply alone_loop; eauto. eapply alone_loop; eauto.
    by eapply alone_trans.
Qed.

Lemma recv_alone w :
  good w -> writer (mux w) <> WriterBlocking -> loops w = [PRecv] ->
  exists es w', leads_alone w es w' /\ loops w' = [PDone].
Proof.
  intros Hg Hwr Hl. destruct (ch_closed (src (mux w))) eqn:Hc.
  { by eapply drain_alone. }
  assert (exists w1, perform EvCloseSrc w = Returns w1 /\
                     loops w1 = [PRecv] /\
                     ch_closed (src (mux w1)) = true /\
                     writer (mux w1) = writer (mux w))
    as (w1 & Hs & Hl1 & Hc1 & Hw1).
  { simpl. unfold close_src, chan_close. rewrite Hc.
    eexists. split; [done|]. by simpl. }
  destruct (drain_alone (ch_buf (src (mux w1))) w1)
    as (es & w' & Hle & Hl'); try done.
  { by eapply good_perform. }
  { by rewrite Hw1. }
  exists (EvCloseSrc :: es), w'. split; [|done].
  eapply alone_step; eauto; [apply Hg|done].
Qed.

Lemma write_alone w x t :
  good w -> writer (mux w) <> WriterBlocking -> loops w = [PWrite x t] ->
  exists es w', leads_alone w es w' /\ loops w' = [PDone].
Proof.
  intros Hg Hwr Hl.
  destruct (write_all_alone _ w x Hg Hwr Hl) as (es1 & w1 & Hle1 & Hl1 & _).
  destruct (recv_alone w1) as (es & w' & Hle & Hl'); [| |done|].
  { by eapply alone_good. }
  { by rewrite (alone_writer _ _ _ Hle1). }
  exists (es1 ++ es), w'. split; [|done]. by eapply alone_trans.
Qed.

Lemma finish_alone w :
  good w -> writer (mux w) <> WriterBlocking ->
  exists es w', leads_alone w es w' /\ loops w' = [PDone].
Proof.
  intros Hg Hwr. pose proof (good_inv _ Hg) as HI.
  destruct (loops_shape _ HI) as [Hnil | Hl].
  - pose proof (inv_loops _ HI) as Hlen. rewrite Hnil in Hlen.
    pose proof (inv_lock _ HI) as Hlock. unfold cur in Hlock.
    rewrite Hnil in Hlock. simpl in Hlock, Hlen.
    destruct (started (mux w)) eqn:Hst; [done|].
    assert (exists w1, perform EvStart w = Returns w1 /\
                       loops w1 = [PRecv] /\
                       writer (mux w1) = writer (mux w))
      as (w1 & Hs & Hl1 & Hw1).
    { simpl. unfold Start. rewrite Hlock, Hst.
      eexists. split; [done|]. simpl. by rewrite Hnil. }
    destruct (recv_alone w1) as (es & w' & Hle & Hl'); [| |done|].
    { by eapply good_perform. }
    { by rewrite Hw1. }
    exists (EvStart :: es), w'. split; [|done].
    eapply alone_step; eauto; [apply Hg|done].
  - destruct (cur w) as [|x|x t|x o t s| |t| |] eqn:Hcur.
    + by apply recv_alone.
    + pose proof (inv_lock _ HI) as Hlock. rewrite Hcur in Hlock.
      simpl in Hlock.
      assert (exists w1, loop_step 0 (PSnap x) w = Returns w1 /\
                         loops w1 = [PWrite x (outputs (mux w))] /\
                         mux w1 = mux w)
        as (w1 & Hs & Hl1 & Hm1).
      { simpl. rewrite Hlock.
        eexists. split; [done|]. simpl. by rewrite Hl. }
      destruct (write_alone w1 x (outputs (mux w)))
        as (es & w' & Hle & Hl'); [|by rewrite Hm1|done|].
      { by eapply loop_good. }
      exists (EvLoop 0%nat :: es), w'. split; [|done]. by eapply alone_loop.
    + by eapply write_alone.
    + destruct (write_one_alone w _ x o t Hg Hwr Hl)
        as (es1 & w1 & Hle1 & Hl1 & _).
      { right. eauto. }
      destruct (write_alone w1 x t) as (es & w' & Hle & Hl'); [| |done|].
      { by eapply alone_good. }
      { by rewrite (alone_writer _ _ _ Hle1). }
      exists (es1 ++ es), w'. split; [|done]. by eapply alone_trans.
    + eapply shutdown_alone; eauto.
    + eapply shutdown_alone; eauto.
    + eapply shutdown_alone; eauto.
    + exists [], w. split; [|done]. apply alone_refl, Hg.
Qed.

(** X9: a mux made by [NewNonBlockingPairMux], with or without a
    timeout, never depends on its consumers: from any world that has not
    panicked its goroutine can be run to its end, every item read from the
    source, the outputs closed and the signal sent, by a schedule in which
    the source is closed, the goroutine runs and time passes, and no
    consumer ever receives. *)
Theorem X9_completes_unattended cap D w :
  reachable_from (NewNonBlockingPairMux (new_chan cap) D) w ->
  crashed w = None ->
  exists es w',
    Forall unattended es /\ run w es = Some w' /\
    loops w' = [PDone] /\ crashed w' = None /\
    ch_got (src (mux w')) = ch_sent (src (mux w')) /\
    ch_sent (Finished (mux w')) = [true] /\
    forall h sl, chans w !! h = Some sl -> sl_late sl = false ->
      exists sl', chans w' !! h = Some sl' /\
                  ch_closed (sl_ch sl') = true.
Proof.
  intros [Hreach Hwr]%reachable_from_nonblocking Ha.
  pose proof (reachable_Inv _ Hreach) as HI.
  assert (good w) as Hg by (split; [done|by apply reachable_caps_ok|done]).
  destruct (finish_alone w Hg) as (es & w' & (Hq & Hrun & Ha') & Hl').
  { rewrite Hwr. by destruct (negb (D =? 0)). }
  assert (Inv w') as HI' by by eapply Inv_run.
  pose proof (cur_single _ _ Hl') as Hcur.
  exists es, w'. do 4 (split; [done|]). split; [|split].
  - destruct (inv_src_end _ HI') as (_ & Hb & _); [by rewrite Hcur|].
    destruct (inv_src_wf _ HI') as (-> & _). by rewrite Hb, app_nil_r.
  - by rewrite (inv_fin_sent _ HI'), Hcur.
  - intros h sl Hh Hlate.
    destruct (run_slot _ _ _ _ _ Hrun Hh) as (sl' & Hh' & Hlate' & _).
    exists sl'. split; [done|].
    eapply done_slot_closed; eauto.
Qed.

Lemma X9_completes_unattended_witness :
  exists es w',
    Forall unattended es /\
    run before_unread_throughout es = Some w' /\ loops w' = [PDone].
Proof.
  destruct (X9_completes_unattended 0 0 before_unread_throughout)
    as (es & w' & H1 & H2 & H3 & _).
  - exists unread_throughout. reflexivity.
  - reflexivity.
  - by exists es, w'.
Defined.

(** *** A full output that nobody reads *)




(** *** An output registered while the goroutine runs *)

Lemma Gap_boot m : constructed m -> Gap (boot m).
Proof. by intros [[cap ->] | (cap & t & ->)]; split. Qed.

Lemma gapless_same p p' read h sl sl' :
  owesb p' h = owesb p h ->
  ch_sent (sl_ch sl') = ch_sent (sl_ch sl) -> sl_born sl' = sl_born sl ->
  gapless p read h sl -> gapless p' read h sl'.
Proof.
  intros Ho Hs Hb (j & ? & ? & ? & ?). exists j. unfold offered in *.
  rewrite Ho, Hs, Hb. done.
Qed.

(** A step that leaves alone what was read, what is owed and what was
    sent. *)
Lemma Gap_transfer w w' :
  Gap w ->
  (forall h, (h < length (chans w))%nat ->
             owesb (cur w') h = owesb (cur w) h) ->
  (shutting (cur w') = false ->
   shutting (cur w) = false /\
   ch_eos (src (mux w')) = ch_eos (src (mux w))) ->
  (ch_eos (src (mux w)) <= ch_eos (src (mux w')))%nat ->
  ch_got (src (mux w')) = ch_got (src (mux w)) ->
  length (chans w') = length (chans w) ->
  (forall h sl, chans w !! h = Some sl ->
     exists sl', chans w' !! h = Some sl' /\
                 ch_sent (sl_ch sl') = ch_sent (sl_ch sl) /\
                 sl_born sl' = sl_born sl) ->
  Gap w'.
Proof.
  intros [He Hb Hs] Ho Hsh Hle Hg Hlen Hfw.
  assert (forall h sl', chans w' !! h = Some sl' ->
            exists sl, chans w !! h = Some sl /\
                       ch_sent (sl_ch sl') = ch_sent (sl_ch sl) /\
                       sl_born sl' = sl_born sl) as Hbw.
  { intros h sl' Hh. pose proof (lookup_lt_Some _ _ _ Hh) as Hlt.
    rewrite Hlen in Hlt. destruct (lookup_lt_is_Some_2 _ _ Hlt) as [sl Hsl].
    destruct (Hfw _ _ Hsl) as (sl'' & Hh'' & ? & ?).
    exists sl. by simplify_eq. }
  split.
  - intros Hn. destruct (Hsh Hn) as [Hn' ->]. by apply He.
  - intros h sl' (sl & Hsl & _ & ->)%Hbw. rewrite Hg.
    specialize (Hb _ _ Hsl). lia.
  - intros h sl' (sl & Hsl & Hsent & Hborn)%Hbw. rewrite Hg.
    eapply gapless_same; [|done|done|by apply Hs].
    apply Ho. by eapply lookup_lt_Some.
Qed.

Lemma insert_slots (cs : list slot) h0 s0 ch :
  cs !! h0 = Some s0 -> ch_sent ch = ch_sent (sl_ch s0) ->
  forall h sl, cs !! h = Some sl ->
    exists sl', <[h0 := set_ch s0 ch]> cs !! h = Some sl' /\
                ch_sent (sl_ch sl') = ch_sent (sl_ch sl) /\
                sl_born sl' = sl_born sl.
Proof.
  intros H0 Hs h sl Hh. destruct (decide (h = h0)) as [->|Hne].
  - rewrite list_lookup_insert_eq by (by eapply lookup_lt_Some).
    eexists. split; [done|]. simplify_eq. done.
  - rewrite list_lookup_insert_ne by done. eauto.
Qed.

Lemma Gap_AddOutput nm buf w w' h :
  Inv w -> Gap w -> AddOutput nm buf w = Returns (w', h) -> Gap w'.
Proof.
  intros HI [He Hb Hs]. unfold AddOutput.
  destruct (make_chan buf) as [c|] eqn:Hc; [|done].
  destruct (lock (mux w)); [done|]. intros [= <- <-].
  assert (ch_sent c = []) as Hsent.
  { by apply make_chan_Some in Hc as [-> _]. }
  split; unfold cur; simpl; fold (cur w); [done| |].
  - intros h sl [Hh | [Hlen Hh]]%lookup_app_Some; [by apply (Hb h)|].
    destruct (h - length (chans w))%nat; simpl in Hh; [|done].
    by simplify_eq.
  - intros h sl [Hh | [Hlen Hh]]%lookup_app_Some; [by apply (Hs h)|].
    destruct (h - length (chans w))%nat eqn:Hd; simpl in Hh; [|done].
    simplify_eq. assert (h = length (chans w)) as -> by lia.
    unfold gapless, offered. simpl. rewrite Hsent.
    assert (bool_decide (length (chans w) ∈ dst <$> pending (cur w))
            = false) as Hnot.
    { apply bool_decide_eq_false. intros Hin.
      apply list_elem_of_fmap in Hin as (o & Ho & Hin).
      apply (inv_pending_sub _ HI) in Hin.
      assert (dst o ∈ dst <$> outputs (mux w)) as Hd'
        by (apply list_elem_of_fmap; eauto).
      rewrite (inv_handles _ HI) in Hd'. apply elem_of_seq in Hd'. lia. }
    revert Hnot.
    destruct (cur w) as [|x|x t|x o t s| |t| |] eqn:Hp; simpl; intros Hnot;
      rewrite ?Hnot;
      try (eexists; split; [|split; [reflexivity|split; [done|]]];
           [lia | by rewrite drop_ge by lia]).
    destruct (inv_flight _ HI x) as [prev Hprev]; [by rewrite Hp|].
    rewrite He by done. rewrite Hprev, removelast_last, length_app. simpl.
    exists (length prev). split; [lia|]. split; [lia|]. split; [done|].
    by rewrite drop_all.
Qed.

Lemma Gap_recv_value w x c :
  Inv w -> Gap w -> loops w = [PRecv] ->
  chan_recv (src (mux w)) = RecvValue x c ->
  Gap (goto 0 (PSnap x) (set_mux w (set_src (mux w) c))).
Proof.
  intros HI [He Hb Hs] Hl Hr.
  assert (cur w = PRecv) as Hp by (by apply cur_single).
  rewrite Hp in *. specialize (He eq_refl).
  assert (ch_got c = ch_got (src (mux w)) ++ [x] /\
          ch_eos c = ch_eos (src (mux w))) as [Hg Heos].
  { unfold chan_recv in Hr. destruct (ch_buf (src (mux w)));
      [by destruct (ch_closed (src (mux w)))|]. by simplify_eq. }
  split; unfold cur, goto; simpl; rewrite ?Hl; simpl.
  - intros _. congruence.
  - intros h sl Hh. rewrite Hg, Heos, length_app. specialize (Hb _ _ Hh). lia.
  - intros h sl Hh. destruct (Hs _ _ Hh) as (j & Hj1 & Hj2 & _ & Hsent).
    specialize (Hb _ _ Hh). unfold gapless, offered in *. simpl in *.
    exists j. rewrite Hg, removelast_last.
    split; [done|]. split; [done|]. split; [lia|done].
Qed.

Lemma Gap_send w x o t w1 :
  Inv w -> Gap w -> loops w = [PWrite x (o :: t)] ->
  blockingOutputWriter o x w = Returns w1 ->
  Gap (goto 0 (PWrite x t) w1).
Proof.
  intros HI [He Hb Hs] Hl (s0 & ch & Hs0 & Hch & ->)%blockingOutputWriter_inv.
  assert (cur w = PWrite x (o :: t)) as Hp by (by apply cur_single).
  rewrite Hp in *.
  destruct (chan_send_inv _ _ _ Hch) as (_ & _ & Hsent & _).
  pose proof (inv_pending_nodup _ HI) as Hnd. rewrite Hp in Hnd.
  simpl in Hnd. apply NoDup_cons in Hnd as [Hnin _].
  destruct (inv_flight _ HI x) as [prev Hprev]; [by rewrite Hp|].
  split; unfold cur, goto; simpl; rewrite ?Hl; simpl.
  - done.
  - intros h sl Hh. destruct (decide (h = dst o)) as [->|Hne].
    + rewrite list_lookup_insert_eq in Hh by (by eapply lookup_lt_Some).
      simplify_eq. simpl. by apply (Hb (dst o)).
    + rewrite list_lookup_insert_ne in Hh by done. by apply (Hb h).
  - intros h sl Hh. destruct (decide (h = dst o)) as [->|Hne].
    + rewrite list_lookup_insert_eq in Hh by (by eapply lookup_lt_Some).
      simplify_eq. destruct (Hs _ _ Hs0) as (j & Hj1 & Hj2 & Hj3 & Hj4).
      unfold gapless, offered in *. simpl in *.
      rewrite bool_decide_eq_true_2 in Hj3, Hj4
        by (apply elem_of_cons; auto).
      rewrite bool_decide_eq_false_2 by done.
      rewrite Hprev, removelast_last in *. specialize (Hj3 eq_refl).
      exists j. split; [done|]. split; [done|]. split; [done|].
      rewrite Hsent, Hj4. by rewrite drop_app_le.
    + rewrite list_lookup_insert_ne in Hh by done.
      eapply gapless_same; [|done|done|by apply (Hs h)].
      simpl. apply bool_decide_ext. rewrite elem_of_cons. tauto.
Qed.

Lemma Gap_loop_step w p w' :
  Inv w -> writer (mux w) = WriterBlocking -> Gap w ->
  loops w = [p] -> loop_step 0 p w = Returns w' -> Gap w'.
Proof.
  intros HI Hw HG Hl.
  assert (cur w = p) as Hp by (by apply cur_single).
  assert (forall q v, loops v = loops w -> cur (goto 0 q v) = q) as Hcur.
  { intros q v Hv. unfold cur, goto. simpl. by rewrite Hv, Hl. }
  destruct p as [|x|x [|o t]|x o t s| |[|o t]| |]; simpl.
  - destruct (chan_recv (src (mux w))) as [x c|c|] eqn:Hr; intros [= <-].
    + by apply Gap_recv_value.
    + assert (ch_got c = ch_got (src (mux w)) /\
              ch_eos c = S (ch_eos (src (mux w)))) as [Hg Heos].
      { unfold chan_recv in Hr. destruct (ch_buf (src (mux w))); [|done].
        destruct (ch_closed (src (mux w))); by simplify_eq. }
      apply (Gap_transfer w); rewrite ?Hcur by done; simpl;
        rewrite ?Hp; try done; [lia|eauto].
  - destruct (lock (mux w)); intros [= <-].
    apply (Gap_transfer w); rewrite ?Hcur by done; simpl;
      rewrite ?Hp; try done; [|eauto].
    intros h Hh. apply bool_decide_eq_true_2.
    rewrite (inv_handles _ HI). apply elem_of_seq. lia.
  - intros [= <-].
    apply (Gap_transfer w); rewrite ?Hcur by done; simpl;
      rewrite ?Hp; try done; eauto.
  - unfold call_writer. rewrite Hw.
    intros (w1 & Hw1 & ->)%and_then_Returns. by eapply Gap_send.
  - destruct (inv_timed _ HI x o t s Hp) as (d & Hd & _). congruence.
  - destruct (lock (mux w)); intros [= <-].
    apply (Gap_transfer w); rewrite ?Hcur by done; simpl;
      rewrite ?Hp; try done; eauto.
  - destruct (chan_send (Finished (mux w)) true); intros [= <-];
      (apply (Gap_transfer w); rewrite ?Hcur by done; simpl;
       rewrite ?Hp; try done; eauto).
  - destruct (chans w !! dst o) as [s0|] eqn:Hs0; [|done].
    destruct (chan_close (sl_ch s0)) as [ch|] eqn:Hch; intros [= <-].
    destruct (chan_close_inv _ _ Hch) as (_ & _ & Hsent & _).
    apply (Gap_transfer w); rewrite ?Hcur by done; simpl;
      rewrite ?Hp, ?length_insert; try done.
    by apply insert_slots.
  - intros [= <-].
    apply (Gap_transfer w); rewrite ?Hcur by done; simpl;
      rewrite ?Hp; try done; eauto.
  - done.
Qed.

Lemma Gap_perform e w w' :
  Inv w -> writer (mux w) = WriterBlocking -> Gap w ->
  perform e w = Returns w' -> Gap w'.
Proof.
  intros HI Hw HG. destruct e as [x| |nm buf| | |c|i|i|i]; simpl.
  - unfold push. destruct (ch_closed (src (mux w))); intros [= <-].
    apply (Gap_transfer w); try done; eauto.
  - unfold close_src. destruct (chan_close (src (mux w))) as [c|] eqn:Hc;
      intros [= <-].
    unfold chan_close in Hc. destruct (ch_closed (src (mux w))); [done|].
    simplify_eq.
    apply (Gap_transfer w); simpl; rewrite ?(inv_src_recvq _ HI); simpl;
      rewrite ?Nat.add_0_r; try done; eauto.
  - destruct (AddOutput nm buf w) as [[w1 h]| |] eqn:Ha; intros [= <-].
    by eapply Gap_AddOutput.
  - unfold Start. destruct (lock (mux w)); [done|].
    destruct (started (mux w)) eqn:Hst; intros [= <-]; [done|].
    pose proof (inv_loops _ HI) as Hlen. rewrite Hst in Hlen.
    apply nil_length_inv in Hlen.
    apply (Gap_transfer w); unfold cur; simpl; rewrite ?Hlen; try done; eauto.
  - intros [= <-]. unfold WaitUntilFinished.
    destruct (chan_recv (Finished (mux w)));
      (apply (Gap_transfer w); try done; eauto).
  - unfold consume. destruct (chans w !! c) as [sl|] eqn:Hsl; [|done].
    intros [= <-].
    apply (Gap_transfer w); simpl; rewrite ?length_insert; try done.
    apply insert_slots; [done|].
    unfold chan_recv, chan_park.
    destruct (ch_buf (sl_ch sl)); [destruct (ch_closed (sl_ch sl))|]; done.
  - destruct (loops w !! i) as [p|] eqn:Hi; [|done].
    destruct (loops_single _ _ _ HI Hi) as (-> & Hl & _).
    by apply Gap_loop_step.
  - destruct (loops w !! i) as [p|] eqn:Hi; [|done].
    destruct (loops_single _ _ _ HI Hi) as (-> & Hl & Hp & _).
    destruct p; simpl; try done.
    destruct (inv_timed _ HI _ _ _ _ Hp) as (d & Hd & _). congruence.
  - destruct (loops w !! i) as [p|] eqn:Hi; [|done].
    destruct (loops_single _ _ _ HI Hi) as (-> & Hl & Hp & _).
    destruct p; simpl; try done.
    destruct (inv_timed _ HI _ _ _ _ Hp) as (d & Hd & _). congruence.
Qed.

Lemma Gap_run es : forall w w',
  Inv w -> writer (mux w) = WriterBlocking -> Gap w ->
  run w es = Some w' -> Gap w'.
Proof.
  induction es as [|e es IH]; simpl; intros w w' HI Hw HG.
  - by intros [= <-].
  - unfold step. destruct (crashed w); [done|].
    destruct (perform e w) as [w1| |p] eqn:Hp; [|done|]; intros Hr.
    + apply (IH w1); [by eapply Inv_perform| |by eapply Gap_perform|done].
      destruct (perform_frame _ _ _ Hp) as (_ & -> & _). done.
    + apply (IH (set_crashed w (Some p)));
        [by apply Inv_set_crashed|done| |done].
      by destruct HG.
Qed.

(** X12: under the blocking writer an output has no gaps, whenever it was
    registered: what it has been sent is the items read from the source
    from some item on, all of them but possibly the one in flight, and
    that first item is the first one read after the registration or the
    one just before it (the item in flight when AddOutput came before the
    goroutine took its snapshot of the outputs).  Once its channel is
    closed it has been sent the items pushed to the source from that item
    on. *)
Theorem X12_joined_output_has_no_gaps cap w h sl :
  reachable_from (NewBlockingPairMux (new_chan cap)) w ->
  chans w !! h = Some sl ->
  exists j : nat,
    (sl_born sl <= S j)%nat /\ (j <= sl_born sl)%nat /\
    (ch_sent (sl_ch sl) = drop j (ch_got (src (mux w))) \/
     exists x, in_flight (cur w) = Some x /\
               ch_sent (sl_ch sl) ++ [x] = drop j (ch_got (src (mux w)))) /\
    (ch_closed (sl_ch sl) = true ->
     ch_sent (sl_ch sl) = drop j (ch_sent (src (mux w)))).
Proof.
  intros Hr Hh.
  destruct (reachable_from_blocking _ _ Hr) as [Hreach Hw].
  pose proof (reachable_Inv _ Hreach) as HI.
  assert (Gap w) as HG.
  { destruct Hr as [es Hr]. eapply (Gap_run es (boot _)); [| | |done].
    - apply Inv_boot. left. eauto.
    - done.
    - apply Gap_boot. left. eauto. }
  destruct (gap_slots _ HG _ _ Hh) as (j & Hj1 & Hj2 & Hj3 & Hj4).
  exists j. split; [done|]. split; [done|]. unfold offered in *.
  destruct (owesb (cur w) h) eqn:Ho.
  - assert (exists x, in_flight (cur w) = Some x) as [x Hx]
      by (destruct (cur w); simpl in *; eauto; done).
    destruct (inv_flight _ HI _ Hx) as [prev Hprev].
    rewrite Hprev, removelast_last in *. specialize (Hj3 eq_refl).
    split.
    + right. exists x. split; [done|]. by rewrite Hj4, drop_app_le.
    + intros Hc. destruct (inv_slots _ HI _ _ Hh) as [_ Hcl _ _].
      destruct (cur w); simpl in *; try done; destruct Hcl; congruence.
  - split; [by left|]. intros Hc.
    destruct (inv_slots _ HI _ _ Hh) as [_ Hcl _ _].
    destruct (inv_src_wf _ HI) as (Hsrc & _).
    pose proof (inv_src_end _ HI) as Hend.
    destruct (cur w); simpl in *; try (destruct Hcl; congruence);
      destruct Hend as (_ & Hb & _); auto;
      by rewrite Hj4, Hsrc, Hb, app_nil_r.
Qed.

Lemma X12_joined_output_has_no_gaps_witness :
  reachable_from (NewBlockingPairMux (new_chan 0)) after_joins_midway /\
  ch_sent (src (mux after_joins_midway)) = [1; 2; 3]%nat /\
  exists sl,
    chans after_joins_midway !! 0%nat = Some sl /\
    sl_born sl = 2%nat /\ ch_closed (sl_ch sl) = true /\
    exists j : nat, (2 <= S j)%nat /\
                    ch_sent (sl_ch sl) = drop j [1; 2; 3]%nat.
Proof.
  assert (reachable_from (NewBlockingPairMux (new_chan 0))
            after_joins_midway) as Hr by (exists joins_midway; reflexivity).
  split; [exact Hr|]. split; [reflexivity|].
  eexists. split; [reflexivity|]. split; [reflexivity|].
  split; [reflexivity|].
  destruct (X12_joined_output_has_no_gaps 0 after_joins_midway 0%nat _
              Hr eq_refl) as (j & Hj1 & _ & _ & Hj4).
  exists j. split; [exact Hj1|]. exact (Hj4 eq_refl).
Defined.
(** *** The order in which the outputs are served *)

Lemma Ord_boot m : constructed m -> Ord (boot m).
Proof.
  intros [[cap ->] | (cap & t & ->)]; exists 0%nat, 0%nat; by simpl.
Qed.

Lemma ordered_slots p (cs cs' : list slot) :
  length cs' = length cs ->
  (forall h sl, cs !! h = Some sl ->
     exists sl', cs' !! h = Some sl' /\ sl_born sl' = sl_born sl) ->
  ordered p cs -> ordered p cs'.
Proof.
  intros Hlen Hfw (k & n & Hs & Hle & Hb). exists k, n.
  split; [done|]. split; [lia|]. intros Hr h sl' Hh Hge.
  pose proof (lookup_lt_Some _ _ _ Hh) as Hlt. rewrite Hlen in Hlt.
  destruct (lookup_lt_is_Some_2 _ _ Hlt) as [sl Hsl].
  destruct (Hfw _ _ Hsl) as (sl'' & Hh'' & Hbn). simplify_eq.
  rewrite Hbn. by eapply Hb.
Qed.

Lemma ordered_insert p (cs : list slot) h0 s0 ch :
  cs !! h0 = Some s0 -> ordered p cs -> ordered p (<[h0 := set_ch s0 ch]> cs).
Proof.
  intros H0. apply ordered_slots; [by rewrite length_insert|].
  intros h sl Hh. destruct (decide (h = h0)) as [->|Hne].
  - rewrite list_lookup_insert_eq by (by eapply lookup_lt_Some).
    eexists. split; [done|]. by simplify_eq.
  - rewrite list_lookup_insert_ne by done. eauto.
Qed.

(** The goroutine goes on to the next output, or stays at this one. *)
Lemma ordered_next p p' cs :
  (pending p = pending p' \/ exists o, pending p = o :: pending p') ->
  (ranging p' = true -> ranging p = true) ->
  ordered p cs -> ordered p' cs.
Proof.
  intros Hp Hr (k & n & Hs & Hle & Hb). destruct Hp as [Hp | [o Hp]].
  - exists k, n. rewrite <- Hp. split; [done|]. split; [done|].
    intros Hr'. by apply Hb, Hr.
  - rewrite Hp in Hs. destruct n as [|n]; [done|]. simpl in Hs.
    exists (S k), n. split; [by simplify_eq|]. split; [lia|].
    intros Hr' h sl Hh Hge. apply (Hb (Hr Hr') h); [done|lia].
Qed.

(** The goroutine takes all the outputs there are. *)
Lemma ordered_all p (cs : list slot) :
  dst <$> pending p = seq 0 (length cs) -> ordered p cs.
Proof.
  intros Hp. exists 0%nat, (length cs). split; [done|]. split; [done|].
  intros _ h sl Hh%lookup_lt_Some Hge. simpl in Hge. lia.
Qed.

Lemma ordered_none p (cs : list slot) :
  pending p = [] -> ranging p = false -> ordered p cs.
Proof.
  intros Hp Hr. exists 0%nat, 0%nat. rewrite Hp, Hr. split; [done|].
  split; [simpl; lia|done].
Qed.

Lemma Ord_AddOutput nm buf w w' h :
  Inv w -> Ord w -> AddOutput nm buf w = Returns (w', h) -> Ord w'.
Proof.
  intros HI (k & n & Hs & Hle & Hb). unfold AddOutput.
  destruct (make_chan buf) as [c|] eqn:Hc; [|done].
  destruct (lock (mux w)); [done|]. intros [= <- <-].
  unfold Ord, cur. simpl. fold (cur w). exists k, n.
  split; [done|]. rewrite length_app. simpl. split; [lia|].
  intros Hr h sl [Hh | [Hlen Hh]]%lookup_app_Some Hge; [by eapply Hb|].
  destruct (h - length (chans w))%nat; simpl in Hh; [|done].
  simplify_eq. simpl.
  assert (exists x, in_flight (cur w) = Some x) as [x Hx]
    by (destruct (cur w); simpl in *; eauto; done).
  destruct (inv_flight _ HI _ Hx) as [prev ->]. rewrite length_app.
  simpl. lia.
Qed.

Lemma blockingOutputWriter_ordered p o x w w1 :
  blockingOutputWriter o x w = Returns w1 ->
  ordered p (chans w) -> ordered p (chans w1).
Proof.
  intros (s0 & ch & Hs0 & _ & ->)%blockingOutputWriter_inv. simpl.
  by apply ordered_insert.
Qed.

Lemma Ord_loop_step w p w' :
  Inv w -> Ord w -> loops w = [p] -> loop_step 0 p w = Returns w' -> Ord w'.
Proof.
  intros HI HO Hl.
  assert (cur w = p) as Hp by (by apply cur_single).
  unfold Ord in HO. rewrite Hp in HO.
  assert (forall q v, loops v = loops w ->
            ordered q (chans v) -> Ord (goto 0 q v)) as Hgo.
  { intros q v Hv Hq. unfold Ord, cur, goto. simpl. by rewrite Hv, Hl. }
  destruct p as [|x|x [|o t]|x o t s| |[|o t]| |]; simpl.
  - destruct (chan_recv (src (mux w))) as [x c|c|] eqn:Hr; intros [= <-];
      (apply Hgo; [done|]); by apply ordered_none.
  - destruct (lock (mux w)); intros [= <-]. apply Hgo; [done|].
    apply ordered_all. simpl. apply (inv_handles _ HI).
  - intros [= <-]. apply Hgo; [done|]. by apply ordered_none.
  - unfold call_writer, nonBlockingOutputWriter.
    destruct (writer (mux w)).
    + intros (w1 & Hw1 & ->)%and_then_Returns.
      pose proof Hw1 as (s0 & ch & _ & _ & ->)%blockingOutputWriter_inv.
      apply Hgo; [done|].
      eapply blockingOutputWriter_ordered; [done|].
      refine (ordered_next _ _ _ _ _ HO); [|done]. right; by exists o.
    + intros (w1 & Hw1 & ->)%and_then_Returns.
      assert (ordered (PWrite x t) (chans w)) as Hn
        by (refine (ordered_next _ _ _ _ _ HO); [right; by exists o|done]).
      destruct (blockingOutputWriter o x w) as [w2| |] eqn:Hb; simplify_eq.
      * pose proof Hb as (s0 & ch & _ & _ & ->)%blockingOutputWriter_inv.
        apply Hgo; [done|]. by eapply blockingOutputWriter_ordered.
      * by apply Hgo.
    + intros [= <-]. apply Hgo; [done|].
      refine (ordered_next _ _ _ _ _ HO); [|done]. by left.
  - unfold timeout_select_send.
    intros (w1 & Hw1 & ->)%and_then_Returns.
    destruct (blockingOutputWriter o x w) as [w2| |] eqn:Hb; simplify_eq.
    pose proof Hb as (s0 & ch & _ & _ & ->)%blockingOutputWriter_inv.
    apply Hgo; [done|]. simpl.
    change (ordered (PWrite x t) (chans (set_leaked (set_chans w
              (<[dst o:=set_ch s0 ch]> (chans w))) (leaked w)))).
    eapply blockingOutputWriter_ordered; [done|].
    refine (ordered_next _ _ _ _ _ HO); [|done]. right; by exists o.
  - destruct (lock (mux w)); intros [= <-]. apply Hgo; [done|].
    apply ordered_all. simpl. apply (inv_handles _ HI).
  - destruct (chan_send (Finished (mux w)) true); intros [= <-];
      (apply Hgo; [done|]); by apply ordered_none.
  - destruct (chans w !! dst o) as [s0|] eqn:Hs0; [|done].
    destruct (chan_close (sl_ch s0)) as [ch|] eqn:Hch; intros [= <-].
    apply Hgo; [done|]. simpl. apply ordered_insert; [done|].
    refine (ordered_next _ _ _ _ _ HO); [|done]. right; by exists o.
  - intros [= <-]. apply Hgo; [done|]. by apply ordered_none.
  - done.
Qed.

Lemma Ord_perform e w w' :
  Inv w -> Ord w -> perform e w = Returns w' -> Ord w'.
Proof.
  intros HI HO. destruct e as [x| |nm buf| | |c|i|i|i]; simpl.
  - unfold push. by destruct (ch_closed (src (mux w))); intros [= <-].
  - unfold close_src. by destruct (chan_close (src (mux w))); intros [= <-].
  - destruct (AddOutput nm buf w) as [[w1 h]| |] eqn:Ha; intros [= <-].
    by eapply Ord_AddOutput.
  - unfold Start. destruct (lock (mux w)); [done|].
    destruct (started (mux w)) eqn:Hst; intros [= <-]; [done|].
    pose proof (inv_loops _ HI) as Hlen. rewrite Hst in Hlen.
    apply nil_length_inv in Hlen. unfold Ord, cur in *. simpl.
    by rewrite Hlen in *.
  - intros [= <-]. unfold WaitUntilFinished.
    by destruct (chan_recv (Finished (mux w))).
  - unfold consume. destruct (chans w !! c) as [sl|] eqn:Hsl; [|done].
    intros [= <-]. unfold Ord, cur. simpl. by apply ordered_insert.
  - destruct (loops w !! i) as [p|] eqn:Hi; [|done].
    destruct (loops_single _ _ _ HI Hi) as (-> & Hl & _).
    by apply Ord_loop_step.
  - destruct (loops w !! i) as [p|] eqn:Hi; [|done].
    destruct (loops_single _ _ _ HI Hi) as (-> & Hl & Hp & _).
    unfold Ord in HO. rewrite Hp in HO.
    destruct p; simpl; try done. unfold timeout_select_kill.
    destruct (_ <=? _); intros [= <-]. unfold Ord, cur, goto. simpl.
    rewrite Hl. simpl. refine (ordered_next _ _ _ _ _ HO); [|done]. right; eauto.
  - destruct (loops w !! i) as [p|] eqn:Hi; [|done].
    destruct (loops_single _ _ _ HI Hi) as (-> & Hl & Hp & _).
    unfold Ord in HO. rewrite Hp in HO.
    destruct p; simpl; try done.
    destruct (_ <? _); intros [= <-]. unfold Ord, cur, goto. simpl.
    rewrite Hl. simpl. refine (ordered_next _ _ _ _ _ HO); [|done]. by left.
Qed.

Lemma Ord_run es : forall w w',
  Inv w -> Ord w -> run w es = Some w' -> Ord w'.
Proof.
  induction es as [|e es IH]; simpl; intros w w' HI HO.
  - by intros [= <-].
  - unfold step. destruct (crashed w); [done|].
    destruct (perform e w) as [w1| |p] eqn:Hp; [|done|]; intros Hr.
    + apply (IH w1); [by eapply Inv_perform|by eapply Ord_perform|done].
    + by apply (IH (set_crashed w (Some p))); [apply Inv_set_crashed| |].
Qed.

(** X13: the outputs are served in the order of their registration.  At
    any time the outputs the goroutine has still to serve for the item in
    flight, or to close, are a run of consecutive handles, oldest first.
    So under the blocking writer, of two outputs registered before the
    first receive on the source the younger one is never ahead of the
    older one, and never more than one item behind. *)
Theorem X13_served_in_registration_order w :
  reachable w ->
  (exists k n : nat,
     dst <$> pending (cur w) = seq k n /\ (k + n <= length (chans w))%nat) /\
  (writer (mux w) = WriterBlocking ->
   forall h1 h2 s1 s2,
     (h1 < h2)%nat ->
     chans w !! h1 = Some s1 -> chans w !! h2 = Some s2 ->
     sl_born s1 = 0%nat -> sl_born s2 = 0%nat ->
     ch_sent (sl_ch s2) `prefix_of` ch_sent (sl_ch s1) /\
     (length (ch_sent (sl_ch s1)) <= S (length (ch_sent (sl_ch s2))))%nat).
Proof.
  intros Hreach. pose proof (reachable_Inv _ Hreach) as HI.
  assert (Ord w) as (k & n & Hs & Hle & Hb).
  { destruct Hreach as (m & Hm & es & Hr).
    eapply (Ord_run es (boot m)); [by apply Inv_boot|by apply Ord_boot|done]. }
  split; [by exists k, n|].
  intros Hw h1 h2 s1 s2 Hlt H1 H2 Hb1 Hb2.
  destruct (inv_slots _ HI _ _ H1) as [_ _ _ (tg1 & _ & Heq1 & Hc1)].
  destruct (inv_slots _ HI _ _ H2) as [_ _ _ (tg2 & _ & Heq2 & Hc2)].
  rewrite (Heq1 Hw Hb1), (Heq2 Hw Hb2).
  destruct Hc1 as [(Ho1 & x1 & Hx1 & Hr1) | (Ho1 & ->)].
  - destruct Hc2 as [(Ho2 & x2 & Hx2 & Hr2) | (Ho2 & ->)].
    + rewrite Hr1 in Hr2. apply app_inj_tail in Hr2 as [-> _].
      split; [done|lia].
    + exfalso. destruct (cur w) eqn:Hp; simpl in *; try done.
      * rewrite Hs in Ho1, Ho2. apply elem_of_seq in Ho1.
        assert (k + n <= h2)%nat as Hge
          by (destruct (decide (k + n <= h2)%nat) as [|Hn]; [done|];
              destruct Ho2; apply elem_of_seq; lia).
        specialize (Hb eq_refl _ _ H2 Hge). lia.
      * rewrite Hs in Ho1, Ho2. apply elem_of_seq in Ho1.
        assert (k + n <= h2)%nat as Hge
          by (destruct (decide (k + n <= h2)%nat) as [|Hn]; [done|];
              destruct Ho2; apply elem_of_seq; lia).
        specialize (Hb eq_refl _ _ H2 Hge). lia.
  - destruct Hc2 as [(Ho2 & x2 & Hx2 & ->) | (Ho2 & ->)].
    + split; [by apply prefix_app_r|]. rewrite length_app. simpl. lia.
    + split; [done|lia].
Qed.

Lemma X13_served_in_registration_order_witness :
  reachable at_first_served /\
  cur at_first_served = PWrite 1%nat [Output "v" 1%nat] /\
  exists s1 s2,
    chans at_first_served !! 0%nat = Some s1 /\
    chans at_first_served !! 1%nat = Some s2 /\
    ch_sent (sl_ch s1) = [1%nat] /\
    ch_sent (sl_ch s2) `prefix_of` ch_sent (sl_ch s1).
Proof.
  assert (reachable at_first_served) as Hr.
  { exists (NewBlockingPairMux (new_chan 0)). split.
    - left. by exists 0.
    - exists first_served. reflexivity. }
  split; [exact Hr|]. split; [reflexivity|].
  eexists _, _. split; [reflexivity|]. split; [reflexivity|].
  split; [reflexivity|].
  destruct (X13_served_in_registration_order _ Hr) as [_ Hord].
  refine (proj1 (Hord eq_refl 0%nat 1%nat _ _ _ eq_refl eq_refl
                   eq_refl eq_refl)). lia.
Defined.
(** *** The non-blocking writer and an output with room *)

Lemma NoLoss_boot m : constructed m -> NoLoss (boot m).
Proof. by intros [[cap ->] | (cap & t & ->)]; intros h sl. Qed.

Lemma NoLoss_transfer w w' :
  NoLoss w ->
  (forall h, (h < length (chans w))%nat ->
             owesb (cur w') h = owesb (cur w) h) ->
  ch_got (src (mux w')) = ch_got (src (mux w)) ->
  length (chans w') = length (chans w) ->
  (forall h sl, chans w !! h = Some sl ->
     exists sl', chans w' !! h = Some sl' /\
                 ch_sent (sl_ch sl') = ch_sent (sl_ch sl) /\
                 sl_born sl' = sl_born sl /\
                 ch_cap (sl_ch sl') = ch_cap (sl_ch sl)) ->
  NoLoss w'.
Proof.
  intros HN Ho Hg Hlen Hfw h sl' Hh.
  pose proof (lookup_lt_Some _ _ _ Hh) as Hlt. rewrite Hlen in Hlt.
  destruct (lookup_lt_is_Some_2 _ _ Hlt) as [sl Hsl].
  destruct (Hfw _ _ Hsl) as (sl'' & Hh'' & Hsent & Hborn & Hcap).
  simplify_eq. unfold lossless, offered. rewrite Hg, Hsent, Hborn, Hcap.
  rewrite (Ho _ Hlt). by apply HN.
Qed.

Lemma insert_slots_cap (cs : list slot) h0 s0 ch :
  cs !! h0 = Some s0 -> ch_sent ch = ch_sent (sl_ch s0) ->
  ch_cap ch = ch_cap (sl_ch s0) ->
  forall h sl, cs !! h = Some sl ->
    exists sl', <[h0 := set_ch s0 ch]> cs !! h = Some sl' /\
                ch_sent (sl_ch sl') = ch_sent (sl_ch sl) /\
                sl_born sl' = sl_born sl /\
                ch_cap (sl_ch sl') = ch_cap (sl_ch sl).
Proof.
  intros H0 Hs Hc h sl Hh. destruct (decide (h = h0)) as [->|Hne].
  - rewrite list_lookup_insert_eq by (by eapply lookup_lt_Some).
    eexists. split; [done|]. simplify_eq. done.
  - rewrite list_lookup_insert_ne by done. eauto.
Qed.

Lemma NoLoss_AddOutput nm buf w w' h :
  NoLoss w -> AddOutput nm buf w = Returns (w', h) -> NoLoss w'.
Proof.
  intros HN. unfold AddOutput.
  destruct (make_chan buf) as [c|] eqn:Hc; [|done].
  destruct (lock (mux w)); [done|]. intros [= <- <-].
  assert (ch_sent c = []) as Hsent.
  { by apply make_chan_Some in Hc as [-> _]. }
  intros h sl. unfold cur. simpl. fold (cur w).
  intros [Hh | [Hlen Hh]]%lookup_app_Some; [by apply HN|].
  destruct (h - length (chans w))%nat; simpl in Hh; [|done].
  simplify_eq. unfold lossless, offered. simpl. intros Hb _.
  assert (ch_got (src (mux w)) = []) as ->
    by (apply nil_length_inv; lia).
  rewrite Hsent. by destruct (owesb (cur w) h).
Qed.

(** The send of the non-blocking writer: an output with room for all that
    was read cannot be full. *)
Lemma NoLoss_write w x o t w1 :
  Inv w -> NoLoss w -> loops w = [PWrite x (o :: t)] ->
  nonBlockingOutputWriter o x w = Returns w1 ->
  NoLoss (goto 0 (PWrite x t) w1).
Proof.
  intros HI HN Hl Hw1.
  assert (cur w = PWrite x (o :: t)) as Hp by (by apply cur_single).
  pose proof (inv_pending_nodup _ HI) as Hnd. rewrite Hp in Hnd.
  simpl in Hnd. apply NoDup_cons in Hnd as [Hnin _].
  destruct (inv_flight _ HI x) as [prev Hprev]; [by rewrite Hp|].
  assert (forall h, h <> dst o ->
            owesb (PWrite x t) h = owesb (PWrite x (o :: t)) h) as Hoth.
  { intros h Hne. simpl. apply bool_decide_ext. rewrite elem_of_cons. tauto. }
  unfold nonBlockingOutputWriter in Hw1.
  destruct (blockingOutputWriter o x w) as [w2| |] eqn:Hb; simplify_eq.
  - apply blockingOutputWriter_inv in Hb as (s0 & ch & Hs0 & Hch & ->).
    destruct (chan_send_inv _ _ _ Hch) as (_ & _ & Hsent & Hcap & _).
    intros h sl. unfold cur, goto. simpl. rewrite Hl. simpl. intros Hh.
    destruct (decide (h = dst o)) as [->|Hne].
    + rewrite list_lookup_insert_eq in Hh by (by eapply lookup_lt_Some).
      simplify_eq. unfold lossless, offered. simpl.
      rewrite bool_decide_eq_false_2 by done. rewrite Hsent, Hcap.
      intros Hborn Hroom.
      pose proof (HN _ _ Hs0 Hborn Hroom) as Hold.
      rewrite Hp in Hold. unfold offered in Hold. simpl in Hold.
      rewrite bool_decide_eq_true_2 in Hold by (apply elem_of_cons; auto).
      rewrite Hold, Hprev, removelast_last. done.
    + rewrite list_lookup_insert_ne in Hh by done.
      unfold lossless, offered. rewrite (Hoth _ Hne).
      specialize (HN _ _ Hh). by rewrite Hp in HN.
  - intros h sl. unfold cur, goto. simpl. rewrite Hl. simpl. intros Hh.
    destruct (decide (h = dst o)) as [->|Hne].
    + intros Hborn Hroom. exfalso.
      pose proof (HN _ _ Hh Hborn Hroom) as Hold.
      rewrite Hp in Hold. unfold offered in Hold. simpl in Hold.
      rewrite bool_decide_eq_true_2 in Hold by (apply elem_of_cons; auto).
      rewrite Hprev, removelast_last in Hold.
      destruct (inv_slots _ HI _ _ Hh) as [(Hwf & _) _ _ _].
      rewrite Hprev, length_app in Hroom. simpl in Hroom.
      assert (length (ch_buf (sl_ch sl)) <= length prev)%nat as Hlen.
      { rewrite <- Hold, Hwf, length_app. lia. }
      unfold blockingOutputWriter in Hb. rewrite Hh in Hb.
      unfold chan_send in Hb. destruct (ch_closed (sl_ch sl)); [done|].
      destruct (ch_recvq (sl_ch sl)); [|done].
      by destruct (Z.ltb_spec (Z.of_nat (length (ch_buf (sl_ch sl))))
                     (ch_cap (sl_ch sl))); [|lia].
    + unfold lossless, offered. rewrite (Hoth _ Hne).
      specialize (HN _ _ Hh). by rewrite Hp in HN.
Qed.

Lemma NoLoss_loop_step w p w' :
  Inv w -> writer (mux w) = WriterNonBlocking -> NoLoss w ->
  loops w = [p] -> loop_step 0 p w = Returns w' -> NoLoss w'.
Proof.
  intros HI Hw HN Hl.
  assert (cur w = p) as Hp by (by apply cur_single).
  assert (forall q v, loops v = loops w -> cur (goto 0 q v) = q) as Hcur.
  { intros q v Hv. unfold cur, goto. simpl. by rewrite Hv, Hl. }
  destruct p as [|x|x [|o t]|x o t s| |[|o t]| |]; simpl.
  - destruct (chan_recv (src (mux w))) as [x c|c|] eqn:Hr; intros [= <-].
    + assert (ch_got c = ch_got (src (mux w)) ++ [x]) as Hg.
      { unfold chan_recv in Hr. destruct (ch_buf (src (mux w)));
          [by destruct (ch_closed (src (mux w)))|]. by simplify_eq. }
      intros h sl Hh. rewrite Hcur by done. simpl in *.
      unfold lossless, offered. simpl. rewrite Hg, removelast_last.
      intros Hborn Hroom. rewrite length_app in Hroom.
      specialize (HN _ _ Hh Hborn). rewrite Hp in HN.
      apply HN. lia.
    + assert (ch_got c = ch_got (src (mux w))) as Hg.
      { unfold chan_recv in Hr. destruct (ch_buf (src (mux w))); [|done].
        destruct (ch_closed (src (mux w))); by simplify_eq. }
      apply (NoLoss_transfer w); rewrite ?Hcur by done; simpl;
        rewrite ?Hp; try done; eauto 10.
  - destruct (lock (mux w)); intros [= <-].
    apply (NoLoss_transfer w); rewrite ?Hcur by done; simpl;
      rewrite ?Hp; try done; [|eauto 10].
    intros h Hh. apply bool_decide_eq_true_2.
    rewrite (inv_handles _ HI). apply elem_of_seq. lia.
  - intros [= <-].
    apply (NoLoss_transfer w); rewrite ?Hcur by done; simpl;
      rewrite ?Hp; try done; eauto 10.
  - unfold call_writer. rewrite Hw.
    intros (w1 & Hw1 & ->)%and_then_Returns. by eapply NoLoss_write.
  - destruct (inv_timed _ HI x o t s Hp) as (d & Hd & _). congruence.
  - destruct (lock (mux w)); intros [= <-].
    apply (NoLoss_transfer w); rewrite ?Hcur by done; simpl;
      rewrite ?Hp; try done; eauto 10.
  - destruct (chan_send (Finished (mux w)) true); intros [= <-];
      (apply (NoLoss_transfer w); rewrite ?Hcur by done; simpl;
       rewrite ?Hp; try done; eauto 10).
  - destruct (chans w !! dst o) as [s0|] eqn:Hs0; [|done].
    destruct (chan_close (sl_ch s0)) as [ch|] eqn:Hch; intros [= <-].
    destruct (chan_close_inv _ _ Hch) as (_ & _ & Hsent & _ & _ & _ & _ & Hcap).
    apply (NoLoss_transfer w); rewrite ?Hcur by done; simpl;
      rewrite ?Hp, ?length_insert; try done.
    by apply insert_slots_cap.
  - intros [= <-].
    apply (NoLoss_transfer w); rewrite ?Hcur by done; simpl;
      rewrite ?Hp; try done; eauto 10.
  - done.
Qed.

Lemma NoLoss_perform e w w' :
  Inv w -> writer (mux w) = WriterNonBlocking -> NoLoss w ->
  perform e w = Returns w' -> NoLoss w'.
Proof.
  intros HI Hw HN. destruct e as [x| |nm buf| | |c|i|i|i]; simpl.
  - unfold push. destruct (ch_closed (src (mux w))); intros [= <-].
    apply (NoLoss_transfer w); try done; eauto 10.
  - unfold close_src. destruct (chan_close (src (mux w))) as [c|] eqn:Hc;
      intros [= <-].
    unfold chan_close in Hc. destruct (ch_closed (src (mux w))); [done|].
    simplify_eq. apply (NoLoss_transfer w); try done; eauto 10.
  - destruct (AddOutput nm buf w) as [[w1 h]| |] eqn:Ha; intros [= <-].
    by eapply NoLoss_AddOutput.
  - unfold Start. destruct (lock (mux w)); [done|].
    destruct (started (mux w)) eqn:Hst; intros [= <-]; [done|].
    pose proof (inv_loops _ HI) as Hlen. rewrite Hst in Hlen.
    apply nil_length_inv in Hlen.
    apply (NoLoss_transfer w); unfold cur; simpl; rewrite ?Hlen;
      try done; eauto 10.
  - intros [= <-]. unfold WaitUntilFinished.
    destruct (chan_recv (Finished (mux w)));
      (apply (NoLoss_transfer w); try done; eauto 10).
  - unfold consume. destruct (chans w !! c) as [sl|] eqn:Hsl; [|done].
    intros [= <-].
    apply (NoLoss_transfer w); simpl; rewrite ?length_insert; try done.
    apply insert_slots_cap; [done| |]; unfold chan_recv, chan_park;
      (destruct (ch_buf (sl_ch sl)); [destruct (ch_closed (sl_ch sl))|]);
      done.
  - destruct (loops w !! i) as [p|] eqn:Hi; [|done].
    destruct (loops_single _ _ _ HI Hi) as (-> & Hl & _).
    by apply NoLoss_loop_step.
  - destruct (loops w !! i) as [p|] eqn:Hi; [|done].
    destruct (loops_single _ _ _ HI Hi) as (-> & Hl & Hp & _).
    destruct p; simpl; try done.
    destruct (inv_timed _ HI _ _ _ _ Hp) as (d & Hd & _). congruence.
  - destruct (loops w !! i) as [p|] eqn:Hi; [|done].
    destruct (loops_single _ _ _ HI Hi) as (-> & Hl & Hp & _).
    destruct p; simpl; try done.
    destruct (inv_timed _ HI _ _ _ _ Hp) as (d & Hd & _). congruence.
Qed.

Lemma NoLoss_run es : forall w w',
  Inv w -> writer (mux w) = WriterNonBlocking -> NoLoss w ->
  run w es = Some w' -> NoLoss w'.
Proof.
  induction es as [|e es IH]; simpl; intros w w' HI Hw HN.
  - by intros [= <-].
  - unfold step. destruct (crashed w); [done|].
    destruct (perform e w) as [w1| |p] eqn:Hp; [|done|]; intros Hr.
    + apply (IH w1); [by eapply Inv_perform| |by eapply NoLoss_perform|done].
      destruct (perform_frame _ _ _ Hp) as (_ & -> & _). done.
    + by apply (IH (set_crashed w (Some p))); [apply Inv_set_crashed| | |].
Qed.

(** X14: the non-blocking writer drops nothing for an output that has
    room.  In a mux made with timeout zero, an output registered before
    the first receive on the source, whose capacity is at least the number
    of items read so far, has been sent all the items read, in order, but
    possibly the one in flight, whether or not anybody receives from it;
    and once its channel is closed it has been sent all the items pushed
    to the source. *)
Theorem X14_nonblocking_keeps_what_fits cap w h sl :
  reachable_from (NewNonBlockingPairMux (new_chan cap) 0) w ->
  chans w !! h = Some sl -> sl_born sl = 0%nat ->
  Z.of_nat (length (ch_got (src (mux w)))) <= ch_cap (sl_ch sl) ->
  (ch_sent (sl_ch sl) = ch_got (src (mux w)) \/
   exists x, in_flight (cur w) = Some x /\
             ch_got (src (mux w)) = ch_sent (sl_ch sl) ++ [x]) /\
  (ch_closed (sl_ch sl) = true ->
   ch_sent (sl_ch sl) = ch_sent (src (mux w))).
Proof.
  intros Hr Hh Hborn Hroom.
  destruct (reachable_from_nonblocking _ _ _ Hr) as [Hreach Hw].
  simpl in Hw. pose proof (reachable_Inv _ Hreach) as HI.
  assert (NoLoss w) as HN.
  { destruct Hr as [es Hr]. eapply (NoLoss_run es (boot _)); [| | |done].
    - apply Inv_boot. right. eauto.
    - done.
    - apply NoLoss_boot. right. eauto. }
  pose proof (HN _ _ Hh Hborn Hroom) as Hsent. unfold offered in Hsent.
  destruct (owesb (cur w) h) eqn:Ho.
  - assert (exists x, in_flight (cur w) = Some x) as [x Hx]
      by (destruct (cur w); simpl in *; eauto; done).
    destruct (inv_flight _ HI _ Hx) as [prev Hprev].
    rewrite Hprev, removelast_last in Hsent. split.
    + right. exists x. split; [done|]. by rewrite Hsent.
    + intros Hc. destruct (inv_slots _ HI _ _ Hh) as [_ Hcl _ _].
      destruct (cur w); simpl in *; try done; destruct Hcl; congruence.
  - split; [by left|]. intros Hc.
    destruct (inv_slots _ HI _ _ Hh) as [_ Hcl _ _].
    destruct (inv_src_wf _ HI) as (Hsrc & _).
    pose proof (inv_src_end _ HI) as Hend.
    destruct (cur w); simpl in *; try (destruct Hcl; congruence);
      destruct Hend as (_ & Hb & _); auto;
      by rewrite Hsent, Hsrc, Hb, app_nil_r.
Qed.

Lemma X14_nonblocking_keeps_what_fits_witness :
  reachable_from (NewNonBlockingPairMux (new_chan 0) 0) after_roomy_unread /\
  loops after_roomy_unread = [PDone] /\
  ch_got (sl_ch (default (Slot (new_chan 0) 0 false)
                          (chans after_roomy_unread !! 0%nat))) = [] /\
  ch_sent (sl_ch (default (Slot (new_chan 0) 0 false)
                           (chans after_roomy_unread !! 0%nat)))
  = ch_sent (src (mux after_roomy_unread)).
Proof.
  assert (reachable_from (NewNonBlockingPairMux (new_chan 0) 0)
            after_roomy_unread) as Hr by (exists roomy_unread; reflexivity).
  split; [exact Hr|]. split; [reflexivity|]. split; [reflexivity|].
  refine (proj2 (X14_nonblocking_keeps_what_fits 0 after_roomy_unread 0%nat
                   _ Hr eq_refl eq_refl _) eq_refl).
  simpl. lia.
Defined.
